(** * Verification of the distribution client and storage core

    A shallow embedding of the Go sources of the repository: the
    in-memory object store with its layers and the windowed pull engine
    of package [client]; the storage-driver contract of package [driver]
    and its validating wrapper of package [base]; the recursive [Walk],
    the upload purger and the blob server of package [storage].

    Go values are modelled as follows.  An [error] interface value is an
    element of the inductive type [error]; the nil error is [None].  A
    function returning [(T, error)] returns a [result T].  Go's [int] and
    [int64] are integers of [Z]: the sum of sizes in [pullLayer] is
    wrapped explicitly, and the only other arithmetic, on the number of
    layers in [Pull], stays far below the bound.  An instant of
    [time.Time] is a number of nanoseconds.  A byte slice is a
    [list byte], and a nil slice is [None]. *)

From Stdlib Require Import ZArith Ascii String DecimalString.
From Stdlib.Strings Require Import Byte.
From stdpp Require Import gmap strings list fin_maps.

Open Scope Z_scope.

(** ** Errors *)

(** The error values the sources create and compare.  Sentinel errors
    ([ErrLayerLocked], [ErrSkipDir], ...) are package-level variables
    compared with [==]; the typed driver errors carry their fields; every
    other [fmt.Errorf]/[errors.New] value is an [ErrorString]. *)
Inductive error : Type :=
| ErrLayerAlreadyExists
| ErrLayerLocked
| ErrSkipDir
| ErrUnsupportedMethod
| PathNotFoundError (path : string)
| InvalidPathError (path : string)
| InvalidOffsetError (path : string) (offset : Z)
| ErrorString (msg : string).

#[global] Instance error_eq_dec : EqDecision error.
Proof. solve_decision. Defined.

Inductive result (A : Type) : Type :=
| Ok (a : A)
| Err (e : error).
Arguments Ok {A} a.
Arguments Err {A} e.

(** [err == sentinel] on Go error values. *)
Definition is_err (o : option error) (e : error) : bool :=
  match o with
  | Some e' => bool_decide (e' = e)
  | None => false
  end.

(** Length of a slice as a Go [int]. *)
Definition len {A} (l : list A) : Z := Z.of_nat (length l).

(** Two's-complement wrap-around of Go's 64-bit [int]. *)
Definition wrap64 (z : Z) : Z := (z + 2 ^ 63) mod 2 ^ 64 - 2 ^ 63.

(** ** Manifests *)

Module Manifest.

(** The parts of [manifest.SignedManifest] that the client reads. *)
Record FSLayer : Type := mkFSLayer { BlobSum : string }.

Record SignedManifest : Type := mkManifest {
  Name : string;
  Tag : string;
  FSLayers : list FSLayer;
  History : list string
}.

End Manifest.

(** ** The in-memory object store (package [client]) *)

Module ObjectStore.
Import Manifest.

(** [memoryLayer]: the condition variable only serialises the methods,
    which are modelled as atomic steps on the remaining fields. *)
Record memoryLayer : Type := mkLayer {
  contents : option (list byte);
  expectedSize : Z;
  writing : bool
}.

(** [&memoryLayer{cond: sync.NewCond(new(sync.Mutex))}], as allocated by
    [memoryObjectStore.Layer] on a miss. *)
Definition newMemoryLayer : memoryLayer :=
  {| contents := None; expectedSize := 0; writing := false |}.

(** [memoryLayerWriter]: the pointer [ml] is the layer the methods are
    applied to; [buffer] is the bytes of the writer's own [bytes.Buffer],
    which starts from the contents of the layer. *)
Record memoryLayerWriter : Type := mkWriter { buffer : list byte }.

Record memoryLayerReader : Type := mkReader { reader : list byte }.

Definition Reader (ml : memoryLayer) : result memoryLayerReader :=
  match contents ml with
  | None => Err (ErrorString "Layer has not been written to yet")
  | Some c =>
      if writing ml then Err ErrLayerLocked
      else Ok {| reader := c |}
  end.

Definition Writer (ml : memoryLayer) : memoryLayer * result memoryLayerWriter :=
  match contents ml with
  | Some c =>
      if writing ml then (ml, Err ErrLayerLocked)
      else if bool_decide (expectedSize ml = len c) then (ml, Err ErrLayerAlreadyExists)
      else ({| contents := Some c; expectedSize := expectedSize ml; writing := true |},
            Ok {| buffer := c |})
  | None =>
      ({| contents := Some []; expectedSize := expectedSize ml; writing := true |},
       Ok {| buffer := [] |})
  end.

(** [Wait] suspends on the condition variable while [writing] is set;
    [None] is the suspended call, which only returns after another
    goroutine's [Close]. *)
Definition Wait (ml : memoryLayer) : option (option error) :=
  match contents ml with
  | None => Some (Some (ErrorString "No writer to wait on"))
  | Some _ => if writing ml then None else Some None
  end.

Definition Write (ml : memoryLayer) (mlw : memoryLayerWriter) (p : list byte)
  : memoryLayer * memoryLayerWriter * (Z * option error) :=
  if bool_decide (expectedSize ml = 0) then
    (ml, mlw, (0, Some (ErrorString "Must set size before writing to layer")))
  else
    let b := buffer mlw ++ p in
    ({| contents := Some b; expectedSize := expectedSize ml; writing := writing ml |},
     {| buffer := b |}, (len p, None)).

(** [memoryLayerWriter.close], called by [Close] under the lock. *)
Definition close (ml : memoryLayer) : memoryLayer * option error :=
  ({| contents := contents ml; expectedSize := expectedSize ml; writing := false |}, None).

Definition Close (ml : memoryLayer) : memoryLayer * option error := close ml.

Definition CurrentSize (ml : memoryLayer) : Z :=
  match contents ml with
  | Some c => len c
  | None => 0
  end.

Definition Size (ml : memoryLayer) : Z := expectedSize ml.

Definition SetSize (ml : memoryLayer) (size : Z) : memoryLayer * option error :=
  if negb (writing ml) then (ml, Some (ErrorString "Layer is closed for writing"))
  else ({| contents := contents ml; expectedSize := size; writing := writing ml |}, None).

(** *** Reachable layers *)

(** The layers a program can hold: a fresh layer, changed only through
    the methods above.  [Write] may be issued through any writer handle,
    whatever its buffer, so stale handles are covered. *)
Inductive reachable : memoryLayer -> Prop :=
| reach_new : reachable newMemoryLayer
| reach_Writer ml : reachable ml -> reachable (Writer ml).1
| reach_Write ml mlw p : reachable ml -> reachable (Write ml mlw p).1.1
| reach_Close ml : reachable ml -> reachable (Close ml).1
| reach_SetSize ml size : reachable ml -> reachable (SetSize ml size).1.

(** *** Several clients on one layer *)

(** Operations of the clients of one layer.  Writer handles are numbered
    in the order they are granted. *)
Inductive op : Type :=
| OpWriter
| OpSetSize (h : nat) (size : Z)
| OpWrite (h : nat) (p : list byte)
| OpClose (h : nat).

(** The layer together with the handles granted so far.  [active] is
    the set of writers that were granted and have not been closed. *)
Record sys : Type := mkSys {
  layer : memoryLayer;
  writers : list memoryLayerWriter;
  active : gset nat
}.

Definition sys0 : sys :=
  {| layer := newMemoryLayer; writers := []; active := ∅ |}.

(** One operation.  [SetSize] and [Write] go through any handle that
    was granted; [Close] is issued once per handle, by a writer that is
    still active: [None] is a client breaking this.  A refused [Writer]
    request leaves the set of handles as it is. *)
Definition step (s : sys) (o : op) : option sys :=
  match o with
  | OpWriter =>
      match Writer (layer s) with
      | (ml, Ok w) =>
          Some {| layer := ml; writers := writers s ++ [w];
                  active := {[ length (writers s) ]} ∪ active s |}
      | (ml, Err _) => Some {| layer := ml; writers := writers s; active := active s |}
      end
  | OpSetSize h size =>
      match writers s !! h with
      | Some _ =>
          Some {| layer := (SetSize (layer s) size).1; writers := writers s;
                  active := active s |}
      | None => None
      end
  | OpWrite h p =>
      match writers s !! h with
      | Some w =>
          let '(ml, w', _) := Write (layer s) w p in
          Some {| layer := ml; writers := <[h := w']> (writers s); active := active s |}
      | None => None
      end
  | OpClose h =>
      if bool_decide (h ∈ active s) then
        Some {| layer := (Close (layer s)).1; writers := writers s;
                active := active s ∖ {[ h ]} |}
      else None
  end.

Fixpoint run (s : sys) (t : list op) : option sys :=
  match t with
  | [] => Some s
  | o :: t' =>
      match step s o with
      | Some s' => run s' t'
      | None => None
      end
  end.

(** The invariant of the clients of one layer: the writing flag is set
    exactly while one granted writer has not been closed. *)
Definition sys_inv (s : sys) : Prop :=
  (writing (layer s) = true -> contents (layer s) ≠ None)
  ∧ (writing (layer s) = true -> ∃ h, active s = {[ h ]})
  ∧ (writing (layer s) = false -> active s = ∅)
  ∧ (∀ h, h ∈ active s -> (h < length (writers s))%nat).

(** The results of [n] [Writer] requests issued one after the other
    with nothing in between: the order in which the layer's lock serves
    concurrent requests. *)
Fixpoint requests (n : nat) (ml : memoryLayer) : memoryLayer * list (result memoryLayerWriter) :=
  match n with
  | O => (ml, [])
  | S n' =>
      let '(ml1, r) := Writer ml in
      let '(ml2, rs) := requests n' ml1 in
      (ml2, r :: rs)
  end.

Definition granted {A} (r : result A) : bool :=
  match r with Ok _ => true | Err _ => false end.

(** The calls made through one writer handle, and the error each
    returns. *)
Inductive writerCall : Type :=
| DoSetSize (size : Z)
| DoWrite (p : list byte)
| DoClose.

Fixpoint useWriter (ml : memoryLayer) (mlw : memoryLayerWriter) (calls : list writerCall)
  : memoryLayer * memoryLayerWriter * list (option error) :=
  match calls with
  | [] => (ml, mlw, [])
  | c :: rest =>
      let '(ml1, mlw1, err) :=
        match c with
        | DoSetSize size => let '(ml1, err) := SetSize ml size in (ml1, mlw, err)
        | DoWrite p => let '(ml1, mlw1, r) := Write ml mlw p in (ml1, mlw1, r.2)
        | DoClose => let '(ml1, err) := Close ml in (ml1, mlw, err)
        end in
      let '(ml2, mlw2, errs) := useWriter ml1 mlw1 rest in
      (ml2, mlw2, err :: errs)
  end.

(** The errors of the [SetSize] calls among [calls]. *)
Fixpoint setSizeErrors (calls : list writerCall) (errs : list (option error))
  : list (option error) :=
  match calls, errs with
  | DoSetSize _ :: calls', e :: errs' => e :: setSizeErrors calls' errs'
  | _ :: calls', _ :: errs' => setSizeErrors calls' errs'
  | _, _ => []
  end.

(** *** The store *)

(** [memoryObjectStore]: the mutex serialises the methods.  A layer is
    held by pointer in the Go map; here the map holds the layer and a
    handle is its digest. *)
Record memoryObjectStore : Type := mkStore {
  manifestStorage : gmap string SignedManifest;
  layerStorage : gmap string memoryLayer
}.

Definition Manifest (name tag : string) (objStore : memoryObjectStore)
  : result SignedManifest :=
  match manifestStorage objStore !! (name +:+ ":" +:+ tag) with
  | Some manifest => Ok manifest
  | None => Err (ErrorString "No manifest found")
  end.

Definition WriteManifest (name tag : string) (manifest : SignedManifest)
    (objStore : memoryObjectStore) : memoryObjectStore * option error :=
  ({| manifestStorage := <[name +:+ ":" +:+ tag := manifest]> (manifestStorage objStore);
      layerStorage := layerStorage objStore |}, None).

Definition Layer (dgst : string) (objStore : memoryObjectStore)
  : memoryObjectStore * result string :=
  match layerStorage objStore !! dgst with
  | Some _ => (objStore, Ok dgst)
  | None =>
      ({| manifestStorage := manifestStorage objStore;
          layerStorage := <[dgst := newMemoryLayer]> (layerStorage objStore) |}, Ok dgst)
  end.

End ObjectStore.

(** ** The pull workflow (package [client]) *)

Module Client.
Import Manifest.

Definition simultaneousLayerPullWindow : Z := 4.

(** The body returned by [Client.GetBlob]: the chunks its [Read] calls
    deliver, then the error of the last [Read] ([None] is [io.EOF]). *)
Record blobReader : Type := mkBlob {
  reads : list (list byte);
  final : option error
}.

(** The calls [pullLayer] makes on its collaborators, in order. *)
Inductive event : Type :=
| CallLayer (dgst : string)
| CallWriter
| CallWait
| CallGetBlob (name dgst : string) (offset : Z)
| CallSetSize (size : Z)
| CallWrite (p : list byte)
| CallWriterClose
| CallReaderClose.

(** The collaborators of [pullLayer]: the [ObjectStore], [Layer] and
    [LayerWriter] interfaces of the package and the one method of
    [Client] it uses, over a state [W] that holds the local store and
    the remote registry.  [L] and [LW] are the layer and writer handles.
    [Wait] may suspend for ever ([None]). *)
Record Backend (W L LW : Type) : Type := mkBackend {
  Layer : string -> W -> W * result L;
  Writer : L -> W -> W * result LW;
  Wait : L -> W -> option (W * option error);
  CurrentSize : LW -> W -> Z;
  Size : LW -> W -> Z;
  SetSize : LW -> Z -> W -> W * option error;
  Write : LW -> list byte -> W -> W * (Z * option error);
  Close : LW -> W -> W * option error;
  GetBlob : string -> string -> Z -> W -> W * result (blobReader * Z)
}.
Arguments Layer {W L LW}.
Arguments Writer {W L LW}.
Arguments Wait {W L LW}.
Arguments CurrentSize {W L LW}.
Arguments Size {W L LW}.
Arguments SetSize {W L LW}.
Arguments Write {W L LW}.
Arguments Close {W L LW}.
Arguments GetBlob {W L LW}.

(** A computation on the state [W] that records the calls it makes and
    may suspend for ever. *)
Definition M (W A : Type) : Type := W -> option (W * list event * A).

Definition ret {W A} (a : A) : M W A := fun w => Some (w, [], a).

Definition bind {W A B} (m : M W A) (f : A -> M W B) : M W B :=
  fun w =>
    match m w with
    | None => None
    | Some (w1, l1, a) =>
        match f a w1 with
        | None => None
        | Some (w2, l2, b) => Some (w2, l1 ++ l2, b)
        end
    end.

Notation "x <- m ;; k" := (bind m (fun x => k))
  (at level 100, m at next level, right associativity).

(** A call that returns. *)
Definition call {W A} (ev : event) (f : W -> W * A) : M W A :=
  fun w => let '(w', a) := f w in Some (w', [ev], a).

(** A call that may suspend. *)
Definition blocking {W A} (ev : event) (f : W -> option (W * A)) : M W A :=
  fun w => match f w with
           | Some (w', a) => Some (w', [ev], a)
           | None => None
           end.

(** Reading a field through a handle. *)
Definition get {W A} (f : W -> A) : M W A := fun w => Some (w, [], f w).

(** [defer cleanup; body]: the deferred call runs when the function
    returns, and its own result is dropped. *)
Definition defer {W A B} (cleanup : M W B) (body : M W A) : M W A :=
  a <- body ;; _ <- cleanup ;; ret a.

Section PullLayer.
Context {W L LW : Type} (B : Backend W L LW).

(** [io.Copy(layerWriter, layerReader)], in its generic form (neither
    side provides [WriteTo] or [ReadFrom]): one [Write] per non-empty
    chunk read; a failed or short [Write] stops the copy; the reader's
    last error is returned unless it is [io.EOF]. *)
Fixpoint ioCopy (dst : LW) (chunks : list (list byte)) (last : option error)
  : M W (Z * option error) :=
  match chunks with
  | [] => ret (0, last)
  | p :: rest =>
      if bool_decide (0 < len p) then
        wr <- call (CallWrite p) (Write B dst p) ;;
        let '(nw, ew) := wr in
        let written := if bool_decide (0 < nw) then nw else 0 in
        match ew with
        | Some e => ret (written, Some e)
        | None =>
            if bool_decide (len p ≠ nw) then ret (written, Some (ErrorString "short write"))
            else cp <- ioCopy dst rest last ;; ret (written + cp.1, cp.2)
        end
      else ioCopy dst rest last
  end.

(** [pullLayer].  The logging calls are left out. *)
Definition pullLayer (name : string) (fsLayer : FSLayer) : M W (option error) :=
  r <- call (CallLayer (BlobSum fsLayer)) (Layer B (BlobSum fsLayer)) ;;
  match r with
  | Err err => ret (Some err)
  | Ok layer =>
      rw <- call CallWriter (Writer B layer) ;;
      match rw with
      | Err err =>
          if bool_decide (err = ErrLayerAlreadyExists) then ret None
          else if bool_decide (err = ErrLayerLocked) then
            _ <- blocking CallWait (Wait B layer) ;; ret None
          else ret (Some err)
      | Ok layerWriter =>
          defer (call CallWriterClose (Close B layerWriter))
            (offset <- get (CurrentSize B layerWriter) ;;
             rb <- call (CallGetBlob name (BlobSum fsLayer) offset)
                        (GetBlob B name (BlobSum fsLayer) offset) ;;
             match rb with
             | Err err => ret (Some err)
             | Ok (layerReader, length) =>
                 defer (call CallReaderClose (fun w => (w, @None error)))
                   (cur <- get (CurrentSize B layerWriter) ;;
                    _ <- call (CallSetSize (wrap64 (cur + length)))
                              (SetSize B layerWriter (wrap64 (cur + length))) ;;
                    cp <- ioCopy layerWriter (reads layerReader) (final layerReader) ;;
                    match cp.2 with
                    | Some e => ret (Some e)
                    | None =>
                        cur' <- get (CurrentSize B layerWriter) ;;
                        size <- get (Size B layerWriter) ;;
                        if bool_decide (cur' ≠ size) then
                          ret (Some (ErrorString "Wrote incorrect number of bytes for layer"))
                        else ret None
                    end)
             end)
      end
  end.

End PullLayer.

(** *** The scheduler *)

(** What the goroutine running [Pull] does, in order.  [Spawn i l] is
    the [go] statement for layer [i]; [Recv i] is the receive on
    [errChans[i]]. *)
Inductive action : Type :=
| GetImageManifest (name tag : string)
| Spawn (i : nat) (fsLayer : FSLayer)
| Recv (i : nat)
| CloseCancel
| WriteManifest (name tag : string) (m : SignedManifest).

(** What that goroutine observes of the others: the reply of the
    registry, the value each worker offers on its channel (its
    [pullLayer] result, whatever the interleaving that produced it) and
    the result of [ObjectStore.WriteManifest]. *)
Record observed : Type := mkObserved {
  manifestReply : result SignedManifest;
  layerResult : nat -> option error;
  writeResult : option error
}.

(** The [for] loop of [Pull] from index [i], for [n] more iterations:
    [Some err] is the early [return err]. *)
Fixpoint pullLoop (obs : observed) (layers : list FSLayer) (n i : nat)
  : list action * option error :=
  match n with
  | O => ([], None)
  | S n' =>
      let dependentLayer := Z.of_nat i - simultaneousLayerPullWindow in
      let received :=
        if bool_decide (0 <= dependentLayer) then
          ([Recv (Z.to_nat dependentLayer)], layerResult obs (Z.to_nat dependentLayer))
        else ([], None) in
      match received.2 with
      | Some err => (received.1 ++ [CloseCancel], Some err)
      | None =>
          let spawned :=
            match layers !! i with
            | Some fsLayer => [Spawn i fsLayer]
            | None => []
            end in
          let '(rest, r) := pullLoop obs layers n' (S i) in
          (received.1 ++ spawned ++ rest, r)
      end
  end.

(** The indices received and the indices spawned, in order. *)
Definition received (acts : list action) : list nat :=
  omap (fun a => match a with Recv i => Some i | _ => None end) acts.

Definition spawned (acts : list action) : list nat :=
  omap (fun a => match a with Spawn i _ => Some i | _ => None end) acts.

Definition isWriteManifest (a : action) : bool :=
  match a with WriteManifest _ _ _ => true | _ => false end.

Definition isCloseCancel (a : action) : bool :=
  match a with CloseCancel => true | _ => false end.

Definition Pull (obs : observed) (name tag : string) : list action * option error :=
  match manifestReply obs with
  | Err err => ([GetImageManifest name tag], Some err)
  | Ok manifest =>
      if bool_decide (len (FSLayers manifest) ≠ len (History manifest)) then
        ([GetImageManifest name tag],
         Some (ErrorString "Length of history not equal to number of layers"))
      else if bool_decide (len (FSLayers manifest) = 0) then
        ([GetImageManifest name tag], Some (ErrorString "Image has no layers"))
      else
        let '(acts, r) :=
          pullLoop obs (FSLayers manifest)
            (Z.to_nat (len (FSLayers manifest) + simultaneousLayerPullWindow)) 0 in
        match r with
        | Some err => (GetImageManifest name tag :: acts, Some err)
        | None =>
            (GetImageManifest name tag :: acts ++ [WriteManifest name tag manifest],
             writeResult obs)
        end
  end.

(** *** Manifests and observations of the examples *)

(** A manifest with [n] layers, named by their index, and [h] history
    entries. *)
Definition manifestOf (n h : nat) : SignedManifest :=
  {| Name := "library/busybox"; Tag := "latest";
     FSLayers :=
       map (fun i => {| BlobSum := "sha256:" +:+ NilZero.string_of_uint (Nat.to_uint i) |})
           (seq 0 n);
     History := replicate h "{}" |}.

(** Every layer succeeds but layer [k], which fails with [e]. *)
Definition failingAt (k : nat) (e : error) (i : nat) : option error :=
  if (i =? k)%nat then Some e else None.

End Client.

(** ** Regular expressions ([regexp.MustCompile] and [MatchString]) *)

Module Regexp.

(** The syntax the path expression needs, matched byte by byte with
    derivatives.  The classes of the path expression hold ASCII bytes
    only, so matching bytes and matching runes agree. *)
Inductive regexp : Type :=
| NoMatch
| EmptyMatch
| CharClass (class : ascii -> bool)
| Concat (r1 r2 : regexp)
| Alternate (r1 r2 : regexp)
| Star (r : regexp).

(** [r+] *)
Definition Plus (r : regexp) : regexp := Concat r (Star r).

Definition Literal (c : ascii) : regexp := CharClass (Ascii.eqb c).

Fixpoint nullable (r : regexp) : bool :=
  match r with
  | NoMatch => false
  | EmptyMatch => true
  | CharClass _ => false
  | Concat r1 r2 => nullable r1 && nullable r2
  | Alternate r1 r2 => nullable r1 || nullable r2
  | Star _ => true
  end.

Fixpoint deriv (c : ascii) (r : regexp) : regexp :=
  match r with
  | NoMatch => NoMatch
  | EmptyMatch => NoMatch
  | CharClass class => if class c then EmptyMatch else NoMatch
  | Concat r1 r2 =>
      if nullable r1 then Alternate (Concat (deriv c r1) r2) (deriv c r2)
      else Concat (deriv c r1) r2
  | Alternate r1 r2 => Alternate (deriv c r1) (deriv c r2)
  | Star r1 => Concat (deriv c r1) (Star r1)
  end.

(** [MatchString] of the expression [^r$]: without the [m] flag both
    anchors are those of the whole text. *)
Fixpoint MatchString (r : regexp) (s : string) : bool :=
  match s with
  | EmptyString => nullable r
  | String c s' => MatchString (deriv c r) s'
  end.

(** The words of [r], as the usual inductive semantics. *)
Inductive matches : regexp -> string -> Prop :=
| m_empty : matches EmptyMatch EmptyString
| m_class class c : class c = true -> matches (CharClass class) (String c EmptyString)
| m_concat r1 r2 s1 s2 : matches r1 s1 -> matches r2 s2 -> matches (Concat r1 r2) (s1 +:+ s2)
| m_alt_l r1 r2 s : matches r1 s -> matches (Alternate r1 r2) s
| m_alt_r r1 r2 s : matches r2 s -> matches (Alternate r1 r2) s
| m_star_nil r : matches (Star r) EmptyString
| m_star_cons r s1 s2 : matches r s1 -> matches (Star r) s2 -> matches (Star r) (s1 +:+ s2).

End Regexp.

(** ** The storage driver contract (package [driver]) *)

Module Driver.

(** [FileInfoFields]; [ModTime] is an instant in nanoseconds. *)
Record FileInfo : Type := mkFileInfo {
  Path : string;
  Size : Z;
  ModTime : Z;
  IsDir : bool
}.

(** [StorageDriver] over a driver state [D].  The request context is
    left out: it only carries the trace.  A stream is the bytes it
    delivers. *)
Record StorageDriver (D : Type) : Type := mkDriver {
  Name : D -> D * string;
  GetContent : string -> D -> D * result (list byte);
  PutContent : string -> list byte -> D -> D * option error;
  ReadStream : string -> Z -> D -> D * result (list byte);
  WriteStream : string -> Z -> list byte -> D -> D * (Z * option error);
  Stat : string -> D -> D * result FileInfo;
  List : string -> D -> D * result (list string);
  Move : string -> string -> D -> D * option error;
  Delete : string -> D -> D * option error;
  URLFor : string -> gmap string string -> D -> D * result string
}.
Arguments Name {D}.
Arguments GetContent {D}.
Arguments PutContent {D}.
Arguments ReadStream {D}.
Arguments WriteStream {D}.
Arguments Stat {D}.
Arguments List {D}.
Arguments Move {D}.
Arguments Delete {D}.
Arguments URLFor {D}.

Definition in_range (lo hi : string) (c : ascii) : bool :=
  match lo, hi with
  | String l EmptyString, String h EmptyString =>
      (nat_of_ascii l <=? nat_of_ascii c)%nat && (nat_of_ascii c <=? nat_of_ascii h)%nat
  | _, _ => false
  end.

(** The class [[A-Za-z0-9._-]]. *)
Definition path_class (c : ascii) : bool :=
  in_range "A" "Z" c || in_range "a" "z" c || in_range "0" "9" c
  || Ascii.eqb c "." || Ascii.eqb c "_" || Ascii.eqb c "-".

(** [regexp.MustCompile(`^(/[A-Za-z0-9._-]+)+$`)] *)
Definition PathRegexp : Regexp.regexp :=
  Regexp.Plus
    (Regexp.Concat (Regexp.Literal "/") (Regexp.Plus (Regexp.CharClass path_class))).

End Driver.

(** ** The validating wrapper (package [base]) *)

Module Base.
Import Driver.

Section Base.
Context {D : Type} (inner : StorageDriver D).

(** Every method starts with [defer done(format, base.Name(), ...)]:
    the arguments of a deferred call are evaluated at the [defer]
    statement, so the embedded driver's [Name] runs first, whatever
    the arguments.  The trace itself is left out. *)

Definition GetContent (path : string) (d : D) : D * result (list byte) :=
  let '(d, _) := Name inner d in
  if negb (Regexp.MatchString PathRegexp path) then (d, Err (InvalidPathError path))
  else Driver.GetContent inner path d.

Definition PutContent (path : string) (content : list byte) (d : D) : D * option error :=
  let '(d, _) := Name inner d in
  if negb (Regexp.MatchString PathRegexp path) then (d, Some (InvalidPathError path))
  else Driver.PutContent inner path content d.

Definition ReadStream (path : string) (offset : Z) (d : D) : D * result (list byte) :=
  let '(d, _) := Name inner d in
  if bool_decide (offset < 0) then (d, Err (InvalidOffsetError path offset))
  else if negb (Regexp.MatchString PathRegexp path) then (d, Err (InvalidPathError path))
  else Driver.ReadStream inner path offset d.

Definition WriteStream (path : string) (offset : Z) (reader : list byte) (d : D)
  : D * (Z * option error) :=
  let '(d, _) := Name inner d in
  if bool_decide (offset < 0) then (d, (0, Some (InvalidOffsetError path offset)))
  else if negb (Regexp.MatchString PathRegexp path) then (d, (0, Some (InvalidPathError path)))
  else Driver.WriteStream inner path offset reader d.

Definition Stat (path : string) (d : D) : D * result FileInfo :=
  let '(d, _) := Name inner d in
  if negb (Regexp.MatchString PathRegexp path) then (d, Err (InvalidPathError path))
  else Driver.Stat inner path d.

Definition List (path : string) (d : D) : D * result (list string) :=
  let '(d, _) := Name inner d in
  if negb (Regexp.MatchString PathRegexp path) && negb (String.eqb path "/") then
    (d, Err (InvalidPathError path))
  else Driver.List inner path d.

Definition Move (sourcePath destPath : string) (d : D) : D * option error :=
  let '(d, _) := Name inner d in
  if negb (Regexp.MatchString PathRegexp sourcePath) then (d, Some (InvalidPathError sourcePath))
  else if negb (Regexp.MatchString PathRegexp destPath) then (d, Some (InvalidPathError destPath))
  else Driver.Move inner sourcePath destPath d.

Definition Delete (path : string) (d : D) : D * option error :=
  let '(d, _) := Name inner d in
  if negb (Regexp.MatchString PathRegexp path) then (d, Some (InvalidPathError path))
  else Driver.Delete inner path d.

Definition URLFor (path : string) (options : gmap string string) (d : D) : D * result string :=
  let '(d, _) := Name inner d in
  if negb (Regexp.MatchString PathRegexp path) then (d, Err (InvalidPathError path))
  else Driver.URLFor inner path options d.

(** [Base] embeds the driver, so [Name] is the inner driver's own. *)
Definition Base : StorageDriver D :=
  {| Driver.Name := Name inner;
     Driver.GetContent := GetContent;
     Driver.PutContent := PutContent;
     Driver.ReadStream := ReadStream;
     Driver.WriteStream := WriteStream;
     Driver.Stat := Stat;
     Driver.List := List;
     Driver.Move := Move;
     Driver.Delete := Delete;
     Driver.URLFor := URLFor |}.

End Base.

(** *** Requests, for statements about every operation *)

Inductive request : Type :=
| GetContentReq (path : string)
| PutContentReq (path : string) (content : list byte)
| ReadStreamReq (path : string) (offset : Z)
| WriteStreamReq (path : string) (offset : Z) (reader : list byte)
| StatReq (path : string)
| ListReq (path : string)
| MoveReq (sourcePath destPath : string)
| DeleteReq (path : string)
| URLForReq (path : string) (options : gmap string string).

Inductive reply : Type :=
| BytesReply (r : result (list byte))
| ErrorReply (r : option error)
| CountReply (r : Z * option error)
| InfoReply (r : result FileInfo)
| ListReply (r : result (list string))
| URLReply (r : result string).

Definition result_error {A} (r : result A) : option error :=
  match r with Ok _ => None | Err e => Some e end.

Definition reply_error (r : reply) : option error :=
  match r with
  | BytesReply r => result_error r
  | ErrorReply r => r
  | CountReply r => r.2
  | InfoReply r => result_error r
  | ListReply r => result_error r
  | URLReply r => result_error r
  end.

(** The method of a driver a request stands for. *)
Definition invoke {D} (drv : StorageDriver D) (req : request) (d : D) : D * reply :=
  match req with
  | GetContentReq path => prod_map id BytesReply (Driver.GetContent drv path d)
  | PutContentReq path content => prod_map id ErrorReply (Driver.PutContent drv path content d)
  | ReadStreamReq path offset => prod_map id BytesReply (Driver.ReadStream drv path offset d)
  | WriteStreamReq path offset reader =>
      prod_map id CountReply (Driver.WriteStream drv path offset reader d)
  | StatReq path => prod_map id InfoReply (Driver.Stat drv path d)
  | ListReq path => prod_map id ListReply (Driver.List drv path d)
  | MoveReq src dst => prod_map id ErrorReply (Driver.Move drv src dst d)
  | DeleteReq path => prod_map id ErrorReply (Driver.Delete drv path d)
  | URLForReq path options => prod_map id URLReply (Driver.URLFor drv path options d)
  end.

(** The condition of the specification: every path argument matches
    [PathRegexp] ([List] also takes ["/"]) and the offset, where there is
    one, is not negative. *)
Definition valid_path (path : string) : bool := Regexp.MatchString PathRegexp path.

Definition accepted (req : request) : bool :=
  match req with
  | GetContentReq path | PutContentReq path _ | StatReq path
  | DeleteReq path | URLForReq path _ => valid_path path
  | ReadStreamReq path offset | WriteStreamReq path offset _ =>
      valid_path path && bool_decide (0 <= offset)
  | ListReq path => valid_path path || String.eqb path "/"
  | MoveReq src dst => valid_path src && valid_path dst
  end.

(** The error of a request that is not accepted: the offset is checked
    before the path, the source before the destination. *)
Definition rejection (req : request) : error :=
  match req with
  | GetContentReq path | PutContentReq path _ | StatReq path
  | DeleteReq path | URLForReq path _ | ListReq path => InvalidPathError path
  | ReadStreamReq path offset | WriteStreamReq path offset _ =>
      if bool_decide (offset < 0) then InvalidOffsetError path offset
      else InvalidPathError path
  | MoveReq src dst =>
      if valid_path src then InvalidPathError dst else InvalidPathError src
  end.

(** *** A recording driver *)

(** The calls a driver receives. *)
Inductive call : Type :=
| CallName
| CallGetContent (path : string)
| CallPutContent (path : string) (content : list byte)
| CallReadStream (path : string) (offset : Z)
| CallWriteStream (path : string) (offset : Z) (reader : list byte)
| CallStat (path : string)
| CallList (path : string)
| CallMove (sourcePath destPath : string)
| CallDelete (path : string)
| CallURLFor (path : string) (options : gmap string string).

Definition call_of (req : request) : call :=
  match req with
  | GetContentReq path => CallGetContent path
  | PutContentReq path content => CallPutContent path content
  | ReadStreamReq path offset => CallReadStream path offset
  | WriteStreamReq path offset reader => CallWriteStream path offset reader
  | StatReq path => CallStat path
  | ListReq path => CallList path
  | MoveReq src dst => CallMove src dst
  | DeleteReq path => CallDelete path
  | URLForReq path options => CallURLFor path options
  end.

(** A driver that only records its calls, oldest first, and answers
    that nothing is stored. *)
Definition recorder : StorageDriver (list call) :=
  {| Driver.Name := fun d => (d ++ [CallName], "recorder");
     Driver.GetContent := fun path d =>
       (d ++ [CallGetContent path], Err (PathNotFoundError path));
     Driver.PutContent := fun path content d => (d ++ [CallPutContent path content], None);
     Driver.ReadStream := fun path offset d =>
       (d ++ [CallReadStream path offset], Err (PathNotFoundError path));
     Driver.WriteStream := fun path offset reader d =>
       (d ++ [CallWriteStream path offset reader], (len reader, None));
     Driver.Stat := fun path d => (d ++ [CallStat path], Err (PathNotFoundError path));
     Driver.List := fun path d => (d ++ [CallList path], Ok []);
     Driver.Move := fun src dst d => (d ++ [CallMove src dst], None);
     Driver.Delete := fun path d => (d ++ [CallDelete path], None);
     Driver.URLFor := fun path options d =>
       (d ++ [CallURLFor path options], Err ErrUnsupportedMethod) |}.

End Base.

(** ** Walking the driver, purging uploads, serving blobs
    ([registry/storage]) *)

Module Storage.
Import Driver.

(** How a call ends: it returns, it panics (an index out of range), or
    the recursion of the model ran out of [fuel]. *)
Inductive outcome (A : Type) : Type :=
| Returned (a : A)
| Panic
| OutOfFuel.
Arguments Returned {A} a.
Arguments Panic {A}.
Arguments OutOfFuel {A}.

Section Walk.
Context {D S : Type} (driver : StorageDriver D).

(** [WalkFn], with the variables its closure captures ([S]) and the
    driver it may read. *)
Definition WalkFn : Type := FileInfo -> S -> D -> outcome (S * D * option error).

(** [Walk].  The recursion follows the driver's listings, so the model
    counts the nesting depth down from [fuel].  As in the source, the
    value of the nested call [Walk(ctx, driver, child, f)] is not used. *)
Fixpoint Walk (fuel : nat) (from : string) (f : WalkFn) (s : S) (d : D)
  : outcome (S * D * option error) :=
  match fuel with
  | O => OutOfFuel
  | Datatypes.S fuel' =>
      let '(d, r) := List driver from d in
      match r with
      | Err err => Returned (s, d, Some err)
      | Ok children =>
          (fix range (children : list string) (s : S) (d : D) {struct children} :=
             match children with
             | [] => Returned (s, d, None)
             | child :: rest =>
                 let '(d, ri) := Stat driver child d in
                 match ri with
                 | Err err => Returned (s, d, Some err)
                 | Ok fileInfo =>
                     match f fileInfo s d with
                     | Returned (s, d, err) =>
                         let skipDir := is_err err ErrSkipDir in
                         if bool_decide (err ≠ None) && negb skipDir then Returned (s, d, err)
                         else if IsDir fileInfo && negb skipDir then
                           match Walk fuel' child f s d with
                           | Returned (s, d, _) => range rest s d
                           | Panic => Panic
                           | OutOfFuel => OutOfFuel
                           end
                         else range rest s d
                     | Panic => Panic
                     | OutOfFuel => OutOfFuel
                     end
                 end
             end) children s d
      end
  end.

End Walk.

(** [fmt.Errorf] and [err.Error()]: the text of an error. *)
Definition FormatInt (z : Z) : string :=
  DecimalString.NilZero.string_of_int (Z.to_int z).

Definition Error (e : error) : string :=
  match e with
  | ErrLayerAlreadyExists => "Layer already exists"
  | ErrLayerLocked => "Layer locked"
  | ErrSkipDir => "skip this directory"
  | ErrUnsupportedMethod => "unsupported method"
  | PathNotFoundError path => "Path not found: " +:+ path
  | InvalidPathError path => "Invalid path: " +:+ path
  | InvalidOffsetError path offset =>
      "Invalid offset: " +:+ FormatInt offset +:+ " for path: " +:+ path
  | ErrorString msg => msg
  end.

Definition pushError (errors : list error) (path : string) (err : error) : list error :=
  errors ++ [ErrorString (path +:+ ": " +:+ Error err)].

(** [path.Split]: the text after the last slash is the file. *)
Fixpoint pathSplit (path : string) : string * string :=
  match path with
  | EmptyString => (EmptyString, EmptyString)
  | String c rest =>
      let '(dir, file) := pathSplit rest in
      match dir with
      | EmptyString =>
          if Ascii.eqb c "/" then (String c EmptyString, file)
          else (EmptyString, String c file)
      | _ => (String c dir, file)
      end
  end.

(** [strings.Split(path, "/")] *)
Fixpoint splitSlash (path : string) : list string :=
  match path with
  | EmptyString => [EmptyString]
  | String c rest =>
      if Ascii.eqb c "/" then EmptyString :: splitSlash rest
      else match splitSlash rest with
           | first :: others => String c first :: others
           | [] => [String c EmptyString]
           end
  end.

(** [time.Hour], in nanoseconds. *)
Definition Hour : Z := 3600 * 1000000000.

Record uploadData : Type := mkUploadData {
  containingDir : string;
  startedAt : Z
}.

(** [newUploadData], at the instant [now] read from [time.Now()]. *)
Definition newUploadData (now : Z) : uploadData :=
  {| containingDir := ""; startedAt := now + 10000 * Hour |}.

(** The variables captured by the closure of [getOutstandingUploads],
    and the number of [time.Now()] readings made so far. *)
Record sweep : Type := mkSweep {
  uploads : gmap string uploadData;
  errors : list error;
  inUploadDir : bool;
  ticks : nat
}.

Section PurgeUploads.
Context {D : Type} (driver : StorageDriver D).

(** What the sources import and this repository does not define:
    [uuid.Parse] followed by [String] (the canonical text of a
    component that is a UUID), [time.Parse(time.RFC3339, _)] on the
    bytes of a file, the successive readings of [time.Now()], the
    repositories root of the path mapper, and the order in which a
    [range] enumerates a map. *)
Variable uuidParse : string -> option string.
Variable timeParse : list byte -> result Z.
Variable timeNow : nat -> Z.
Variable root : result string.
Variable ranging : gmap string uploadData -> list (string * uploadData).

Fixpoint uuidScan (components : list string) (last : bool) : string * bool :=
  match components with
  | [] => ("", false)
  | c :: rest =>
      match uuidParse c with
      | Some uuid => (uuid, last)
      | None => uuidScan rest false
      end
  end.

(** [uUIDFromPath]: the components are tried from the last one. *)
Definition uUIDFromPath (path : string) : string * bool :=
  uuidScan (rev (splitSlash path)) true.

(** [readStartedAtFile]; both failing branches read the clock. *)
Definition readStartedAtFile (path : string) (ticks : nat) (d : D) : D * nat * result Z :=
  let '(d, r) := GetContent driver path d in
  match r with
  | Err err => (d, Datatypes.S ticks, Err err)
  | Ok startedAtBytes =>
      match timeParse startedAtBytes with
      | Err err => (d, Datatypes.S ticks, Err err)
      | Ok t => (d, ticks, Ok t)
      end
  end.

(** The function literal passed to [Walk]. *)
Definition visit (fileInfo : FileInfo) (st : sweep) (d : D)
  : outcome (sweep * D * option error) :=
  let filePath := Path fileInfo in
  let file := (pathSplit filePath).2 in
  match file with
  | EmptyString => Panic
  | String c _ =>
      let reserved := Ascii.eqb c "_" in
      let st :=
        if reserved then
          {| uploads := uploads st; errors := errors st;
             inUploadDir := String.eqb file "_uploads"; ticks := ticks st |}
        else st in
      if reserved && IsDir fileInfo && negb (inUploadDir st) then
        Returned (st, d, Some ErrSkipDir)
      else
        let '(uuid, isContainingDir) := uUIDFromPath filePath in
        if String.eqb uuid "" then Returned (st, d, None)
        else
          let '(ud, ticks1) :=
            match uploads st !! uuid with
            | Some ud => (ud, ticks st)
            | None => (newUploadData (timeNow (ticks st)), Datatypes.S (ticks st))
            end in
          let ud :=
            if isContainingDir then
              {| containingDir := filePath; startedAt := startedAt ud |}
            else ud in
          let '(d, ticks2, ud, errs) :=
            if String.eqb file "startedat" then
              match readStartedAtFile filePath ticks1 d with
              | (d, ticks2, Ok t) =>
                  (d, ticks2, {| containingDir := containingDir ud; startedAt := t |},
                   errors st)
              | (d, ticks2, Err err) => (d, ticks2, ud, pushError (errors st) filePath err)
              end
            else (d, ticks1, ud, errors st) in
          Returned ({| uploads := <[uuid := ud]> (uploads st); errors := errs;
                       inUploadDir := inUploadDir st; ticks := ticks2 |}, d, None)
  end.

(** A set of driver states that the reading methods do not leave:
    the states the sweep can find the driver in. *)
Definition readable (states : D -> Prop) : Prop :=
  ∀ path d, states d ->
    states (List driver path d).1 ∧ states (Stat driver path d).1
    ∧ states (GetContent driver path d).1.

(** The timestamp of a record is the default of [newUploadData], at
    some reading of the clock, or was read from a [startedat] file of
    its upload in one of the [states]. *)
Definition defaulted (t : Z) : Prop := ∃ k, t = timeNow k + 10000 * Hour.

Definition fromStartedAtFile (states : D -> Prop) (uuid : string) (t : Z) : Prop :=
  ∃ path ticks d,
    states d
    ∧ (uUIDFromPath path).1 = uuid
    ∧ (pathSplit path).2 = "startedat"
    ∧ (readStartedAtFile path ticks d).2 = Ok t.

Definition stamped (states : D -> Prop) (st : sweep) : Prop :=
  ∀ uuid ud, uploads st !! uuid = Some ud ->
    defaulted (startedAt ud) ∨ fromStartedAtFile states uuid (startedAt ud).

(** The containing directory of a record, once known, is a path whose
    last component is the UUID of the record. *)
Definition located (st : sweep) : Prop :=
  ∀ uuid ud, uploads st !! uuid = Some ud ->
    containingDir ud = "" ∨ uUIDFromPath (containingDir ud) = (uuid, true).

Definition sweep0 : sweep :=
  {| uploads := ∅; errors := []; inUploadDir := false; ticks := 0 |}.

Definition getOutstandingUploads (fuel : nat) (d : D) : outcome (sweep * D) :=
  match root with
  | Err err =>
      Returned ({| uploads := ∅; errors := [err]; inUploadDir := false; ticks := 0 |}, d)
  | Ok root =>
      match Walk driver fuel root visit sweep0 d with
      | Returned (st, d, Some err) =>
          Returned ({| uploads := uploads st; errors := pushError (errors st) root err;
                       inUploadDir := inUploadDir st; ticks := ticks st |}, d)
      | Returned (st, d, None) => Returned (st, d)
      | Panic => Panic
      | OutOfFuel => OutOfFuel
      end
  end.

(** The [range] loop of [PurgeUploads] over the collected records. *)
Fixpoint purge (records : list (string * uploadData)) (olderThan : Z)
    (actuallyDelete : bool) (deleted : list string) (errors : list error) (d : D)
  : list string * list error * D :=
  match records with
  | [] => (deleted, errors, d)
  | (_, uploadData) :: rest =>
      if bool_decide (startedAt uploadData < olderThan) then
        let '(d, err) :=
          if actuallyDelete then Delete driver (containingDir uploadData) d
          else (d, None) in
        match err with
        | None =>
            purge rest olderThan actuallyDelete
              (deleted ++ [containingDir uploadData]) errors d
        | Some e => purge rest olderThan actuallyDelete deleted (errors ++ [e]) d
        end
      else purge rest olderThan actuallyDelete deleted errors d
  end.

(** The directories of the records older than [olderThan], in the
    order of the enumeration, and the [Delete] calls on them. *)
Definition expired (olderThan : Z) (records : list (string * uploadData)) : list string :=
  map (fun r => containingDir r.2)
      (List.filter (fun r => bool_decide (startedAt r.2 < olderThan)) records).

Fixpoint deleteAll (dirs : list string) (d : D) : list (string * option error) * D :=
  match dirs with
  | [] => ([], d)
  | dir :: rest =>
      let '(d, err) := Delete driver dir d in
      let '(results, d) := deleteAll rest d in
      ((dir, err) :: results, d)
  end.

Definition succeeded (results : list (string * option error)) : list string :=
  omap (fun r => match r.2 with None => Some r.1 | Some _ => None end) results.

Definition failed (results : list (string * option error)) : list error :=
  omap snd results.

Definition PurgeUploads (fuel : nat) (olderThan : Z) (actuallyDelete : bool) (d : D)
  : outcome (list string * list error * D) :=
  match getOutstandingUploads fuel d with
  | Returned (st, d) =>
      Returned (purge (ranging (uploads st)) olderThan actuallyDelete [] (errors st) d)
  | Panic => Panic
  | OutOfFuel => OutOfFuel
  end.

End PurgeUploads.

(** *** HTTP headers ([net/http], [net/textproto]) *)

Definition to_upper (c : ascii) : ascii :=
  if in_range "a" "z" c then ascii_of_nat (nat_of_ascii c - 32) else c.

Definition to_lower (c : ascii) : ascii :=
  if in_range "A" "Z" c then ascii_of_nat (nat_of_ascii c + 32) else c.

(** The bytes of an HTTP token. *)
Definition validHeaderFieldByte (c : ascii) : bool :=
  in_range "A" "Z" c || in_range "a" "z" c || in_range "0" "9" c
  || existsb (Ascii.eqb c) (list_ascii_of_string "!#$%&'*+-.^_`|~").

Fixpoint canonical (upper : bool) (key : string) : string :=
  match key with
  | EmptyString => EmptyString
  | String c rest =>
      String (if upper then to_upper c else to_lower c) (canonical (Ascii.eqb c "-") rest)
  end.

(** [textproto.CanonicalMIMEHeaderKey]: the first letter and the
    letters after a hyphen in upper case, the others in lower case; a
    key that is not a token is left as it is. *)
Definition CanonicalMIMEHeaderKey (key : string) : string :=
  if forallb validHeaderFieldByte (list_ascii_of_string key) then canonical true key
  else key.

(** [http.Header.Get]: the first value under the canonical key. *)
Definition Get (h : gmap string (list string)) (key : string) : string :=
  match h !! CanonicalMIMEHeaderKey key with
  | Some (v :: _) => v
  | _ => ""
  end.

(** [http.Header.Set]: the key's values become the single [value]. *)
Definition Set_ (h : gmap string (list string)) (key value : string)
  : gmap string (list string) :=
  <[CanonicalMIMEHeaderKey key := [value]]> h.

(** *** The blob server *)

(** [blobCacheControlMaxAge = 365 * 24 * time.Hour] *)
Definition blobCacheControlMaxAge : Z := 365 * 24 * Hour.

(** [Duration.Seconds], for a whole number of seconds. *)
Definition Seconds (duration : Z) : Z := duration / 1000000000.

(** [distribution.Descriptor] *)
Record Descriptor : Type := mkDescriptor {
  MediaType : string;
  Length : Z;
  Digest : string
}.

Definition StatusTemporaryRedirect : Z := 307.

(** What [ServeBlob] hands to [net/http]: nothing, [http.Redirect] or
    [http.ServeContent] with the reader it opened.  The headers that
    [net/http] adds on its own account are not part of the model. *)
Inductive served (R : Type) : Type :=
| Nothing
| Redirect (url : string) (code : Z)
| ServeContent (name : string) (content : R).
Arguments Nothing {R}.
Arguments Redirect {R} url code.
Arguments ServeContent {R} name content.

Section BlobServer.
Context {D R : Type}.

(** The fields of [blobServer], and the package's [newFileReader],
    whose source is not part of this development. *)
Variable driver : StorageDriver D.
Variable statter : string -> result Descriptor.
Variable pathFn : string -> result string.
Variable newFileReader : string -> Z -> D -> D * result R.

(** [ServeBlob] on the response headers [header] of [w] and the method
    of the request.  The result is the driver's state, the headers,
    what was served and the returned error.  In the fallback branch [err]
    of [newFileReader] is a new variable of that branch, so the final
    [return err] still returns the error of [URLFor]. *)
Definition ServeBlob (header : gmap string (list string)) (method dgst : string) (d : D)
  : D * gmap string (list string) * served R * option error :=
  match statter dgst with
  | Err err => (d, header, Nothing, Some err)
  | Ok desc =>
      match pathFn (Digest desc) with
      | Err err => (d, header, Nothing, Some err)
      | Ok path =>
          let '(d, r) := URLFor driver path {[ "method" := method ]} d in
          match r with
          | Ok redirectURL => (d, header, Redirect redirectURL StatusTemporaryRedirect, None)
          | Err err =>
              if bool_decide (err = ErrUnsupportedMethod) then
                let '(d, rb) := newFileReader path (Length desc) d in
                match rb with
                | Err err' => (d, header, Nothing, Some err')
                | Ok br =>
                    let header := Set_ header "ETag" (Digest desc) in
                    let header :=
                      Set_ header "Cache-Control"
                        ("max-age=" +:+ FormatInt (Seconds blobCacheControlMaxAge)) in
                    let header :=
                      if String.eqb (Get header "Docker-Content-Digest") "" then
                        Set_ header "Docker-Content-Digest" (Digest desc)
                      else header in
                    let header :=
                      if String.eqb (Get header "Content-Type") "" then
                        Set_ header "Content-Type" (MediaType desc)
                      else header in
                    let header :=
                      if String.eqb (Get header "Content-Length") "" then
                        Set_ header "Content-Length" (FormatInt (Length desc))
                      else header in
                    (d, header, ServeContent (Digest desc) br, Some err)
                end
              else (d, header, Nothing, Some err)
          end
      end
  end.

End BlobServer.

End Storage.

(** ** The in-memory store behind the pull workflow *)

Module MemoryClient.
Import Manifest.

(** The local [memoryObjectStore], the writers handed out so far (the
    digest of their layer and their buffer) and the blobs a registry
    serves. *)
Record world : Type := mkWorld {
  store : ObjectStore.memoryObjectStore;
  handles : list (string * ObjectStore.memoryLayerWriter);
  registry : gmap string (list byte)
}.

Definition layerOf (dgst : string) (w : world) : ObjectStore.memoryLayer :=
  default ObjectStore.newMemoryLayer (ObjectStore.layerStorage (store w) !! dgst).

Definition setLayer (dgst : string) (ml : ObjectStore.memoryLayer) (w : world) : world :=
  {| store :=
       {| ObjectStore.manifestStorage := ObjectStore.manifestStorage (store w);
          ObjectStore.layerStorage := <[dgst := ml]> (ObjectStore.layerStorage (store w)) |};
     handles := handles w;
     registry := registry w |}.

Definition Layer (dgst : string) (w : world) : world * result string :=
  let '(st, r) := ObjectStore.Layer dgst (store w) in
  ({| store := st; handles := handles w; registry := registry w |}, r).

Definition Writer (dgst : string) (w : world) : world * result nat :=
  let '(ml, r) := ObjectStore.Writer (layerOf dgst w) in
  let w := setLayer dgst ml w in
  match r with
  | Ok mlw =>
      ({| store := store w; handles := handles w ++ [(dgst, mlw)]; registry := registry w |},
       Ok (length (handles w)))
  | Err err => (w, Err err)
  end.

Definition Wait (dgst : string) (w : world) : option (world * option error) :=
  match ObjectStore.Wait (layerOf dgst w) with
  | Some err => Some (w, err)
  | None => None
  end.

Definition CurrentSize (h : nat) (w : world) : Z :=
  match handles w !! h with
  | Some (dgst, _) => ObjectStore.CurrentSize (layerOf dgst w)
  | None => 0
  end.

Definition Size (h : nat) (w : world) : Z :=
  match handles w !! h with
  | Some (dgst, _) => ObjectStore.Size (layerOf dgst w)
  | None => 0
  end.

Definition SetSize (h : nat) (size : Z) (w : world) : world * option error :=
  match handles w !! h with
  | Some (dgst, _) =>
      let '(ml, err) := ObjectStore.SetSize (layerOf dgst w) size in
      (setLayer dgst ml w, err)
  | None => (w, Some (ErrorString "no such writer"))
  end.

Definition Write (h : nat) (p : list byte) (w : world) : world * (Z * option error) :=
  match handles w !! h with
  | Some (dgst, mlw) =>
      let '(ml, mlw', r) := ObjectStore.Write (layerOf dgst w) mlw p in
      let w := setLayer dgst ml w in
      ({| store := store w; handles := <[h := (dgst, mlw')]> (handles w);
          registry := registry w |}, r)
  | None => (w, (0, Some (ErrorString "no such writer")))
  end.

Definition Close (h : nat) (w : world) : world * option error :=
  match handles w !! h with
  | Some (dgst, _) =>
      let '(ml, err) := ObjectStore.Close (layerOf dgst w) in
      (setLayer dgst ml w, err)
  | None => (w, Some (ErrorString "no such writer"))
  end.

(** A registry that serves the rest of a blob from [offset] in one
    chunk. *)
Definition GetBlob (name dgst : string) (offset : Z) (w : world)
  : world * result (Client.blobReader * Z) :=
  match registry w !! dgst with
  | Some blob =>
      (w, Ok ({| Client.reads := [drop (Z.to_nat offset) blob]; Client.final := None |},
              len blob - offset))
  | None => (w, Err (ErrorString "blob unknown"))
  end.

Definition backend : Client.Backend world string nat :=
  {| Client.Layer := Layer;
     Client.Writer := Writer;
     Client.Wait := Wait;
     Client.CurrentSize := CurrentSize;
     Client.Size := Size;
     Client.SetSize := SetSize;
     Client.Write := Write;
     Client.Close := Close;
     Client.GetBlob := GetBlob |}.

(** A store whose layers cannot be written: [Writer] fails with an
    error of its own. *)
Definition readOnly : Client.Backend world string nat :=
  {| Client.Layer := Layer;
     Client.Writer := fun _ w => (w, Err (ErrorString "read-only store"));
     Client.Wait := Wait;
     Client.CurrentSize := CurrentSize;
     Client.Size := Size;
     Client.SetSize := SetSize;
     Client.Write := Write;
     Client.Close := Close;
     Client.GetBlob := GetBlob |}.

Definition world0 : world :=
  {| store := {| ObjectStore.manifestStorage := ∅; ObjectStore.layerStorage := ∅ |};
     handles := [];
     registry := ∅ |}.

(** A store that holds one complete layer. *)
Definition completeWorld : world :=
  {| store :=
       {| ObjectStore.manifestStorage := ∅;
          ObjectStore.layerStorage :=
            {[ "sha256:0a" := {| ObjectStore.contents := Some [x01; x02];
                                ObjectStore.expectedSize := 2;
                                ObjectStore.writing := false |} ]} |};
     handles := [];
     registry := ∅ |}.

End MemoryClient.

(** ** A driver held in memory, and the parsers of the examples *)

Module InMemory.
Import Driver.

(** The stored paths: a file with its bytes, or a directory. *)
Definition files : Type := list (string * option (list byte)).

Fixpoint lookup (path : string) (d : files) : option (option (list byte)) :=
  match d with
  | [] => None
  | (p, e) :: rest => if String.eqb p path then Some e else lookup path rest
  end.

Definition parent (path : string) : string := (Storage.pathSplit path).1.

Definition childOf (dir : string) (entry : string * option (list byte)) : bool :=
  String.eqb (parent entry.1) (if String.eqb dir "/" then "/" else dir +:+ "/").

Definition below (dir : string) (entry : string * option (list byte)) : bool :=
  String.eqb entry.1 dir || String.prefix (dir +:+ "/") entry.1.

Definition stat (path : string) (d : files) : result FileInfo :=
  match lookup path d with
  | Some (Some content) =>
      Ok {| Path := path; Size := len content; ModTime := 0; IsDir := false |}
  | Some None => Ok {| Path := path; Size := 0; ModTime := 0; IsDir := true |}
  | None => Err (PathNotFoundError path)
  end.

Definition driver : StorageDriver files :=
  {| Name := fun d => (d, "inmemory");
     GetContent := fun path d =>
       match lookup path d with
       | Some (Some content) => (d, Ok content)
       | _ => (d, Err (PathNotFoundError path))
       end;
     PutContent := fun path content d =>
       ((path, Some content) :: List.filter (fun e => negb (String.eqb e.1 path)) d, None);
     ReadStream := fun path offset d =>
       match lookup path d with
       | Some (Some content) =>
           if bool_decide (len content < offset) then (d, Err (InvalidOffsetError path offset))
           else (d, Ok (drop (Z.to_nat offset) content))
       | _ => (d, Err (PathNotFoundError path))
       end;
     WriteStream := fun path offset reader d =>
       let old := match lookup path d with Some (Some content) => content | _ => [] end in
       if bool_decide (len old < offset) then (d, (0, Some (InvalidOffsetError path offset)))
       else ((path, Some (take (Z.to_nat offset) old ++ reader))
               :: List.filter (fun e => negb (String.eqb e.1 path)) d, (len reader, None));
     Stat := fun path d => (d, stat path d);
     List := fun path d =>
       if String.eqb path "/" then (d, Ok (map fst (List.filter (childOf path) d)))
       else match lookup path d with
            | Some None => (d, Ok (map fst (List.filter (childOf path) d)))
            | _ => (d, Err (PathNotFoundError path))
            end;
     Move := fun src dst d =>
       match lookup src d with
       | Some e =>
           ((dst, e) :: List.filter (fun x => negb (String.eqb x.1 src || String.eqb x.1 dst)) d,
            None)
       | None => (d, Some (PathNotFoundError src))
       end;
     Delete := fun path d =>
       match lookup path d with
       | Some _ => (List.filter (fun e => negb (below path e)) d, None)
       | None => (d, Some (PathNotFoundError path))
       end;
     URLFor := fun path options d => (d, Err ErrUnsupportedMethod) |}.

(** *** UUIDs *)

Definition isHex (c : ascii) : bool :=
  in_range "0" "9" c || in_range "a" "f" c || in_range "A" "F" c.

Fixpoint uuidShape (i : nat) (s : list ascii) : bool :=
  match s with
  | [] => (i =? 36)%nat
  | c :: rest =>
      (if (i =? 8)%nat || (i =? 13)%nat || (i =? 18)%nat || (i =? 23)%nat
       then Ascii.eqb c "-" else isHex c)
      && uuidShape (Datatypes.S i) rest
  end.

(** [uuid.Parse] followed by [String], for the 36-byte form: hexadecimal
    digits in groups of 8, 4, 4, 4 and 12, printed in lower case. *)
Definition uuidParse (s : string) : option string :=
  if uuidShape 0 (list_ascii_of_string s) then
    Some (string_of_list_ascii (map Storage.to_lower (list_ascii_of_string s)))
  else None.

(** *** Timestamps *)

Definition digit (c : ascii) : option Z :=
  if in_range "0" "9" c then Some (Z.of_nat (nat_of_ascii c) - 48) else None.

Fixpoint number (acc : Z) (s : list ascii) : option Z :=
  match s with
  | [] => Some acc
  | c :: rest =>
      match digit c with
      | Some v => number (10 * acc + v) rest
      | None => None
      end
  end.

(** Days from 1970-01-01 to the given day of the Gregorian calendar. *)
Definition daysFromCivil (y m d : Z) : Z :=
  let y := if bool_decide (m <= 2) then y - 1 else y in
  let era := y / 400 in
  let yoe := y - era * 400 in
  let mp := (m + 9) mod 12 in
  let doy := (153 * mp + 2) / 5 + d - 1 in
  let doe := yoe * 365 + yoe / 4 - yoe / 100 + doy in
  era * 146097 + doe - 719468.

Definition asciiOfByte (b : byte) : ascii := ascii_of_byte b.

(** [time.Parse(time.RFC3339, _)] for the form [YYYY-MM-DDThh:mm:ssZ],
    in nanoseconds since 1970. *)
Definition timeParse (content : list byte) : result Z :=
  let s := map asciiOfByte content in
  match s with
  | [y1; y2; y3; y4; d1; m1; m2; d2; a1; a2; t; h1; h2; c1; n1; n2; c2; s1; s2; z] =>
      match number 0 [y1; y2; y3; y4], number 0 [m1; m2], number 0 [a1; a2],
            number 0 [h1; h2], number 0 [n1; n2], number 0 [s1; s2] with
      | Some y, Some m, Some a, Some h, Some n, Some sec =>
          if Ascii.eqb d1 "-" && Ascii.eqb d2 "-" && Ascii.eqb t "T"
             && Ascii.eqb c1 ":" && Ascii.eqb c2 ":" && Ascii.eqb z "Z"
             && bool_decide (1 <= m <= 12) && bool_decide (1 <= a <= 31)
             && bool_decide (h < 24) && bool_decide (n < 60) && bool_decide (sec < 60)
          then Ok ((((daysFromCivil y m a * 24 + h) * 60 + n) * 60 + sec) * 1000000000)
          else Err (ErrorString "parsing time: cannot parse")
      | _, _, _, _, _, _ => Err (ErrorString "parsing time: cannot parse")
      end
  | _ => Err (ErrorString "parsing time: cannot parse")
  end.

Definition bytesOf (s : string) : list byte := list_byte_of_string s.

(** *** An upload tree *)

Definition uuidA : string := "aaaaaaaa-aaaa-4aaa-8aaa-aaaaaaaaaaaa".
Definition uuidB : string := "bbbbbbbb-bbbb-4bbb-8bbb-bbbbbbbbbbbb".
Definition uuidC : string := "cccccccc-cccc-4ccc-8ccc-cccccccccccc".

(** Three upload sessions: one started in 2020, one in 2030, one
    without a [startedat] file. *)
Definition uploadFiles : files :=
  [("/repos", None);
   ("/repos/_uploads", None);
   ("/repos/_uploads/" +:+ uuidA, None);
   ("/repos/_uploads/" +:+ uuidA +:+ "/startedat", Some (bytesOf "2020-01-01T00:00:00Z"));
   ("/repos/_uploads/" +:+ uuidB, None);
   ("/repos/_uploads/" +:+ uuidB +:+ "/startedat", Some (bytesOf "2030-01-01T00:00:00Z"));
   ("/repos/_uploads/" +:+ uuidC, None);
   ("/repos/_uploads/" +:+ uuidC +:+ "/data", Some [x00])].

(** The clock stands at 2023-11-14T22:13:20Z during the sweep. *)
Definition now : Z := 1700000000 * 1000000000.

(** 2025-01-01T00:00:00Z *)
Definition cutoff2025 : Z := 1735689600 * 1000000000.

Definition sweepExample (fuel : nat) : Storage.outcome (Storage.sweep * files) :=
  Storage.getOutstandingUploads driver uuidParse timeParse (fun _ => now) (Ok "/repos")
    fuel uploadFiles.

Definition purgeExample (olderThan : Z) (actuallyDelete : bool)
  : Storage.outcome (list string * list error * files) :=
  Storage.PurgeUploads driver uuidParse timeParse (fun _ => now) (Ok "/repos")
    map_to_list 10 olderThan actuallyDelete uploadFiles.

(** *** A small tree and a failing callback *)

Definition nestedFiles : files :=
  [("/a", None); ("/a/b", Some []); ("/c", Some [])].

(** A [WalkFn] that records the paths it is called on and fails on
    [path]. *)
Definition failOn (path : string) (fileInfo : FileInfo) (visited : list string) (d : files)
  : Storage.outcome (list string * files * option error) :=
  Storage.Returned
    (visited ++ [Path fileInfo], d,
     if String.eqb (Path fileInfo) path then Some (ErrorString "callback failed") else None).

(** *** A blob store *)

Definition blobFiles : files :=
  [("/blobs", None); ("/blobs/sha256", None); ("/blobs/sha256/0c", None);
   ("/blobs/sha256/0c/data", Some [x01; x02; x03])].

Definition describe (dgst : string) : result Storage.Descriptor :=
  Ok {| Storage.MediaType := "application/octet-stream"; Storage.Length := 3;
        Storage.Digest := dgst |}.

Definition blobPath (dgst : string) : result string := Ok "/blobs/sha256/0c/data".

(** A reader over the whole file. *)
Definition openReader (path : string) (size : Z) (d : files) : files * result (list byte) :=
  ReadStream driver path 0 d.

Definition serveExample (header : gmap string (list string))
  : files * gmap string (list string) * Storage.served (list byte) * option error :=
  Storage.ServeBlob driver describe blobPath openReader header "GET" "sha256:0c" blobFiles.

(** The headers a handler set before calling the blob server. *)
Definition priorHeader : gmap string (list string) :=
  Storage.Set_ (Storage.Set_ ∅ "ETag" "prior-etag") "Content-Type" "text/plain".

End InMemory.

(** ** Worlds of the in-memory pull, by their parts *)

Module MemoryWorld.
Import MemoryClient.

(** The world [w] once a writer with buffer [mlw] has been handed out on
    the layer of [dgst], that layer being [ml]. *)
Definition holding (w : world) (dgst : string) (ml : ObjectStore.memoryLayer)
    (mlw : ObjectStore.memoryLayerWriter) : world :=
  {| store :=
       {| ObjectStore.manifestStorage := ObjectStore.manifestStorage (store w);
          ObjectStore.layerStorage := <[dgst := ml]> (ObjectStore.layerStorage (store w)) |};
     handles := handles w ++ [(dgst, mlw)];
     registry := registry w |}.

(** The calls of a transfer that brings [rest] after [offset] bytes
    already present. *)
Definition transferCalls (name dgst : string) (offset : Z) (rest : list byte)
  : list Client.event :=
  [Client.CallLayer dgst; Client.CallWriter; Client.CallGetBlob name dgst offset;
   Client.CallSetSize (offset + len rest)]
  ++ (if bool_decide (0 < len rest) then [Client.CallWrite rest] else [])
  ++ [Client.CallReaderClose; Client.CallWriterClose].

(** A store that holds the first byte of a layer of three, and a
    registry that serves the layer. *)
Definition partialWorld : world :=
  {| store :=
       {| ObjectStore.manifestStorage := ∅;
          ObjectStore.layerStorage :=
            {[ "sha256:0c" := {| ObjectStore.contents := Some [x01];
                                ObjectStore.expectedSize := 3;
                                ObjectStore.writing := false |} ]} |};
     handles := [];
     registry := {[ "sha256:0c" := [x01; x02; x03] ]} |}.

End MemoryWorld.

(** ** The push workflow (package [client]) *)

Module Push.
Import Manifest.

Definition simultaneousLayerPushWindow : Z := 4.

(** The calls [pushLayer] makes on its collaborators, in order. *)
Inductive event : Type :=
| CallLayer (dgst : string)
| CallReader
| CallReaderClose
| CallBlobLength (name dgst : string)
| CallInitiateBlobUpload (name : string)
| CallUploadBlob (location : string) (length : Z) (dgst : string).

(** The collaborators of [pushLayer]: the [ObjectStore], [Layer] and
    [LayerReader] interfaces and the three methods of [Client] it uses,
    over a state [W].  [L] and [LR] are the layer and reader handles. *)
Record Backend (W L LR : Type) : Type := mkBackend {
  Layer : string -> W -> W * result L;
  Reader : L -> W -> W * result LR;
  Close : LR -> W -> W * option error;
  CurrentSize : LR -> W -> Z;
  Size : LR -> W -> Z;
  BlobLength : string -> string -> W -> W * result Z;
  InitiateBlobUpload : string -> W -> W * result string;
  UploadBlob : string -> LR -> Z -> string -> W -> W * option error
}.
Arguments Layer {W L LR}.
Arguments Reader {W L LR}.
Arguments Close {W L LR}.
Arguments CurrentSize {W L LR}.
Arguments Size {W L LR}.
Arguments BlobLength {W L LR}.
Arguments InitiateBlobUpload {W L LR}.
Arguments UploadBlob {W L LR}.

(** A computation on the state [W] that records the calls it makes. *)
Definition M (W A : Type) : Type := W -> W * list event * A.

Definition ret {W A} (a : A) : M W A := fun w => (w, [], a).

Definition bind {W A B} (m : M W A) (f : A -> M W B) : M W B :=
  fun w =>
    let '(w1, l1, a) := m w in
    let '(w2, l2, b) := f a w1 in
    (w2, l1 ++ l2, b).

Notation "x <~ m ;; k" := (bind m (fun x => k))
  (at level 100, m at next level, right associativity).

Definition call {W A} (ev : event) (f : W -> W * A) : M W A :=
  fun w => let '(w', a) := f w in (w', [ev], a).

Definition get {W A} (f : W -> A) : M W A := fun w => (w, [], f w).

(** [defer cleanup; body]: the deferred call runs when the function
    returns, and its own result is dropped. *)
Definition defer {W A B} (cleanup : M W B) (body : M W A) : M W A :=
  a <~ body ;; _ <~ cleanup ;; ret a.

Section PushLayer.
Context {W L LR : Type} (B : Backend W L LR).

(** [pushLayer].  The logging calls are left out. *)
Definition pushLayer (name : string) (fsLayer : FSLayer) : M W (option error) :=
  r <~ call (CallLayer (BlobSum fsLayer)) (Layer B (BlobSum fsLayer)) ;;
  match r with
  | Err err => ret (Some err)
  | Ok layer =>
      rr <~ call CallReader (Reader B layer) ;;
      match rr with
      | Err err => ret (Some err)
      | Ok layerReader =>
          defer (call CallReaderClose (Close B layerReader))
            (cur <~ get (CurrentSize B layerReader) ;;
             size <~ get (Size B layerReader) ;;
             if bool_decide (cur ≠ size) then
               ret (Some (ErrorString "Local layer incomplete"))
             else
               rl <~ call (CallBlobLength name (BlobSum fsLayer))
                          (BlobLength B name (BlobSum fsLayer)) ;;
               match rl with
               | Err err => ret (Some err)
               | Ok length =>
                   if bool_decide (0 <= length) then ret None
                   else
                     ri <~ call (CallInitiateBlobUpload name) (InitiateBlobUpload B name) ;;
                     match ri with
                     | Err err => ret (Some err)
                     | Ok location =>
                         cur' <~ get (CurrentSize B layerReader) ;;
                         call (CallUploadBlob location cur' (BlobSum fsLayer))
                              (UploadBlob B location layerReader cur' (BlobSum fsLayer))
                     end
               end)
      end
  end.

End PushLayer.

(** *** The scheduler *)

(** What the goroutine running [Push] does, in order. *)
Inductive action : Type :=
| LoadManifest (name tag : string)
| Spawn (i : nat) (fsLayer : FSLayer)
| Recv (i : nat)
| CloseCancel
| PutImageManifest (name tag : string) (m : SignedManifest).

(** What that goroutine observes: the manifest of the local store, the
    value each worker offers on its channel (its [pushLayer] result) and
    the result of [Client.PutImageManifest]. *)
Record observed : Type := mkObserved {
  localManifest : result SignedManifest;
  layerResult : nat -> option error;
  putResult : option error
}.

(** The [for] loop of [Push] from index [i], for [n] more iterations:
    [Some err] is the early [return err]. *)
Fixpoint pushLoop (obs : observed) (layers : list FSLayer) (n i : nat)
  : list action * option error :=
  match n with
  | O => ([], None)
  | S n' =>
      let dependentLayer := Z.of_nat i - simultaneousLayerPushWindow in
      let received :=
        if bool_decide (0 <= dependentLayer) then
          ([Recv (Z.to_nat dependentLayer)], layerResult obs (Z.to_nat dependentLayer))
        else ([], None) in
      match received.2 with
      | Some err => (received.1 ++ [CloseCancel], Some err)
      | None =>
          let spawned :=
            match layers !! i with
            | Some fsLayer => [Spawn i fsLayer]
            | None => []
            end in
          let '(rest, r) := pushLoop obs layers n' (S i) in
          (received.1 ++ spawned ++ rest, r)
      end
  end.

Definition received (acts : list action) : list nat :=
  omap (fun a => match a with Recv i => Some i | _ => None end) acts.

Definition spawned (acts : list action) : list nat :=
  omap (fun a => match a with Spawn i _ => Some i | _ => None end) acts.

Definition isPutImageManifest (a : action) : bool :=
  match a with PutImageManifest _ _ _ => true | _ => false end.

Definition isCloseCancel (a : action) : bool :=
  match a with CloseCancel => true | _ => false end.

Definition Push (obs : observed) (name tag : string) : list action * option error :=
  match localManifest obs with
  | Err err => ([LoadManifest name tag], Some err)
  | Ok manifest =>
      let '(acts, r) :=
        pushLoop obs (FSLayers manifest)
          (Z.to_nat (len (FSLayers manifest) + simultaneousLayerPushWindow)) 0 in
      match r with
      | Some err => (LoadManifest name tag :: acts, Some err)
      | None =>
          (LoadManifest name tag :: acts ++ [PutImageManifest name tag manifest],
           putResult obs)
      end
  end.

(** *** The scheduler of [Pull] seen from here *)

(** The two loops are the same text: the steps of the one are the steps
    of the other under these names. *)
Definition ofPull (a : Client.action) : action :=
  match a with
  | Client.GetImageManifest name tag => LoadManifest name tag
  | Client.Spawn i fsLayer => Spawn i fsLayer
  | Client.Recv i => Recv i
  | Client.CloseCancel => CloseCancel
  | Client.WriteManifest name tag m => PutImageManifest name tag m
  end.

Definition asPull (obs : observed) : Client.observed :=
  {| Client.manifestReply := localManifest obs;
     Client.layerResult := layerResult obs;
     Client.writeResult := putResult obs |}.

End Push.

(** ** Reading a layer held in memory *)

Module LayerReader.
Import ObjectStore.

(** [memoryLayerReader.Read] into a slice of [n] bytes: [bytes.Reader]
    returns [io.EOF] once nothing is left, and otherwise as many of the
    next bytes as fit. *)
Definition Read (mlr : memoryLayerReader) (n : nat)
  : memoryLayerReader * (list byte * option error) :=
  match reader mlr with
  | [] => (mlr, ([], Some (ErrorString "EOF")))
  | _ => ({| reader := drop n (reader mlr) |}, (take n (reader mlr), None))
  end.

Definition Close (mlr : memoryLayerReader) : option error := None.

(** [CurrentSize] and [Size] go through the reader's pointer to the
    layer: [ml] is the layer as it is when they are called. *)
Definition CurrentSize (ml : memoryLayer) : Z :=
  match contents ml with
  | Some c => len c
  | None => 0
  end.

Definition Size (ml : memoryLayer) : Z := expectedSize ml.

(** [count] calls of [Read], each into a slice of [n] bytes: the bytes
    delivered and the error of the last call. *)
Fixpoint readAll (mlr : memoryLayerReader) (n count : nat) : list byte * option error :=
  match count with
  | O => ([], None)
  | S count' =>
      let '(mlr', (p, err)) := Read mlr n in
      match err with
      | Some e => (p, Some e)
      | None => let '(rest, e) := readAll mlr' n count' in (p ++ rest, e)
      end
  end.

End LayerReader.

(** ** Pushing from the in-memory store *)

Module MemoryPush.
Import MemoryClient.

Definition Reader (dgst : string) (w : world)
  : world * result (string * ObjectStore.memoryLayerReader) :=
  match ObjectStore.Reader (layerOf dgst w) with
  | Ok mlr => (w, Ok (dgst, mlr))
  | Err err => (w, Err err)
  end.

Definition Close (h : string * ObjectStore.memoryLayerReader) (w : world)
  : world * option error :=
  (w, LayerReader.Close h.2).

Definition CurrentSize (h : string * ObjectStore.memoryLayerReader) (w : world) : Z :=
  LayerReader.CurrentSize (layerOf h.1 w).

Definition Size (h : string * ObjectStore.memoryLayerReader) (w : world) : Z :=
  LayerReader.Size (layerOf h.1 w).

(** A registry that answers -1 for a blob it does not hold, hands out
    one upload location and stores the first [length] bytes of the body
    it is sent. *)
Definition BlobLength (name dgst : string) (w : world) : world * result Z :=
  match registry w !! dgst with
  | Some blob => (w, Ok (len blob))
  | None => (w, Ok (-1))
  end.

Definition InitiateBlobUpload (name : string) (w : world) : world * result string :=
  (w, Ok ("/v2/" +:+ name +:+ "/blobs/uploads/1")).

Definition UploadBlob (location : string) (h : string * ObjectStore.memoryLayerReader)
    (length : Z) (dgst : string) (w : world) : world * option error :=
  ({| store := store w; handles := handles w;
      registry := <[dgst := take (Z.to_nat length) (ObjectStore.reader h.2)]> (registry w) |},
   None).

Definition backend : Push.Backend world string (string * ObjectStore.memoryLayerReader) :=
  {| Push.Layer := Layer;
     Push.Reader := Reader;
     Push.Close := Close;
     Push.CurrentSize := CurrentSize;
     Push.Size := Size;
     Push.BlobLength := BlobLength;
     Push.InitiateBlobUpload := InitiateBlobUpload;
     Push.UploadBlob := UploadBlob |}.

End MemoryPush.

(** ** Callbacks of the examples *)

Module InMemoryWalk.
Import Driver.

(** A [WalkFn] that records the paths it is called on and skips every
    directory. *)
Definition skipDirs (fileInfo : FileInfo) (visited : list string) (d : InMemory.files)
  : Storage.outcome (list string * InMemory.files * option error) :=
  Storage.Returned
    (visited ++ [Path fileInfo], d, if IsDir fileInfo then Some ErrSkipDir else None).

End InMemoryWalk.

(** ** Testing for a path ([registry/storage]) *)

Module Util.
Import Driver.

(** [exists]: the type switch takes [PathNotFoundError] for an absent
    path and hands any other error on. *)
Definition exists_ {D : Type} (drv : StorageDriver D) (path : string) (d : D)
  : D * (bool * option error) :=
  let '(d, r) := Stat drv path d in
  match r with
  | Err (PathNotFoundError _) => (d, (false, None))
  | Err err => (d, (false, Some err))
  | Ok _ => (d, (true, None))
  end.

End Util.

(** ** The registry of storage driver factories (package [factory]) *)

Module Factory.

(** What [Create] returns when it fails: its own error, or the error of
    the factory. *)
Inductive createError : Type :=
| InvalidStorageDriverError (Name : string)
| FactoryError (err : error).

Definition Error (err : createError) : string :=
  match err with
  | InvalidStorageDriverError Name => "StorageDriver not registered: " +:+ Name
  | FactoryError err => Storage.Error err
  end.

(** How [Register] ends: it returns, or it panics with a message. *)
Inductive registration (A : Type) : Type :=
| Registered (driverFactories : A)
| Panics (message : string).
Arguments Registered {A} driverFactories.
Arguments Panics {A} message.

Section Factory.
(** A [StorageDriverFactory] is an [F]; [create] is its [Create]
    method, from parameters [P] to a driver [Drv]. *)
Context {F P Drv : Type} (create : F -> P -> Drv + error).

(** [Register] on the package variable [driverFactories]; a nil
    interface value is [None]. *)
Definition Register (name : string) (factory : option F) (driverFactories : gmap string F)
  : registration (gmap string F) :=
  match factory with
  | None => Panics "Must not provide nil StorageDriverFactory"
  | Some f =>
      match driverFactories !! name with
      | Some _ => Panics ("StorageDriverFactory named " +:+ name +:+ " already registered")
      | None => Registered (<[name := f]> driverFactories)
      end
  end.

Definition Create (name : string) (parameters : P) (driverFactories : gmap string F)
  : Drv + createError :=
  match driverFactories !! name with
  | None => inr (InvalidStorageDriverError name)
  | Some driverFactory =>
      match create driverFactory parameters with
      | inl drv => inl drv
      | inr err => inr (FactoryError err)
      end
  end.

(** The [Register] calls of the drivers' [init] functions, one after
    the other. *)
Fixpoint registerAll (calls : list (string * option F)) (driverFactories : gmap string F)
  : registration (gmap string F) :=
  match calls with
  | [] => Registered driverFactories
  | (name, factory) :: rest =>
      match Register name factory driverFactories with
      | Registered driverFactories => registerAll rest driverFactories
      | Panics message => Panics message
      end
  end.

End Factory.

End Factory.

(** ** Sets of strings (package [token]) *)

Module StringSet.

(** [type stringSet map[string]struct{}] *)
Abbreviation stringSet := (gmap string unit).

(** [add]: the map is updated in place, key after key. *)
Fixpoint add (ss : stringSet) (keys : list string) : stringSet :=
  match keys with
  | [] => ss
  | key :: rest => add (<[key := tt]> ss) rest
  end.

Definition newStringSet (keys : list string) : stringSet := add ∅ keys.

Definition contains (ss : stringSet) (key : string) : bool :=
  match ss !! key with
  | Some _ => true
  | None => false
  end.

(** [keys], for the order [ranging] in which [range] enumerates the
    map. *)
Definition keys (ranging : stringSet -> list (string * unit)) (ss : stringSet) : list string :=
  map fst (ranging ss).

End StringSet.

(** ** Driver versions (package [driver]) *)

Module Version.

(** [strings.Split(s, sep)] for a separator of one byte. *)
Fixpoint Split (sep : ascii) (s : string) : list string :=
  match s with
  | EmptyString => [EmptyString]
  | String c rest =>
      if Ascii.eqb c sep then EmptyString :: Split sep rest
      else match Split sep rest with
           | first :: others => String c first :: others
           | [] => [String c EmptyString]
           end
  end.

Definition CurrentVersion : string := "0.1".

Section Version.
(** [strconv.ParseUint(_, 10, 0)] with its error dropped, which the
    sources import. *)
Variable ParseUint : string -> Z.

(** [Major] and [Minor] index the parts of the version: a missing part
    is a panic. *)
Definition Major (version : string) : Storage.outcome Z :=
  match Split "." version with
  | majorPart :: _ => Storage.Returned (ParseUint majorPart)
  | [] => Storage.Panic
  end.

Definition Minor (version : string) : Storage.outcome Z :=
  match Split "." version with
  | _ :: minorPart :: _ => Storage.Returned (ParseUint minorPart)
  | _ => Storage.Panic
  end.

End Version.

(** A [ParseUint] for the examples: decimal digits, read as a number
    below 2^64; anything else gives 0. *)
Definition digits (s : string) : Z :=
  match s with
  | EmptyString => 0
  | _ =>
      match fold_left
              (fun acc c =>
                 match acc with
                 | Some n =>
                     if Driver.in_range "0" "9" c
                     then Some (n * 10 + (Z.of_nat (nat_of_ascii c) - 48))
                     else None
                 | None => None
                 end)
              (list_ascii_of_string s) (Some 0) with
      | Some n => if bool_decide (n < 2 ^ 64) then n else 2 ^ 64 - 1
      | None => 0
      end
  end.

End Version.

(** ** The access controller of package [silly] *)

Module Silly.

(** An [interface{}] of the options: a string, or a value of another
    type. *)
Inductive value : Type :=
| StringValue (s : string)
| OtherValue.

Record accessController : Type := mkAccessController {
  realm : string;
  service : string
}.

(** The byte [0x22]. *)
Definition dquote : string := String (ascii_of_nat 34) EmptyString.

Definition newAccessController (options : gmap string value) : accessController + error :=
  match options !! "realm" with
  | Some (StringValue realm) =>
      match options !! "service" with
      | Some (StringValue service) => inl {| realm := realm; service := service |}
      | _ =>
          inr (ErrorString
                 (dquote +:+ "service" +:+ dquote +:+ " must be set for silly access controller"))
      end
  | _ =>
      inr (ErrorString
             (dquote +:+ "realm" +:+ dquote +:+ " must be set for silly access controller"))
  end.

(** [auth.Access]: the type and the name of the resource, and the
    action. *)
Record Access : Type := mkAccess {
  Type_ : string;
  Name : string;
  Action : string
}.

Record challenge : Type := mkChallenge {
  ch_realm : string;
  ch_service : string;
  scope : string
}.

(** [strings.Join] *)
Fixpoint Join (elems : list string) (sep : string) : string :=
  match elems with
  | [] => ""
  | [e] => e
  | e :: rest => e +:+ sep +:+ Join rest sep
  end.

(** What [Authorized] returns: the context with the user, a challenge,
    or the error of [GetRequest]. *)
Inductive authorization : Type :=
| WithUser (name : string)
| Challenge (ch : challenge)
| Failed (err : error).

(** [Authorized]; [request] is the result of [ctxu.GetRequest]: the
    headers of the request, or an error. *)
Definition Authorized (ac : accessController) (request : gmap string (list string) + error)
    (accessRecords : list Access) : authorization :=
  match request with
  | inr err => Failed err
  | inl header =>
      if String.eqb (Storage.Get header "Authorization") "" then
        let scope :=
          if bool_decide (0 < len accessRecords) then
            Join (map (fun access =>
                         Type_ access +:+ ":" +:+ Name access +:+ ":" +:+ Action access)
                      accessRecords) " "
          else "" in
        Challenge {| ch_realm := realm ac; ch_service := service ac; scope := scope |}
      else WithUser "silly"
  end.

Definition StatusUnauthorized : Z := 401.

Section ServeHTTP.
(** The verb [%q] of [fmt], which the sources import. *)
Variable quote : string -> string.

(** [challenge.ServeHTTP] on the response headers: the headers and the
    status written. *)
Definition ServeHTTP (ch : challenge) (header : gmap string (list string))
  : gmap string (list string) * Z :=
  let value := "Bearer realm=" +:+ quote (ch_realm ch) +:+ ",service=" +:+ quote (ch_service ch) in
  let value :=
    if negb (String.eqb (scope ch) "") then value +:+ ",scope=" +:+ quote (scope ch)
    else value in
  (Storage.Set_ header "WWW-Authenticate" value, StatusUnauthorized).

End ServeHTTP.

(** [%q] on a text of plain letters: the text between double quotes. *)
Definition quotePlain (s : string) : string := dquote +:+ s +:+ dquote.

End Silly.

(** * Properties *)

(** ** The in-memory layer *)

Module ObjectStoreFacts.
Import ObjectStore.

(** Case analysis on the fields a method reads. *)
Ltac layer_cases ml :=
  destruct ml as [[?c|] ?e [|]]; simpl in *; repeat case_bool_decide; simpl in *;
  try done; try congruence.

(** The writing flag is only ever set on allocated contents. *)
Lemma reachable_writing_allocated ml :
  reachable ml -> writing ml = true -> contents ml ≠ None.
Proof.
  induction 1 as [|ml Hr IH|ml mlw p Hr IH|ml Hr IH|ml size Hr IH].
  - done.
  - unfold Writer. layer_cases ml.
  - unfold Write. layer_cases ml.
  - done.
  - unfold SetSize. layer_cases ml.
Qed.

Lemma Writer_locked ml :
  reachable ml -> writing ml = true -> Writer ml = (ml, Err ErrLayerLocked).
Proof.
  intros Hr Hw. pose proof (reachable_writing_allocated ml Hr Hw) as Hc.
  unfold Writer. layer_cases ml.
Qed.

Lemma Writer_granted ml ml' w :
  Writer ml = (ml', Ok w) ->
  writing ml' = true ∧ contents ml' = Some (buffer w)
  ∧ expectedSize ml' = expectedSize ml ∧ CurrentSize ml' = CurrentSize ml.
Proof.
  unfold Writer, CurrentSize. layer_cases ml; intros [= <- <-]; done.
Qed.

Lemma Writer_granted_unlocked ml ml' w :
  reachable ml -> Writer ml = (ml', Ok w) -> writing ml = false.
Proof.
  intros Hr Hw. destruct (writing ml) eqn:E; [|done].
  rewrite (Writer_locked ml Hr E) in Hw. done.
Qed.

Lemma Writer_refused ml ml' err :
  Writer ml = (ml', Err err) -> ml' = ml.
Proof. unfold Writer. layer_cases ml. Qed.

(** After a grant every further request is refused with
    [ErrLayerLocked]. *)
Lemma requests_locked n ml :
  writing ml = true -> contents ml ≠ None ->
  requests n ml = (ml, replicate n (Err ErrLayerLocked)).
Proof.
  intros Hw Hc. induction n as [|n IH]; simpl; [done|].
  assert (Writer ml = (ml, Err ErrLayerLocked)) as -> by (unfold Writer; layer_cases ml).
  by rewrite IH.
Qed.

Lemma requests_one_grant n ml :
  reachable ml ->
  (length (List.filter granted (requests n ml).2) <= 1)%nat
  ∧ ∀ i w, (requests n ml).2 !! i = Some (Ok w) ->
      ∀ j, (i < j < n)%nat -> (requests n ml).2 !! j = Some (Err ErrLayerLocked).
Proof.
  revert ml. induction n as [|n IH]; intros ml Hr; simpl.
  { split; [lia|]. intros i w Hi. done. }
  destruct (Writer ml) as [ml1 r] eqn:HW.
  destruct (requests n ml1) as [ml2 rs] eqn:HR. simpl.
  destruct r as [w|err].
  - destruct (Writer_granted _ _ _ HW) as (Hw1 & Hc1 & _).
    rewrite requests_locked in HR by (by rewrite ?Hc1). injection HR as <- <-.
    simpl. split.
    + assert (List.filter granted (replicate n (@Err memoryLayerWriter ErrLayerLocked)) = [])
        as -> by (clear; induction n; simpl; done).
      simpl. lia.
    + intros [|i] w' Hi j Hj.
      * destruct j as [|j]; [lia|]. simpl. apply lookup_replicate_2. lia.
      * simpl in Hi. apply lookup_replicate_1 in Hi as [? _]. done.
  - pose proof (Writer_refused _ _ _ HW) as ->.
    destruct (IH ml Hr) as [Hn Hl]. rewrite HR in Hn, Hl. simpl in *.
    split; [exact Hn|].
    intros [|i] w' Hi j Hj; simpl in Hi; [done|].
    destruct j as [|j]; [lia|]. simpl. apply (Hl i w' Hi). lia.
Qed.

Lemma sys_inv_step s o s' :
  sys_inv s -> step s o = Some s' -> sys_inv s'.
Proof.
  intros (Hc & H1 & H0 & Hlt) Hstep. destruct s as [ml ws act]. simpl in *.
  destruct o as [|h size|h p|h]; simpl in Hstep.
  - destruct (Writer ml) as [ml1 [w|err]] eqn:HW; injection Hstep as <-.
    + destruct (Writer_granted _ _ _ HW) as (Hw1 & Hc1 & _).
      assert (writing ml = false) as Hf.
      { destruct (writing ml) eqn:E; [|done].
        assert (Writer ml = (ml, Err ErrLayerLocked)) as HL
          by (unfold Writer; specialize (Hc eq_refl); layer_cases ml).
        congruence. }
      rewrite (H0 Hf). unfold sys_inv; simpl. rewrite Hw1, Hc1.
      repeat split; try done.
      * intros _. exists (length ws). set_solver.
      * intros h. rewrite length_app. simpl. set_solver by lia.
    + pose proof (Writer_refused _ _ _ HW) as ->. done.
  - destruct (ws !! h); [|done]. injection Hstep as <-.
    unfold sys_inv, SetSize; simpl. layer_cases ml.
  - destruct (ws !! h) as [w|]; [|done].
    destruct (Write ml w p) as [[ml1 w1] r] eqn:HWr. injection Hstep as <-.
    unfold sys_inv; simpl. rewrite length_insert.
    unfold Write in HWr. layer_cases ml; injection HWr as <- <- <-; simpl; done.
  - case_bool_decide as Hin; [|done]. injection Hstep as <-.
    unfold sys_inv; simpl. repeat split; try done.
    + intros _. destruct (writing ml) eqn:E.
      * destruct (H1 eq_refl) as [h' ->]. set_solver.
      * rewrite (H0 eq_refl). set_solver.
    + intros h' Hh'. apply Hlt. set_solver.
Qed.

Lemma sys_inv_run t : ∀ s s', sys_inv s -> run s t = Some s' -> sys_inv s'.
Proof.
  induction t as [|o t IH]; intros s s' Hs; simpl.
  - by intros [= <-].
  - destruct (step s o) as [s1|] eqn:E; [|done].
    apply IH. by eapply sys_inv_step.
Qed.

Lemma sys_inv_0 : sys_inv sys0.
Proof. unfold sys_inv, sys0; simpl. repeat split; done. Qed.

Lemma sys_inv_active s : sys_inv s -> (size (active s) <= 1)%nat.
Proof.
  intros (_ & H1 & H0 & _). destruct (writing (layer s)).
  - destruct (H1 eq_refl) as [h ->]. by rewrite size_singleton.
  - rewrite (H0 eq_refl), size_empty. lia.
Qed.

Lemma len_app {A} (l1 l2 : list A) : len (l1 ++ l2) = len l1 + len l2.
Proof. unfold len. rewrite length_app. lia. Qed.

Lemma len_nonneg {A} (l : list A) : 0 <= len l.
Proof. unfold len. lia. Qed.

(** Writing through the handle that owns the contents appends the
    chunks; [Close] then clears the flag. *)
Lemma useWriter_writes chunks : ∀ ml w,
  expectedSize ml ≠ 0 -> contents ml = Some (buffer w) ->
  let r := useWriter ml w (map DoWrite chunks ++ [DoClose]) in
  contents r.1.1 = Some (buffer w ++ concat chunks)
  ∧ expectedSize r.1.1 = expectedSize ml ∧ writing r.1.1 = false.
Proof.
  induction chunks as [|p chunks IH]; intros ml w He Hc; simpl.
  - rewrite app_nil_r. done.
  - unfold Write. rewrite bool_decide_eq_false_2 by done. simpl.
    specialize (IH {| contents := Some (buffer w ++ p); expectedSize := expectedSize ml;
                      writing := writing ml |} {| buffer := buffer w ++ p |} He eq_refl).
    simpl in IH.
    destruct (useWriter _ _ (map DoWrite chunks ++ [DoClose])) as [[ml2 w2] errs].
    simpl in *. by rewrite app_assoc.
Qed.

Lemma useWriter_SetSize ml w size calls :
  writing ml = true ->
  useWriter ml w (DoSetSize size :: calls)
  = let r := useWriter {| contents := contents ml; expectedSize := size;
                          writing := true |} w calls in
    (r.1.1, r.1.2, None :: r.2).
Proof.
  intros Hw. simpl. unfold SetSize. rewrite Hw. simpl.
  by destruct (useWriter _ w calls) as [[ml2 w2] errs].
Qed.

(** With the flag clear, no call through a writer changes the expected
    size, and every [SetSize] fails. *)
Lemma useWriter_closed calls : ∀ ml w,
  writing ml = false ->
  let r := useWriter ml w calls in
  expectedSize r.1.1 = expectedSize ml ∧ writing r.1.1 = false
  ∧ Forall (fun e => e ≠ None) (setSizeErrors calls r.2).
Proof.
  induction calls as [|c calls IH]; intros ml w Hw; simpl; [done|].
  destruct c as [size|p|].
  - unfold SetSize. rewrite Hw. simpl.
    specialize (IH ml w Hw). simpl in IH.
    destruct (useWriter ml w calls) as [[ml2 w2] errs]. simpl in *.
    destruct IH as (? & ? & ?). repeat split; try done. by constructor.
  - destruct (Write ml w p) as [[ml1 w1] r] eqn:HWr.
    assert (writing ml1 = false ∧ expectedSize ml1 = expectedSize ml) as [Hw1 He1].
    { unfold Write in HWr. case_bool_decide; injection HWr as <- <- <-; done. }
    specialize (IH ml1 w1 Hw1). simpl in IH.
    destruct (useWriter ml1 w1 calls) as [[ml2 w2] errs]. simpl in *.
    by rewrite <- He1.
  - specialize (IH (Close ml).1 w eq_refl). simpl in IH.
    destruct (useWriter _ w calls) as [[ml2 w2] errs]. simpl in *. done.
Qed.



(** A writer that announces ten bytes and is closed after three: the
    layer has left the writing state, and its sizes differ.  A later
    [Writer] request resumes it. *)
Lemma Close_short_layer_counterexample :
  let ml := (useWriter (Writer newMemoryLayer).1 {| buffer := [] |}
               [DoSetSize 10; DoWrite [x01; x02; x03]; DoClose]).1.1 in
  granted (Writer newMemoryLayer).2 = true
  ∧ writing ml = false
  ∧ CurrentSize ml = 3 ∧ Size ml = 10
  ∧ ¬ (CurrentSize ml = Size ml ∧ 0 < Size ml)
  ∧ granted (Writer ml).2 = true.
Proof. vm_compute. repeat split; try done. intros [H _]. discriminate H. Qed.

(** A writer acquired on a fresh layer and closed at once leaves both
    sizes at zero. *)
Example Close_unsized_layer :
  let ml := (Close (Writer newMemoryLayer).1).1 in
  writing ml = false ∧ CurrentSize ml = 0 ∧ Size ml = 0.
Proof. done. Qed.

(** C7, amended.  [CurrentSize] is the length of the stored contents
    and [Size] is the expected size; [Close] clears the writing flag and
    changes neither.  A layer whose writer set the size to the bytes
    already present plus the bytes to come, a positive total, and wrote
    exactly those bytes before [Close] satisfies
    [CurrentSize() == Size() > 0]. *)
Theorem Close_completes_sized_layer (ml ml1 : memoryLayer) (w : memoryLayerWriter)
    (chunks : list (list byte)) :
  (CurrentSize ml = len (default [] (contents ml)) ∧ Size ml = expectedSize ml
   ∧ CurrentSize (Close ml).1 = CurrentSize ml ∧ Size (Close ml).1 = Size ml
   ∧ writing (Close ml).1 = false)
  ∧ (Writer ml = (ml1, Ok w) ->
     0 < CurrentSize ml1 + len (concat chunks) ->
     let closed :=
       (useWriter ml1 w
          (DoSetSize (CurrentSize ml1 + len (concat chunks))
             :: map DoWrite chunks ++ [DoClose])).1.1 in
     writing closed = false
     ∧ CurrentSize closed = CurrentSize ml1 + len (concat chunks)
     ∧ CurrentSize closed = Size closed ∧ 0 < Size closed).
Proof.
  split.
  { unfold CurrentSize, Size. destruct ml as [[c|] e wr]; done. }
  intros HW Hpos closed. subst closed.
  destruct (Writer_granted _ _ _ HW) as (Hw1 & Hc1 & He1 & Hs1).
  rewrite useWriter_SetSize by done.
  set (s := CurrentSize ml1 + len (concat chunks)) in *.
  pose proof (useWriter_writes chunks
    {| contents := contents ml1; expectedSize := s; writing := true |} w) as H.
  simpl in H. specialize (H ltac:(lia) Hc1).
  destruct (useWriter _ w (map DoWrite chunks ++ [DoClose])) as [[ml2 w2] errs].
  simpl in *. destruct H as (Hc2 & He2 & Hw2).
  assert (CurrentSize ml2 = s) as Hcur.
  { unfold CurrentSize in *. rewrite Hc2, len_app. subst s. by rewrite Hc1. }
  unfold Size. rewrite Hcur, He2. done.
Qed.

(** A fresh layer, five bytes announced and written in two chunks. *)
Lemma Close_completes_sized_layer_witness :
  let closed :=
    (useWriter (Writer newMemoryLayer).1 {| buffer := [] |}
       [DoSetSize 5; DoWrite [x01; x02]; DoWrite [x03; x04; x05]; DoClose]).1.1 in
  CurrentSize closed = Size closed ∧ 0 < Size closed.
Proof.
  pose proof (Close_completes_sized_layer newMemoryLayer (Writer newMemoryLayer).1
                {| buffer := [] |} [[x01; x02]; [x03; x04; x05]]) as [_ H].
  specialize (H eq_refl ltac:(vm_compute; reflexivity)).
  simpl in H. simpl. tauto.
Defined.



(** The flag belongs to the layer: when a later [Writer] request
    resumes an incomplete layer, the flag is set again and [SetSize]
    succeeds again. *)
Example SetSize_after_new_grant :
  let closed := (Close (SetSize (Writer newMemoryLayer).1 10).1).1 in
  (SetSize closed 7).2 = Some (ErrorString "Layer is closed for writing")
  ∧ granted (Writer closed).2 = true
  ∧ SetSize (Writer closed).1 7
    = ({| contents := Some []; expectedSize := 7; writing := true |}, None).
Proof. done. Qed.

End ObjectStoreFacts.

(** ** The pull workflow *)

Module ClientFacts.
Import Manifest Client.

Section PullLayerFacts.
Context {W L LW : Type} (B : Backend W L LW).

(** C8.  When the layer's [Writer] request fails with
    [ErrLayerAlreadyExists], [pullLayer] returns nil having called
    nothing but [Layer] and [Writer]: no blob is requested and nothing is
    written.  When it fails with [ErrLayerLocked], [pullLayer] calls
    [Wait] on the layer and returns nil as soon as [Wait] returns,
    whatever [Wait] returns.  Any other error of [Writer] is the result
    of [pullLayer]. *)
Theorem pullLayer_Writer_error (name : string) (fsLayer : FSLayer)
    (w w1 w2 : W) (layer : L) (err : error) :
  Layer B (BlobSum fsLayer) w = (w1, Ok layer) ->
  Writer B layer w1 = (w2, Err err) ->
  (err = ErrLayerAlreadyExists ->
   pullLayer B name fsLayer w
   = Some (w2, [CallLayer (BlobSum fsLayer); CallWriter], None))
  ∧ (err = ErrLayerLocked ->
     (∀ w3 e, Wait B layer w2 = Some (w3, e) ->
        pullLayer B name fsLayer w
        = Some (w3, [CallLayer (BlobSum fsLayer); CallWriter; CallWait], None))
     ∧ (Wait B layer w2 = None -> pullLayer B name fsLayer w = None))
  ∧ (err ≠ ErrLayerAlreadyExists -> err ≠ ErrLayerLocked ->
     pullLayer B name fsLayer w
     = Some (w2, [CallLayer (BlobSum fsLayer); CallWriter], Some err)).
Proof.
  intros HL HW. unfold pullLayer, bind, call. rewrite HL. simpl. rewrite HW. simpl.
  split; [|split].
  - intros ->. done.
  - intros ->. simpl. unfold blocking. split.
    + intros w3 e ->. done.
    + intros ->. done.
  - intros H1 H2. rewrite !bool_decide_eq_false_2 by done. done.
Qed.

End PullLayerFacts.

(** A layer that is complete in the local store is not fetched. *)
Lemma pullLayer_Writer_error_witness :
  pullLayer MemoryClient.backend "library/busybox" {| BlobSum := "sha256:0a" |}
    MemoryClient.completeWorld
  = Some (MemoryClient.completeWorld, [CallLayer "sha256:0a"; CallWriter], None).
Proof.
  refine (proj1 (pullLayer_Writer_error MemoryClient.backend "library/busybox"
                   {| BlobSum := "sha256:0a" |} MemoryClient.completeWorld
                   MemoryClient.completeWorld MemoryClient.completeWorld
                   "sha256:0a" ErrLayerAlreadyExists _ _) eq_refl).
  - vm_compute. reflexivity.
  - vm_compute. reflexivity.
Defined.

(** The transfer path on the in-memory store: the blob is requested
    from offset 0, the size is set before the first byte is written, and
    both handles are closed. *)
Example pullLayer_transfer :
  let w := {| MemoryClient.store := MemoryClient.store MemoryClient.world0;
              MemoryClient.handles := [];
              MemoryClient.registry := {[ "sha256:0b" := [x0a; x0b; x0c] ]} |} in
  match pullLayer MemoryClient.backend "library/busybox" {| BlobSum := "sha256:0b" |} w with
  | Some (w', calls, err) =>
      calls = [CallLayer "sha256:0b"; CallWriter; CallGetBlob "library/busybox" "sha256:0b" 0;
               CallSetSize 3; CallWrite [x0a; x0b; x0c]; CallReaderClose; CallWriterClose]
      ∧ err = None
      ∧ MemoryClient.layerOf "sha256:0b" w'
        = {| ObjectStore.contents := Some [x0a; x0b; x0c]; ObjectStore.expectedSize := 3;
             ObjectStore.writing := false |}
  | None => False
  end.
Proof. vm_compute. done. Qed.

(** An error of [Writer] other than the two coordination signals. *)
Example pullLayer_readOnly :
  pullLayer MemoryClient.readOnly "library/busybox" {| BlobSum := "sha256:0b" |}
    MemoryClient.world0
  = Some ((MemoryClient.Layer "sha256:0b" MemoryClient.world0).1,
          [CallLayer "sha256:0b"; CallWriter], Some (ErrorString "read-only store")).
Proof. vm_compute. done. Qed.

(** *** The scheduler *)

Lemma received_app a b : received (a ++ b) = received a ++ received b.
Proof. unfold received. apply omap_app. Qed.

Lemma spawned_app a b : spawned (a ++ b) = spawned a ++ spawned b.
Proof. unfold spawned. apply omap_app. Qed.

(** The loop never persists the manifest. *)
Lemma pullLoop_no_WriteManifest obs layers n : ∀ i,
  Forall (fun a => isWriteManifest a = false) (pullLoop obs layers n i).1.
Proof.
  induction n as [|n IH]; intros i; simpl; [constructor|].
  case_bool_decide; simpl.
  - destruct (layerResult obs _); simpl.
    + repeat constructor.
    + specialize (IH (S i)). destruct (pullLoop obs layers n (S i)) as [rest r]. simpl in *.
      constructor; [done|]. apply Forall_app. split; [|done].
      destruct (layers !! i); repeat constructor.
  - specialize (IH (S i)). destruct (pullLoop obs layers n (S i)) as [rest r]. simpl in *.
    apply Forall_app. split; [|done]. destruct (layers !! i); repeat constructor.
Qed.

(** From iteration [i] on, with layers [i-4 .. k-1] succeeding and
    layer [k] failing, the loop receives exactly those results in order,
    closes the cancellation channel and returns the error of [k]. *)
Lemma pullLoop_first_error obs layers k e n : ∀ i,
  layerResult obs k = Some e ->
  (∀ j, (i - 4 <= j < k)%nat -> layerResult obs j = None) ->
  (i <= k + 4 < i + n)%nat ->
  ∃ acts, pullLoop obs layers n i = (acts ++ [Recv k; CloseCancel], Some e)
    ∧ received acts = seq (i - 4) (k - (i - 4))
    ∧ Forall (fun a => isCloseCancel a = false) acts.
Proof.
  induction n as [|n IH]; intros i He Hok Hi; [lia|].
  simpl. unfold simultaneousLayerPullWindow.
  case_bool_decide as Hd; simpl.
  - replace (Z.to_nat (Z.of_nat i - 4)) with (i - 4)%nat by lia.
    destruct (decide (i - 4 = k)%nat) as [Heq|Hne].
    + rewrite Heq, He. simpl. exists []. rewrite Nat.sub_diag. done.
    + rewrite Hok by lia. simpl.
      destruct (IH (S i) He) as (acts & Hl & Hr & Hc); [intros j Hj; apply Hok; lia|lia|].
      rewrite Hl. simpl.
      exists (Recv (i - 4) :: match layers !! i with
                              | Some fsLayer => [Spawn i fsLayer]
                              | None => []
                              end ++ acts).
      split; [simpl; by rewrite <- app_assoc|]. split.
      * change (Recv (i - 4) :: ?l) with ([Recv (i - 4)] ++ l).
        rewrite !received_app, Hr. simpl.
        replace (received match layers !! i with
                          | Some fsLayer => [Spawn i fsLayer] | None => [] end)
          with (@nil nat) by (by destruct (layers !! i)).
        simpl. replace (k - (i - 4))%nat with (S (k - (S i - 4)))%nat by lia.
        simpl. do 2 f_equal. lia.
      * constructor; [done|]. apply Forall_app. split; [|done].
        destruct (layers !! i); repeat constructor.
  - destruct (IH (S i) He) as (acts & Hl & Hr & Hc); [intros j Hj; apply Hok; lia|lia|].
    rewrite Hl. simpl.
    exists (match layers !! i with
            | Some fsLayer => [Spawn i fsLayer]
            | None => []
            end ++ acts).
    split; [by rewrite <- app_assoc|]. split.
    + replace (S i - 4)%nat with 0%nat in Hr by lia.
      replace (i - 4)%nat with 0%nat by lia.
      rewrite received_app, Hr.
      by destruct (layers !! i).
    + apply Forall_app. split; [|done]. destruct (layers !! i); repeat constructor.
Qed.

(** The lowest failing index below [n], when there is one. *)
Lemma first_failure_or_none (results : nat -> option error) n :
  (∀ j, (j < n)%nat -> results j = None)
  ∨ ∃ k e, (k < n)%nat ∧ results k = Some e ∧ ∀ j, (j < k)%nat -> results j = None.
Proof.
  induction n as [|n [IH|(k & e & Hk & He & Hl)]].
  - left. lia.
  - destruct (results n) as [e|] eqn:E.
    + right. exists n, e. split; [lia|]. split; assumption.
    + left. intros j Hj. destruct (decide (j = n)) as [->|]; [done|]. apply IH. lia.
  - right. exists k, e. split; [lia|]. split; assumption.
Qed.

Lemma first_failure (results : nat -> option error) n :
  (∃ i, (i < n)%nat ∧ results i ≠ None) ->
  ∃ k e, (k < n)%nat ∧ results k = Some e ∧ ∀ j, (j < k)%nat -> results j = None.
Proof.
  intros (i & Hi & Hne). destruct (first_failure_or_none results n) as [Hnone|H]; [|done].
  by rewrite Hnone in Hne.
Qed.

(** C1.  When the manifest is well formed and the [pullLayer] result of
    at least one layer is an error, [Pull] returns the error of the
    failing layer [k] of lowest index: it receives the results of layers
    [0] to [k] in increasing order, closes the cancellation channel
    right after receiving that of [k] and returns, and
    [ObjectStore.WriteManifest] is not called. *)
Theorem Pull_first_error (obs : observed) (name tag : string) (m : SignedManifest) :
  manifestReply obs = Ok m ->
  len (FSLayers m) = len (History m) ->
  (∃ i, (i < length (FSLayers m))%nat ∧ layerResult obs i ≠ None) ->
  ∃ k e acts,
    (k < length (FSLayers m))%nat
    ∧ layerResult obs k = Some e
    ∧ (∀ j, (j < k)%nat -> layerResult obs j = None)
    ∧ Pull obs name tag
      = (GetImageManifest name tag :: acts ++ [Recv k; CloseCancel], Some e)
    ∧ received acts = seq 0 k
    ∧ Forall (fun a => isCloseCancel a = false) acts
    ∧ Forall (fun a => isWriteManifest a = false) (Pull obs name tag).1.
Proof.
  intros Hm Hlen Hex. destruct (first_failure _ _ Hex) as (k & e & Hk & He & Hl).
  destruct (pullLoop_first_error obs (FSLayers m) k e
              (Z.to_nat (len (FSLayers m) + simultaneousLayerPullWindow)) 0%nat He)
    as (acts & Hloop & Hrecv & Hcc).
  { intros j Hj. apply Hl. lia. }
  { unfold len, simultaneousLayerPullWindow. lia. }
  exists k, e, acts.
  assert (Pull obs name tag
          = (GetImageManifest name tag :: acts ++ [Recv k; CloseCancel], Some e)) as HP.
  { unfold Pull. rewrite Hm.
    rewrite bool_decide_eq_false_2 by (intros H; by apply H).
    rewrite bool_decide_eq_false_2 by (unfold len; lia).
    by rewrite Hloop. }
  repeat split; try done.
  - by rewrite Hrecv, Nat.sub_0_r.
  - rewrite HP. simpl. constructor; [done|].
    pose proof (pullLoop_no_WriteManifest obs (FSLayers m)
                  (Z.to_nat (len (FSLayers m) + simultaneousLayerPullWindow)) 0%nat) as H.
    by rewrite Hloop in H.
Qed.

(** C9.  Once the manifest is fetched, [Pull] returns an error straight
    away, with no worker spawned, when the numbers of layers and of
    history entries differ or when there is no layer; on a manifest with
    as many history entries as layers, and at least one layer, it goes
    on to spawn the transfer of layer 0. *)
Theorem Pull_manifest_shape (obs : observed) (name tag : string) (m : SignedManifest) :
  manifestReply obs = Ok m ->
  (len (FSLayers m) ≠ len (History m) ->
   Pull obs name tag
   = ([GetImageManifest name tag],
      Some (ErrorString "Length of history not equal to number of layers")))
  ∧ (len (FSLayers m) = len (History m) -> len (FSLayers m) = 0 ->
     Pull obs name tag
     = ([GetImageManifest name tag], Some (ErrorString "Image has no layers")))
  ∧ (len (FSLayers m) ≠ len (History m) ∨ len (FSLayers m) = 0 ->
     spawned (Pull obs name tag).1 = [] ∧ (Pull obs name tag).2 ≠ None)
  ∧ (len (FSLayers m) = len (History m) -> 0 < len (FSLayers m) ->
     ∃ fsLayer acts,
       FSLayers m !! 0%nat = Some fsLayer
       ∧ (Pull obs name tag).1 = GetImageManifest name tag :: Spawn 0 fsLayer :: acts).
Proof.
  intros Hm. unfold Pull. rewrite Hm.
  split; [|split; [|split]].
  - intros Hne. by rewrite bool_decide_eq_true_2.
  - intros Heq H0. rewrite bool_decide_eq_false_2 by (intros H; by apply H).
    by rewrite bool_decide_eq_true_2.
  - intros [Hne|H0].
    + by rewrite bool_decide_eq_true_2.
    + case_bool_decide; [done|]. by rewrite bool_decide_eq_true_2.
  - intros Heq Hpos. rewrite bool_decide_eq_false_2 by (intros H; by apply H).
    rewrite bool_decide_eq_false_2 by lia.
    destruct (FSLayers m) as [|fsLayer layers] eqn:E; [unfold len in Hpos; simpl in Hpos; lia|].
    exists fsLayer.
    replace (Z.to_nat (len (fsLayer :: layers) + simultaneousLayerPullWindow))
      with (S (length layers + 4)) by (unfold len, simultaneousLayerPullWindow; simpl; lia).
    simpl.
    destruct (pullLoop obs (fsLayer :: layers) (length layers + 4) 1) as [rest r].
    destruct r; simpl; eauto.
Qed.

(** Ten layers, the transfer of layer 3 fails. *)
Lemma Pull_first_error_witness :
  ∃ k e acts,
    (k < 10)%nat
    ∧ failingAt 3 (ErrorString "connection reset") k = Some e
    ∧ (∀ j, (j < k)%nat -> failingAt 3 (ErrorString "connection reset") j = None)
    ∧ Pull {| manifestReply := Ok (manifestOf 10 10);
              layerResult := failingAt 3 (ErrorString "connection reset");
              writeResult := None |} "library/busybox" "latest"
      = (GetImageManifest "library/busybox" "latest" :: acts ++ [Recv k; CloseCancel], Some e)
    ∧ received acts = seq 0 k
    ∧ Forall (fun a => isCloseCancel a = false) acts
    ∧ Forall (fun a => isWriteManifest a = false)
        (Pull {| manifestReply := Ok (manifestOf 10 10);
                 layerResult := failingAt 3 (ErrorString "connection reset");
                 writeResult := None |} "library/busybox" "latest").1.
Proof.
  apply (Pull_first_error
           {| manifestReply := Ok (manifestOf 10 10);
              layerResult := failingAt 3 (ErrorString "connection reset");
              writeResult := None |} "library/busybox" "latest" (manifestOf 10 10)).
  - reflexivity.
  - reflexivity.
  - exists 3%nat. split; [simpl; lia | discriminate].
Defined.

(** Scenario S2: the scheduler's own steps up to the failure of layer
    3.  Layers 0 to 6 were spawned, the manifest is not written. *)
Example Pull_ten_layers_third_fails :
  Pull {| manifestReply := Ok (manifestOf 10 10);
          layerResult := failingAt 3 (ErrorString "connection reset");
          writeResult := None |} "library/busybox" "latest"
  = ([GetImageManifest "library/busybox" "latest";
      Spawn 0 {| BlobSum := "sha256:0" |}; Spawn 1 {| BlobSum := "sha256:1" |};
      Spawn 2 {| BlobSum := "sha256:2" |}; Spawn 3 {| BlobSum := "sha256:3" |};
      Recv 0; Spawn 4 {| BlobSum := "sha256:4" |};
      Recv 1; Spawn 5 {| BlobSum := "sha256:5" |};
      Recv 2; Spawn 6 {| BlobSum := "sha256:6" |};
      Recv 3; CloseCancel],
     Some (ErrorString "connection reset")).
Proof. vm_compute. reflexivity. Qed.

(** Scenario S1: six layers, all pulled; the manifest is written once,
    after the last result was received. *)
Example Pull_six_layers :
  let r := Pull {| manifestReply := Ok (manifestOf 6 6); layerResult := fun _ => None;
                   writeResult := None |} "library/busybox" "latest" in
  spawned r.1 = seq 0 6 ∧ received r.1 = seq 0 6
  ∧ last r.1 = Some (WriteManifest "library/busybox" "latest" (manifestOf 6 6))
  ∧ length (List.filter isWriteManifest r.1) = 1%nat
  ∧ r.2 = None.
Proof. vm_compute. done. Qed.

(** Three layers against two history entries. *)
Lemma Pull_manifest_shape_witness :
  Pull {| manifestReply := Ok (manifestOf 3 2); layerResult := fun _ => None;
          writeResult := None |} "library/busybox" "latest"
  = ([GetImageManifest "library/busybox" "latest"],
     Some (ErrorString "Length of history not equal to number of layers")).
Proof.
  apply (Pull_manifest_shape
           {| manifestReply := Ok (manifestOf 3 2); layerResult := fun _ => None;
              writeResult := None |} "library/busybox" "latest" (manifestOf 3 2)).
  - reflexivity.
  - vm_compute. discriminate.
Defined.

End ClientFacts.

(** ** Regular expressions *)

Module RegexpFacts.
Import Regexp.

Lemma append_empty s1 s2 : s1 +:+ s2 = "" -> s1 = "" ∧ s2 = "".
Proof. destruct s1; simpl; [done|discriminate]. Qed.

Lemma append_cons s1 s2 c s :
  s1 +:+ s2 = String c s ->
  (s1 = "" ∧ s2 = String c s) ∨ (∃ s1', s1 = String c s1' ∧ s = s1' +:+ s2).
Proof.
  destruct s1 as [|c1 s1]; simpl; [by left|].
  intros [= -> <-]. right. by exists s1.
Qed.

Lemma nullable_matches r : nullable r = true ↔ matches r "".
Proof.
  split.
  - induction r; simpl; intros H; try done.
    + constructor.
    + apply andb_prop in H as [H1 H2]. apply (m_concat _ _ "" ""); auto.
    + apply orb_prop in H as [H|H]; [apply m_alt_l | apply m_alt_r]; auto.
    + constructor.
  - intros H. remember EmptyString as s eqn:Hs.
    induction H as [|class c Hc|r1 r2 s1 s2 H1 IH1 H2 IH2|r1 r2 s H IH|r1 r2 s H IH
                   |r|r s1 s2 H1 IH1 H2 IH2]; simpl; try done.
    + apply append_empty in Hs as [-> ->]. by rewrite IH1, IH2.
    + by rewrite IH.
    + rewrite IH by done. apply orb_true_r.
Qed.

Lemma deriv_sound c r : ∀ s, matches (deriv c r) s -> matches r (String c s).
Proof.
  induction r as [| |class|r1 IH1 r2 IH2|r1 IH1 r2 IH2|r1 IH1]; simpl; intros s H.
  - inversion H.
  - inversion H.
  - destruct (class c) eqn:Hc; inversion H; subst. by constructor.
  - destruct (nullable r1) eqn:Hn.
    + inversion H as [| | | ? ? ? H'| ? ? ? H'| |]; subst.
      * inversion H' as [| |? ? s1 s2 Ha Hb| | | |]; subst.
        change (String c (s1 +:+ s2)) with (String c s1 +:+ s2). constructor; auto.
      * apply (m_concat _ _ "" (String c s)); [by apply nullable_matches | auto].
    + inversion H as [| |? ? s1 s2 Ha Hb| | | |]; subst.
      change (String c (s1 +:+ s2)) with (String c s1 +:+ s2). constructor; auto.
  - inversion H; subst; [apply m_alt_l | apply m_alt_r]; auto.
  - inversion H as [| |? ? s1 s2 Ha Hb| | | |]; subst.
    change (String c (s1 +:+ s2)) with (String c s1 +:+ s2). constructor; auto.
Qed.

Lemma deriv_complete c r w : matches r w -> ∀ s, w = String c s -> matches (deriv c r) s.
Proof.
  induction 1 as [|class c' Hc|r1 r2 s1 s2 H1 IH1 H2 IH2|r1 r2 s' H IH|r1 r2 s' H IH
                 |r|r s1 s2 H1 IH1 H2 IH2]; intros s Hw; simpl.
  - done.
  - injection Hw as -> <-. rewrite Hc. constructor.
  - apply append_cons in Hw as [[-> ->]|(s1' & -> & ->)].
    + apply nullable_matches in H1. rewrite H1. apply m_alt_r. by apply IH2.
    + specialize (IH1 s1' eq_refl).
      destruct (nullable r1); [apply m_alt_l|]; by constructor.
  - apply m_alt_l. by apply IH.
  - apply m_alt_r. by apply IH.
  - done.
  - apply append_cons in Hw as [[-> ->]|(s1' & -> & ->)].
    + by apply IH2.
    + constructor; [by apply IH1 | done].
Qed.

(** Matching by derivatives decides the words of the expression. *)
Lemma MatchString_matches s : ∀ r, MatchString r s = true ↔ matches r s.
Proof.
  induction s as [|c s IH]; intros r; simpl.
  - apply nullable_matches.
  - rewrite IH. split; [apply deriv_sound | intros H; by eapply deriv_complete].
Qed.

End RegexpFacts.

(** ** The validating wrapper *)

Module BaseFacts.
Import Driver Base.

(** The expression accepts a leading slash followed by class bytes,
    repeated, and nothing else. *)
Example PathRegexp_samples :
  map (Regexp.MatchString PathRegexp)
      ["/a/b"; "/docker/registry/v2/_uploads"; "/A.z_-9"; "/"; ""; "a"; "/a/"; "/a//b"; "/a b"]
  = [true; true; true; false; false; false; false; false; false].
Proof. reflexivity. Qed.

Ltac base_cases :=
  unfold recorder; simpl in *;
  repeat match goal with
         | |- context [Name ?i ?d] => destruct (Name i d) as [? ?]
         end;
  simpl in *;
  repeat match goal with
         | H : context [Regexp.MatchString PathRegexp ?p] |- _ =>
             destruct (Regexp.MatchString PathRegexp p); simpl in H
         | |- context [Regexp.MatchString PathRegexp ?p] =>
             destruct (Regexp.MatchString PathRegexp p); simpl
         | H : context [String.eqb ?p "/"] |- _ => destruct (String.eqb p "/"); simpl in H
         end;
  repeat case_bool_decide; simpl in *; try done; try lia.

(** C4, amended.  A request is forwarded to the wrapped driver, with
    its arguments unchanged, exactly when every path argument matches
    [PathRegexp] ([List] also takes ["/"]) and the offset of
    [ReadStream] and [WriteStream] is not negative.  Any other request
    is answered without forwarding: with [InvalidOffsetError] when the
    offset is negative, whatever the path, and with [InvalidPathError]
    otherwise.  In both cases the wrapped driver's [Name] is called
    first, for the trace, and is the only method of the wrapped driver
    a refused request reaches. *)
Theorem Base_validates {D : Type} (inner : StorageDriver D) (req : request) (d : D)
    (log : list call) :
  (accepted req = true ->
   invoke (Base inner) req d = invoke inner req (Name inner d).1)
  ∧ (accepted req = false ->
     (invoke (Base inner) req d).1 = (Name inner d).1
     ∧ reply_error (invoke (Base inner) req d).2 = Some (rejection req))
  ∧ (accepted req = true ->
     (invoke (Base recorder) req log).1 = log ++ [CallName; call_of req])
  ∧ (accepted req = false ->
     (invoke (Base recorder) req log).1 = log ++ [CallName]).
Proof.
  unfold valid_path.
  split; [|split; [|split]]; intros Hacc; destruct req; simpl in *;
    unfold valid_path, GetContent, PutContent, ReadStream, WriteStream, Stat, List, Move,
      Delete, URLFor in *; base_cases;
    rewrite <- ?app_assoc; done.
Qed.

(** [List] of the root is forwarded. *)
Lemma Base_validates_witness :
  (invoke (Base recorder) (ListReq "/") []).1 = [CallName; CallList "/"].
Proof.
  exact (proj1 (proj2 (proj2 (Base_validates recorder (ListReq "/") [] []))) eq_refl).
Defined.

(** A valid path with a negative offset: the request is refused with
    [InvalidOffsetError], not [InvalidPathError], and the wrapped driver
    has been asked its name. *)
Lemma Base_negative_offset_counterexample :
  let r := invoke (Base recorder) (ReadStreamReq "/a/b" (-1)) [] in
  accepted (ReadStreamReq "/a/b" (-1)) = false
  ∧ reply_error r.2 = Some (InvalidOffsetError "/a/b" (-1))
  ∧ reply_error r.2 ≠ Some (InvalidPathError "/a/b")
  ∧ r.1 = [CallName]
  ∧ r.1 ≠ [].
Proof. vm_compute. repeat split; discriminate. Qed.

(** The offset is checked before the path. *)
Example Base_offset_before_path :
  reply_error (invoke (Base recorder) (WriteStreamReq "no slash" (-7) []) []).2
  = Some (InvalidOffsetError "no slash" (-7)).
Proof. reflexivity. Qed.

End BaseFacts.

(** ** The blob server *)

Module BlobServerFacts.
Import Driver Storage.

Example canonical_keys :
  map CanonicalMIMEHeaderKey
      ["ETag"; "Cache-Control"; "Docker-Content-Digest"; "Content-Type"; "Content-Length"]
  = ["Etag"; "Cache-Control"; "Docker-Content-Digest"; "Content-Type"; "Content-Length"].
Proof. reflexivity. Qed.

Example max_age : "max-age=" +:+ FormatInt (Seconds blobCacheControlMaxAge) = "max-age=31536000".
Proof. reflexivity. Qed.

Lemma Get_Set_ne h key key' value :
  CanonicalMIMEHeaderKey key ≠ CanonicalMIMEHeaderKey key' ->
  Get (Set_ h key' value) key = Get h key.
Proof. intros Hne. unfold Get, Set_. by rewrite lookup_insert_ne. Qed.

Lemma Set_lookup h key value : Set_ h key value !! CanonicalMIMEHeaderKey key = Some [value].
Proof. unfold Set_. apply lookup_insert_eq. Qed.

Lemma Set_lookup_ne h key value k :
  CanonicalMIMEHeaderKey key ≠ k -> Set_ h key value !! k = h !! k.
Proof. intros Hne. unfold Set_. by apply lookup_insert_ne. Qed.

Ltac header_keys :=
  repeat first
    [ rewrite Set_lookup_ne by (compute; congruence)
    | rewrite Get_Set_ne by (compute; congruence)
    | match goal with
      | |- context [Set_ ?h ?key ?v !! ?k] =>
          change (Set_ h key v !! k) with (Set_ h key v !! CanonicalMIMEHeaderKey key);
          rewrite Set_lookup
      end ].

Section ServeBlobFacts.
Context {D R : Type} (driver : StorageDriver D).
Variable statter : string -> result Descriptor.
Variable pathFn : string -> result string.
Variable newFileReader : string -> Z -> D -> D * result R.


End ServeBlobFacts.



End BlobServerFacts.

(** ** Walking the driver *)

Module WalkFacts.
Import Driver Storage.

(** C2, on the code.  An error of the callback on a node inside a
    subdirectory is not returned by [Walk]: here the callback fails on
    [/a/b], inside the directory [/a]; the nested [Walk] returns the
    error, the caller drops it, goes on to visit [/c] and returns nil. *)
Theorem Walk_drops_nested_error :
  Walk InMemory.driver 5 "/" (InMemory.failOn "/a/b") [] InMemory.nestedFiles
  = Returned (["/a"; "/a/b"; "/c"], InMemory.nestedFiles, None).
Proof. vm_compute. reflexivity. Qed.

(** The nested call itself does return the error. *)
Example Walk_nested_call_fails :
  Walk InMemory.driver 5 "/a" (InMemory.failOn "/a/b") ["/a"] InMemory.nestedFiles
  = Returned (["/a"; "/a/b"], InMemory.nestedFiles, Some (ErrorString "callback failed")).
Proof. vm_compute. reflexivity. Qed.

(** An error on a direct child aborts the traversal and is returned. *)
Example Walk_returns_direct_error :
  Walk InMemory.driver 5 "/" (InMemory.failOn "/a") [] InMemory.nestedFiles
  = Returned (["/a"], InMemory.nestedFiles, Some (ErrorString "callback failed")).
Proof. vm_compute. reflexivity. Qed.

Section WalkInvariant.
Context {D S : Type} (driver : StorageDriver D) (f : WalkFn (D:=D) (S:=S)).

(** A property of the closure's variables and of the driver that the
    listings, the stats and every call of the callback preserve holds
    when [Walk] returns. *)
Lemma Walk_invariant (P : S -> D -> Prop) :
  (∀ path s d, P s d -> P s (List driver path d).1) ->
  (∀ path s d, P s d -> P s (Stat driver path d).1) ->
  (∀ fileInfo s d s' d' err, P s d -> f fileInfo s d = Returned (s', d', err) -> P s' d') ->
  ∀ fuel from s d s' d' err,
    P s d -> Walk driver fuel from f s d = Returned (s', d', err) -> P s' d'.
Proof.
  intros HL HS Hf. induction fuel as [|fuel IH]; intros from s d s' d' err HP; [done|].
  simpl. pose proof (HL from s d HP) as HP0.
  destruct (List driver from d) as [d0 [children|e]]; [|by intros [= <- <- <-]].
  simpl in HP0. clear HP. revert s d0 HP0.
  induction children as [|child rest IHc]; intros s d0 HP0.
  - by intros [= <- <- <-].
  - pose proof (HS child s d0 HP0) as HP1.
    destruct (Stat driver child d0) as [d1 [fileInfo|e]]; [|by intros [= <- <- <-]].
    simpl in HP1.
    destruct (f fileInfo s d1) as [[[s1 d2] e1]| |] eqn:Ef; [|done|done].
    pose proof (Hf _ _ _ _ _ _ HP1 Ef) as HP2.
    destruct (bool_decide (e1 ≠ None) && negb (is_err e1 ErrSkipDir));
      [by intros [= <- <- <-]|].
    destruct (IsDir fileInfo && negb (is_err e1 ErrSkipDir)).
    + destruct (Walk driver fuel child f s1 d2) as [[[s2 d3] e2]| |] eqn:Ew; [|done|done].
      pose proof (IH _ _ _ _ _ _ HP2 Ew) as HP3. by apply IHc.
    + by apply IHc.
Qed.

(** More fuel does not change what [Walk] returns. *)
Lemma Walk_fuel_mono fuel : ∀ fuel' from s d r,
  (fuel <= fuel')%nat ->
  Walk driver fuel from f s d = Returned r -> Walk driver fuel' from f s d = Returned r.
Proof.
  induction fuel as [|fuel IH]; intros fuel' from s d r Hle; [done|].
  destruct fuel' as [|fuel']; [lia|].
  simpl. destruct (List driver from d) as [d0 [children|e]]; [|done].
  revert s d0. induction children as [|child rest IHc]; intros s d0; [done|].
  destruct (Stat driver child d0) as [d1 [fileInfo|e]]; [|done].
  destruct (f fileInfo s d1) as [[[s1 d2] e1]| |]; [|done|done].
  destruct (bool_decide (e1 ≠ None) && negb (is_err e1 ErrSkipDir)); [done|].
  destruct (IsDir fileInfo && negb (is_err e1 ErrSkipDir)); [|by apply IHc].
  destruct (Walk driver fuel child f s1 d2) as [[[s2 d3] e2]| |] eqn:Ew; [|done|done].
  rewrite (IH fuel' _ _ _ _ ltac:(lia) Ew). apply IHc.
Qed.

(** On a namespace of bounded depth, where [rank] decreases from a
    directory to the paths it lists, [Walk] does not run out of fuel
    once the fuel exceeds the rank of the starting path: it returns, or
    the callback panics. *)
Lemma Walk_enough_fuel (rank : string -> nat) :
  (∀ fileInfo s d, f fileInfo s d ≠ OutOfFuel) ->
  (∀ path d d' children child,
     List driver path d = (d', Ok children) -> child ∈ children ->
     (rank child < rank path)%nat) ->
  ∀ fuel from s d, (rank from < fuel)%nat -> Walk driver fuel from f s d ≠ OutOfFuel.
Proof.
  intros Hf Hrank. induction fuel as [|fuel IH]; intros from s d Hlt; [lia|].
  simpl. destruct (List driver from d) as [d0 [children|e]] eqn:El; [|done].
  assert (∀ c, c ∈ children -> (rank c < fuel)%nat) as Hall.
  { intros c Hc. pose proof (Hrank _ _ _ _ _ El Hc). lia. }
  clear El. revert s d0. induction children as [|child rest IHc]; intros s d0; [done|].
  destruct (Stat driver child d0) as [d1 [fileInfo|e]]; [|done].
  destruct (f fileInfo s d1) as [[[s1 d2] e1]| |] eqn:Ef; [|done|by apply Hf in Ef].
  assert (∀ c, c ∈ rest -> (rank c < fuel)%nat) as Hrest
    by (intros c Hc; apply Hall; by apply elem_of_cons; right).
  destruct (bool_decide (e1 ≠ None) && negb (is_err e1 ErrSkipDir)); [done|].
  destruct (IsDir fileInfo && negb (is_err e1 ErrSkipDir)); [|by apply IHc].
  destruct (Walk driver fuel child f s1 d2) as [[[s2 d3] e2]| |] eqn:Ew; [|done|].
  - by apply IHc.
  - exfalso. apply (IH child s1 d2); [|done]. apply Hall. apply elem_of_cons. by left.
Qed.

End WalkInvariant.

End WalkFacts.

(** ** The upload purger *)

Module PurgeFacts.
Import Driver Storage.

Section PurgeUploadsFacts.
Context {D : Type} (driver : StorageDriver D).
Variable uuidParse : string -> option string.
Variable timeParse : list byte -> result Z.
Variable timeNow : nat -> Z.
Variable root : result string.
Variable ranging : gmap string uploadData -> list (string * uploadData).

#[local] Abbreviation visit := (visit driver uuidParse timeParse timeNow).
Variable states : D -> Prop.

#[local] Abbreviation stamped := (stamped driver uuidParse timeParse timeNow states).
#[local] Abbreviation located := (located uuidParse).
#[local] Abbreviation uUIDFromPath := (uUIDFromPath uuidParse).
#[local] Abbreviation readStartedAtFile := (readStartedAtFile driver timeParse).

(** What one call of the callback does to the records: nothing, or one
    update of the record of the UUID found in the path. *)
Lemma visit_uploads fileInfo st d st' d' err :
  visit fileInfo st d = Returned (st', d', err) ->
  uploads st' = uploads st
  ∨ ∃ isContainingDir ud,
      uUIDFromPath (Path fileInfo) = ((uUIDFromPath (Path fileInfo)).1, isContainingDir)
      ∧ uploads st' = <[(uUIDFromPath (Path fileInfo)).1 := ud]> (uploads st)
      ∧ (isContainingDir = true -> containingDir ud = Path fileInfo)
      ∧ (isContainingDir = false ->
         containingDir ud
         = match uploads st !! (uUIDFromPath (Path fileInfo)).1 with
           | Some old => containingDir old
           | None => ""
           end)
      ∧ ((∃ ticks, (pathSplit (Path fileInfo)).2 = "startedat"
                   ∧ (readStartedAtFile (Path fileInfo) ticks d).2 = Ok (startedAt ud))
         ∨ startedAt ud
           = match uploads st !! (uUIDFromPath (Path fileInfo)).1 with
             | Some old => startedAt old
             | None => timeNow (ticks st) + 10000 * Hour
             end).
Proof.
  unfold Storage.visit.
  destruct (pathSplit (Path fileInfo)).2 as [|c file] eqn:Efile; [done|].
  set (st1 := if Ascii.eqb c "_" then _ else st).
  assert (uploads st1 = uploads st) as Hup by (subst st1; by destruct (Ascii.eqb c "_")).
  assert (ticks st1 = ticks st) as Htk by (subst st1; by destruct (Ascii.eqb c "_")).
  destruct (Ascii.eqb c "_" && IsDir fileInfo && negb (inUploadDir st1)).
  { intros [= <- <- <-]. by left. }
  destruct (uUIDFromPath (Path fileInfo)) as [uuid isC] eqn:Eu. cbv beta iota zeta.
  destruct (String.eqb uuid "").
  { intros [= <- <- <-]. by left. }
  rewrite Hup, Htk. change (fst (uuid, isC)) with uuid.
  destruct (uploads st !! uuid) as [old|];
    (destruct (String.eqb (String c file) "startedat") eqn:Es;
     [ apply String.eqb_eq in Es;
       destruct (readStartedAtFile (Path fileInfo) _ d) as [[d0 ticks2] [t|e]] eqn:Er
     | ]);
    intros [= <- <- <-]; right; exists isC; eexists;
    (split; [reflexivity|]); (split; [reflexivity|]);
    (split; [by destruct isC|]); (split; [by destruct isC|]).
  all: try (right; by destruct isC).
  all: left; eexists; split; [exact Es|]; rewrite Er; reflexivity.
Qed.

(** The callback reads the driver at most once, with [GetContent]. *)
Lemma visit_driver fileInfo st d st' d' err :
  visit fileInfo st d = Returned (st', d', err) ->
  d' = d ∨ d' = (GetContent driver (Path fileInfo) d).1.
Proof.
  unfold Storage.visit.
  destruct (pathSplit (Path fileInfo)).2 as [|c file] eqn:Efile; [done|].
  set (st1 := if Ascii.eqb c "_" then _ else st).
  destruct (Ascii.eqb c "_" && IsDir fileInfo && negb (inUploadDir st1)).
  { intros [= <- <- <-]. by left. }
  destruct (Storage.uUIDFromPath uuidParse (Path fileInfo)) as [uuid isC] eqn:Eu.
  cbv beta iota zeta.
  destruct (String.eqb uuid "").
  { intros [= <- <- <-]. by left. }
  destruct (uploads st1 !! uuid) as [old|];
    (destruct (String.eqb (String c file) "startedat");
     [ unfold Storage.readStartedAtFile;
       destruct (GetContent driver (Path fileInfo) d) as [d0 [content|e]];
       [destruct (timeParse content)|]
     | ]);
    intros [= <- <- <-]; auto.
Qed.

Lemma visit_stamped fileInfo st d st' d' err :
  states d ->
  stamped st -> visit fileInfo st d = Returned (st', d', err) -> stamped st'.
Proof.
  intros Hd Hst Hv. destruct (visit_uploads _ _ _ _ _ _ Hv)
    as [Heq|(isC & ud & _ & Heq & _ & _ & Ht)]; unfold Storage.stamped in *; rewrite Heq;
    [done|].
  intros uuid ud'. destruct (decide ((uUIDFromPath (Path fileInfo)).1 = uuid)) as [<-|Hne].
  - rewrite lookup_insert_eq. intros [= <-].
    destruct Ht as [(ticks0 & Hfile & Hread)|Ht].
    + right. by exists (Path fileInfo), ticks0, d.
    + rewrite Ht. destruct (uploads st !! _) as [old|] eqn:Eold.
      * by apply Hst.
      * left. by exists (ticks st).
  - rewrite lookup_insert_ne by done. apply Hst.
Qed.

Lemma visit_located fileInfo st d st' d' err :
  located st -> visit fileInfo st d = Returned (st', d', err) -> located st'.
Proof.
  intros Hst Hv. destruct (visit_uploads _ _ _ _ _ _ Hv)
    as [Heq|(isC & ud & Hu & Heq & Hc1 & Hc0 & _)]; unfold Storage.located in *; rewrite Heq;
    [done|].
  intros uuid ud'. destruct (decide ((uUIDFromPath (Path fileInfo)).1 = uuid)) as [<-|Hne].
  - rewrite lookup_insert_eq. intros [= <-]. destruct isC.
    + right. rewrite (Hc1 eq_refl). exact Hu.
    + rewrite Hc0 by done. destruct (uploads st !! _) as [old|] eqn:Eold.
      * by apply Hst.
      * by left.
  - rewrite lookup_insert_ne by done. apply Hst.
Qed.

Lemma no_records st : uploads st = ∅ -> stamped st ∧ located st.
Proof.
  intros He. split; intros uuid ud; rewrite He, lookup_empty; done.
Qed.

(** The records collected by the walk are stamped and located. *)
Lemma getOutstandingUploads_records fuel d st d' :
  readable driver states -> states d ->
  getOutstandingUploads driver uuidParse timeParse timeNow root fuel d = Returned (st, d') ->
  stamped st ∧ located st.
Proof.
  intros Hread Hd. unfold getOutstandingUploads. destruct root as [from|e].
  - destruct (Walk driver fuel from visit sweep0 d) as [[[st1 d1] e1]| |] eqn:Ew; [|done|done].
    assert (states d1 ∧ stamped st1 ∧ located st1) as (_ & Hst1).
    { refine (WalkFacts.Walk_invariant driver visit
                (fun st d => states d ∧ stamped st ∧ located st)
                _ _ _ fuel from sweep0 d st1 d1 e1
                (conj Hd (no_records sweep0 eq_refl)) Ew).
      - intros path s0 d0 [H0 H12]. split; [|done]. by apply Hread.
      - intros path s0 d0 [H0 H12]. split; [|done]. by apply Hread.
      - intros fileInfo s0 d0 s1 d2 err (H0 & H1 & H2) Hv. split; [|split].
        + destruct (visit_driver _ _ _ _ _ _ Hv) as [->| ->]; [done|]. by apply Hread.
        + by eapply visit_stamped.
        + by eapply visit_located. }
    destruct e1; intros [= <- <-]; exact Hst1.
  - intros [= <- <-]. by apply no_records.
Qed.

(** The dry run reports the expired directories and touches nothing. *)
Lemma purge_dry_run records olderThan : ∀ deleted errs d,
  purge driver records olderThan false deleted errs d
  = (deleted ++ expired olderThan records, errs, d).
Proof.
  unfold expired. induction records as [|[uuid ud] records IH]; intros deleted errs d; simpl.
  - by rewrite app_nil_r.
  - case_bool_decide; simpl; rewrite IH; [by rewrite <- app_assoc|done].
Qed.

(** The real run calls [Delete] on the expired directories, in the
    order of the enumeration, and on nothing else. *)
Lemma purge_delete records olderThan : ∀ deleted errs d,
  purge driver records olderThan true deleted errs d
  = let r := deleteAll driver (expired olderThan records) d in
    (deleted ++ succeeded r.1, errs ++ failed r.1, r.2).
Proof.
  unfold expired. induction records as [|[uuid ud] records IH]; intros deleted errs d; simpl.
  - by rewrite !app_nil_r.
  - case_bool_decide; simpl; [|apply IH].
    destruct (Delete driver (containingDir ud) d) as [d1 [e|]]; rewrite IH; simpl;
      destruct (deleteAll driver _ d1) as [results d2]; simpl;
      unfold succeeded, failed; simpl; by rewrite <- app_assoc.
Qed.

(** The callback itself never runs out of fuel. *)
Lemma visit_total fileInfo st d : visit fileInfo st d ≠ OutOfFuel.
Proof.
  unfold Storage.visit.
  destruct (pathSplit (Path fileInfo)).2 as [|c file]; [done|].
  set (st1 := if Ascii.eqb c "_" then _ else st).
  destruct (Ascii.eqb c "_" && IsDir fileInfo && negb (inUploadDir st1)); [done|].
  destruct (Storage.uUIDFromPath uuidParse (Path fileInfo)) as [uuid isC].
  cbv beta iota zeta. destruct (String.eqb uuid ""); [done|].
  destruct (uploads st1 !! uuid) as [old|];
    (destruct (String.eqb (String c file) "startedat");
     [ destruct (readStartedAtFile (Path fileInfo) _ d) as [[d0 ticks2] [t|e]] | ]);
    done.
Qed.

(** What [PurgeUploads] returns does not depend on the fuel, and on a
    namespace of bounded depth there is enough of it. *)
Lemma PurgeUploads_fuel_mono fuel fuel' olderThan actuallyDelete d r :
  (fuel <= fuel')%nat ->
  PurgeUploads driver uuidParse timeParse timeNow root ranging fuel olderThan actuallyDelete d
  = Returned r ->
  PurgeUploads driver uuidParse timeParse timeNow root ranging fuel' olderThan actuallyDelete d
  = Returned r.
Proof.
  intros Hle. unfold PurgeUploads, getOutstandingUploads. destruct root as [from|e]; [|done].
  destruct (Walk driver fuel from visit sweep0 d) as [[[st1 d1] e1]| |] eqn:Ew; [|done|done].
  by rewrite (WalkFacts.Walk_fuel_mono driver visit fuel fuel' _ _ _ _ Hle Ew).
Qed.

Lemma PurgeUploads_enough_fuel (rank : string -> nat) fuel from olderThan actuallyDelete d :
  (∀ path d d' children child,
     List driver path d = (d', Ok children) -> child ∈ children ->
     (rank child < rank path)%nat) ->
  root = Ok from -> (rank from < fuel)%nat ->
  PurgeUploads driver uuidParse timeParse timeNow root ranging fuel olderThan actuallyDelete d
  ≠ OutOfFuel.
Proof.
  intros Hrank Hroot Hlt. unfold PurgeUploads, getOutstandingUploads. rewrite Hroot.
  pose proof (WalkFacts.Walk_enough_fuel driver visit rank visit_total Hrank
                fuel from sweep0 d Hlt) as Hw.
  destruct (Walk driver fuel from visit sweep0 d) as [[[st1 d1] [e1|]]| |]; done.
Qed.

Lemma deleteAll_dirs dirs : ∀ d, map fst (deleteAll driver dirs d).1 = dirs.
Proof.
  induction dirs as [|dir dirs IH]; intros d; simpl; [done|].
  destruct (Delete driver dir d) as [d1 e]. specialize (IH d1).
  destruct (deleteAll driver dirs d1) as [results d2]. simpl in *. by rewrite IH.
Qed.

(** The expired directories are those of the records of the map that
    are older than the cutoff, whatever the order of enumeration. *)
Lemma expired_records (m : gmap string uploadData) olderThan records dir :
  records ≡ₚ map_to_list m ->
  dir ∈ expired olderThan records
  ↔ ∃ uuid ud, m !! uuid = Some ud ∧ startedAt ud < olderThan ∧ containingDir ud = dir.
Proof.
  intros Hperm. unfold expired. rewrite list_elem_of_In, in_map_iff. split.
  - intros ([uuid ud] & Hdir & Hin). apply filter_In in Hin as [Hin Hold].
    apply list_elem_of_In in Hin. rewrite Hperm in Hin.
    apply elem_of_map_to_list in Hin. apply bool_decide_eq_true in Hold.
    by exists uuid, ud.
  - intros (uuid & ud & Hm & Hold & Hdir). exists (uuid, ud). split; [done|].
    apply filter_In. split.
    + apply list_elem_of_In. rewrite Hperm. by apply elem_of_map_to_list.
    + by apply bool_decide_eq_true.
Qed.


End PurgeUploadsFacts.

(** Scenario S4: with the cutoff at 2025-01-01 only the upload started in
    2020 is deleted. *)
Example PurgeUploads_2025 :
  InMemory.purgeExample InMemory.cutoff2025 true
  = Returned (["/repos/_uploads/" +:+ InMemory.uuidA], [],
              List.filter
                (fun e => negb (InMemory.below ("/repos/_uploads/" +:+ InMemory.uuidA) e))
                InMemory.uploadFiles).
Proof. vm_compute. reflexivity. Qed.

(** The in-memory driver does not change when it is read. *)
Lemma InMemory_readable d0 : readable InMemory.driver (fun d => d = d0).
Proof.
  intros path d ->. unfold InMemory.driver. simpl. repeat split.
  - destruct (String.eqb path "/"); [done|]. by destruct (InMemory.lookup path d0) as [[?|]|].
  - by destruct (InMemory.lookup path d0) as [[?|]|].
Qed.

Lemma InMemory_lookup_In path d e : InMemory.lookup path d = Some e -> In (path, e) d.
Proof.
  induction d as [|[p e'] d IH]; simpl; [done|].
  destruct (String.eqb p path) eqn:E.
  - apply String.eqb_eq in E as ->. intros [= ->]. by left.
  - intros H. right. by apply IH.
Qed.

(** No [startedat] file can be read for the third upload. *)
Lemma uuidC_no_startedat t :
  ¬ fromStartedAtFile InMemory.driver InMemory.uuidParse InMemory.timeParse
      (fun d => d = InMemory.uploadFiles) InMemory.uuidC t.
Proof.
  intros (path & ticks & d & -> & Hu & Hf & Hr).
  unfold readStartedAtFile, InMemory.driver, GetContent in Hr.
  destruct (InMemory.lookup path InMemory.uploadFiles) as [[content|]|] eqn:El; [|done|done].
  apply InMemory_lookup_In in El. unfold InMemory.uploadFiles in El. simpl in El.
  repeat (destruct El as [El|El];
          [first [discriminate El
                 | injection El as <- <-; vm_compute in Hu, Hf; congruence]|]).
  done.
Qed.



End PurgeFacts.

(** ** More on the in-memory object store *)

Module ObjectStoreMore.
Import Manifest ObjectStore.

(** A granted writer starts from the contents of the layer. *)
Lemma Writer_buffer ml ml1 w :
  Writer ml = (ml1, Ok w) -> buffer w = default [] (contents ml).
Proof.
  unfold Writer. destruct (contents ml) as [c|]; simpl.
  - destruct (writing ml); [done|]. case_bool_decide; [done|]. by intros [= <- <-].
  - by intros [= <- <-].
Qed.

(** Writes through the owner of the contents, with a size set. *)
Lemma useWriter_appends chunks : ∀ ml w,
  expectedSize ml ≠ 0 -> contents ml = Some (buffer w) ->
  let r := useWriter ml w (map DoWrite chunks) in
  contents r.1.1 = Some (buffer w ++ concat chunks)
  ∧ buffer r.1.2 = buffer w ++ concat chunks
  ∧ expectedSize r.1.1 = expectedSize ml ∧ writing r.1.1 = writing ml
  ∧ r.2 = map (fun _ => None) chunks.
Proof.
  induction chunks as [|p chunks IH]; intros ml w He Hc; simpl.
  - by rewrite app_nil_r.
  - unfold Write. rewrite bool_decide_eq_false_2 by done. simpl.
    specialize (IH {| contents := Some (buffer w ++ p); expectedSize := expectedSize ml;
                      writing := writing ml |} {| buffer := buffer w ++ p |} He eq_refl).
    simpl in IH.
    destruct (useWriter _ _ (map DoWrite chunks)) as [[ml2 w2] errs].
    simpl in *. destruct IH as (-> & -> & -> & -> & ->). by rewrite app_assoc.
Qed.

(** X1.  What is written is what is read.  While the writer granted on
    a layer is open, [Reader] is refused with [ErrLayerLocked]; once a
    non-zero size is set and the chunks are written, every [Write]
    having succeeded, [Close] makes the layer readable, and the reader
    holds the bytes the layer had before followed by the chunks, in
    order.  [Reader] does not compare the sizes. *)
Theorem Writer_Reader_round_trip (ml ml1 : memoryLayer) (w : memoryLayerWriter)
    (size : Z) (chunks : list (list byte)) :
  Writer ml = (ml1, Ok w) ->
  size ≠ 0 ->
  let r := useWriter ml1 w (DoSetSize size :: map DoWrite chunks) in
  r.2 = None :: map (fun _ => None) chunks
  ∧ Reader r.1.1 = Err ErrLayerLocked
  ∧ Reader (Close r.1.1).1
    = Ok {| reader := default [] (contents ml) ++ concat chunks |}.
Proof.
  intros HW Hsize r. subst r.
  destruct (ObjectStoreFacts.Writer_granted _ _ _ HW) as (Hw1 & Hc1 & _).
  rewrite ObjectStoreFacts.useWriter_SetSize by done.
  pose proof (useWriter_appends chunks
    {| contents := contents ml1; expectedSize := size; writing := true |} w Hsize Hc1) as H.
  simpl in H. destruct (useWriter _ w (map DoWrite chunks)) as [[ml2 w2] errs].
  simpl in *. destruct H as (Hc2 & _ & _ & Hw2 & ->).
  rewrite <- (Writer_buffer _ _ _ HW).
  unfold Reader. simpl. rewrite Hc2, Hw2. done.
Qed.

Lemma Writer_Reader_round_trip_witness :
  Reader (Close (useWriter (Writer newMemoryLayer).1 {| buffer := [] |}
                   [DoSetSize 5; DoWrite [x01; x02]; DoWrite [x03]]).1.1).1
  = Ok {| reader := [x01; x02; x03] |}.
Proof.
  exact (proj2 (proj2 (Writer_Reader_round_trip newMemoryLayer (Writer newMemoryLayer).1
                         {| buffer := [] |} 5 [[x01; x02]; [x03]] eq_refl
                         ltac:(discriminate)))).
Defined.

(** X2.  No byte is stored before a size is set: while the expected
    size is zero, as it is on a new layer, every [Write] returns 0 and
    an error and leaves the layer and the writer as they are. *)
Theorem Write_before_SetSize (ml : memoryLayer) (w : memoryLayerWriter)
    (chunks : list (list byte)) :
  expectedSize ml = 0 ->
  useWriter ml w (map DoWrite chunks)
  = (ml, w, map (fun _ => Some (ErrorString "Must set size before writing to layer")) chunks)
  ∧ ∀ p, Write ml w p
         = (ml, w, (0, Some (ErrorString "Must set size before writing to layer"))).
Proof.
  intros He. split.
  - induction chunks as [|p chunks IH]; simpl; [done|].
    unfold Write. rewrite bool_decide_eq_true_2 by done. simpl. by rewrite IH.
  - intros p. unfold Write. by rewrite bool_decide_eq_true_2.
Qed.

Lemma Write_before_SetSize_witness :
  useWriter (Writer newMemoryLayer).1 {| buffer := [] |} (map DoWrite [[x01]; [x02; x03]])
  = ((Writer newMemoryLayer).1, {| buffer := [] |},
     map (fun _ => Some (ErrorString "Must set size before writing to layer"))
         [[x01]; [x02; x03]]).
Proof.
  exact (proj1 (Write_before_SetSize (Writer newMemoryLayer).1 {| buffer := [] |}
                  [[x01]; [x02; x03]] eq_refl)).
Defined.

(** Calls through a writer never release the contents. *)
Lemma useWriter_allocated calls : ∀ ml w,
  contents ml ≠ None -> contents (useWriter ml w calls).1.1 ≠ None.
Proof.
  induction calls as [|c calls IH]; intros ml w Hc; simpl; [done|].
  destruct c as [size|p|].
  - specialize (IH (SetSize ml size).1 w).
    destruct (SetSize ml size) as [ml1 e] eqn:E. simpl in IH.
    destruct (useWriter ml1 w calls) as [[ml2 w2] errs]. simpl in *. apply IH.
    unfold SetSize in E. destruct (negb (writing ml)); injection E as <- <-; done.
  - destruct (Write ml w p) as [[ml1 w1] r] eqn:E. specialize (IH ml1 w1).
    destruct (useWriter ml1 w1 calls) as [[ml2 w2] errs]. simpl in *. apply IH.
    unfold Write in E. case_bool_decide; injection E as <- <- <-; done.
  - specialize (IH (Close ml).1 w Hc). simpl in IH.
    destruct (useWriter _ w calls) as [[ml2 w2] errs]. simpl in *. done.
Qed.

(** X3.  [Wait] fails on a layer no writer was ever granted on; it
    suspends on a layer whose writer has just been granted; and after
    that writer's [Close], whatever was done through the writer before,
    it returns nil at once. *)
Theorem Wait_until_Close (ml ml1 : memoryLayer) (w : memoryLayerWriter)
    (calls : list writerCall) :
  Wait newMemoryLayer = Some (Some (ErrorString "No writer to wait on"))
  ∧ (Writer ml = (ml1, Ok w) ->
     Wait ml1 = None
     ∧ Wait (Close (useWriter ml1 w calls).1.1).1 = Some None).
Proof.
  split; [done|]. intros HW.
  destruct (ObjectStoreFacts.Writer_granted _ _ _ HW) as (Hw1 & Hc1 & _).
  split.
  - unfold Wait. by rewrite Hc1, Hw1.
  - pose proof (useWriter_allocated calls ml1 w ltac:(by rewrite Hc1)) as Hc.
    unfold Wait. simpl. by destruct (contents (useWriter ml1 w calls).1.1).
Qed.

Lemma Wait_until_Close_witness :
  Wait (Writer newMemoryLayer).1 = None
  ∧ Wait (Close (useWriter (Writer newMemoryLayer).1 {| buffer := [] |}
                   [DoSetSize 2; DoWrite [x01]]).1.1).1 = Some None.
Proof.
  exact (proj2 (Wait_until_Close newMemoryLayer (Writer newMemoryLayer).1 {| buffer := [] |}
                  [DoSetSize 2; DoWrite [x01]]) eq_refl).
Defined.

(** X4.  [memoryObjectStore.Layer] always returns a handle; it adds an
    empty layer when the digest is unknown and otherwise changes
    nothing: no layer already in the store is replaced, the manifests
    are untouched, and asking again changes nothing more. *)
Theorem Layer_creates_once (dgst : string) (objStore : memoryObjectStore) :
  let objStore' := (Layer dgst objStore).1 in
  (Layer dgst objStore).2 = Ok dgst
  ∧ (layerStorage objStore !! dgst = None ->
     layerStorage objStore' !! dgst = Some newMemoryLayer)
  ∧ (∀ d ml, layerStorage objStore !! d = Some ml -> layerStorage objStore' !! d = Some ml)
  ∧ (∀ d, d ≠ dgst -> layerStorage objStore' !! d = layerStorage objStore !! d)
  ∧ manifestStorage objStore' = manifestStorage objStore
  ∧ Layer dgst objStore' = (objStore', Ok dgst).
Proof.
  unfold Layer. destruct (layerStorage objStore !! dgst) as [ml0|] eqn:E; simpl.
  - rewrite E. repeat split; done.
  - rewrite lookup_insert_eq. repeat split; try done.
    + intros d ml Hd. rewrite lookup_insert_ne; [done|]. intros <-. congruence.
    + intros d Hd. by rewrite lookup_insert_ne.
Qed.

Lemma append_nil_l (s : string) : "" +:+ s = s.
Proof. reflexivity. Qed.

Lemma append_String (c : ascii) (s t : string) : String c s +:+ t = String c (s +:+ t).
Proof. reflexivity. Qed.

(** The key [name:tag] determines the name and the tag when names have
    no colon. *)
Lemma manifest_key_inj name : ∀ name' tag tag',
  ~ In ":"%char (list_ascii_of_string name) ->
  ~ In ":"%char (list_ascii_of_string name') ->
  name +:+ ":" +:+ tag = name' +:+ ":" +:+ tag' -> name = name' ∧ tag = tag'.
Proof.
  induction name as [|c name IH]; intros [|c' name'] tag tag' Hn Hn'; simpl in Hn, Hn';
    repeat (rewrite append_nil_l || rewrite append_String).
  - by intros [= ->].
  - intros [= <- _]. tauto.
  - intros [= -> _]. tauto.
  - intros [= <- H]. destruct (IH name' tag tag') as [-> ->]; tauto.
Qed.



(** With a colon in the name two different pairs share a key. *)
Example manifest_key_collision :
  ("a:b", "c") ≠ ("a", "b:c")
  ∧ Manifest "a" "b:c"
      (WriteManifest "a:b" "c" (Client.manifestOf 1 1)
         {| manifestStorage := ∅; layerStorage := ∅ |}).1
    = Ok (Client.manifestOf 1 1).
Proof. split; [discriminate|reflexivity]. Qed.

End ObjectStoreMore.

(** ** Pulling into the in-memory store *)

Module MemoryPullFacts.
Import Manifest Client MemoryClient MemoryWorld.

Lemma layerOf_Layer dgst w : layerOf dgst (MemoryClient.Layer dgst w).1 = layerOf dgst w.
Proof.
  unfold MemoryClient.Layer, ObjectStore.Layer, layerOf.
  destruct (ObjectStore.layerStorage (store w) !! dgst) as [ml|] eqn:E; simpl.
  - by rewrite E.
  - by rewrite lookup_insert_eq.
Qed.

(** [Layer] then a granted [Writer]. *)
Lemma Layer_Writer_granted dgst w ml1 mlw :
  ObjectStore.Writer (layerOf dgst w) = (ml1, Ok mlw) ->
  MemoryClient.Writer dgst (MemoryClient.Layer dgst w).1
  = (holding w dgst ml1 mlw, Ok (length (handles w))).
Proof.
  intros HW. unfold MemoryClient.Writer. rewrite layerOf_Layer, HW.
  unfold holding, setLayer, MemoryClient.Layer, ObjectStore.Layer. simpl.
  destruct (ObjectStore.layerStorage (store w) !! dgst) as [ml|]; simpl; [done|].
  by rewrite insert_insert_eq.
Qed.

Lemma holding_handle w dgst ml mlw :
  handles (holding w dgst ml mlw) !! length (handles w) = Some (dgst, mlw).
Proof. unfold holding. simpl. by rewrite lookup_app_r, Nat.sub_diag. Qed.

Lemma holding_layerOf w dgst ml mlw : layerOf dgst (holding w dgst ml mlw) = ml.
Proof. unfold layerOf, holding. simpl. by rewrite lookup_insert_eq. Qed.

Lemma holding_setLayer w dgst ml ml' mlw :
  setLayer dgst ml' (holding w dgst ml mlw) = holding w dgst ml' mlw.
Proof. unfold setLayer, holding. simpl. by rewrite insert_insert_eq. Qed.

Lemma holding_CurrentSize w dgst ml mlw :
  MemoryClient.CurrentSize (length (handles w)) (holding w dgst ml mlw)
  = ObjectStore.CurrentSize ml.
Proof. unfold MemoryClient.CurrentSize. by rewrite holding_handle, holding_layerOf. Qed.

Lemma holding_Size w dgst ml mlw :
  MemoryClient.Size (length (handles w)) (holding w dgst ml mlw) = ObjectStore.Size ml.
Proof. unfold MemoryClient.Size. by rewrite holding_handle, holding_layerOf. Qed.

Lemma holding_SetSize w dgst ml mlw size :
  MemoryClient.SetSize (length (handles w)) size (holding w dgst ml mlw)
  = (holding w dgst (ObjectStore.SetSize ml size).1 mlw, (ObjectStore.SetSize ml size).2).
Proof.
  unfold MemoryClient.SetSize. rewrite holding_handle, holding_layerOf.
  destruct (ObjectStore.SetSize ml size) as [ml' e]. by rewrite holding_setLayer.
Qed.

Lemma holding_Close w dgst ml mlw :
  MemoryClient.Close (length (handles w)) (holding w dgst ml mlw)
  = (holding w dgst (ObjectStore.Close ml).1 mlw, None).
Proof.
  unfold MemoryClient.Close. rewrite holding_handle, holding_layerOf.
  unfold ObjectStore.Close, ObjectStore.close. cbv beta iota zeta.
  by rewrite holding_setLayer.
Qed.

Lemma holding_Write w dgst ml mlw p :
  MemoryClient.Write (length (handles w)) p (holding w dgst ml mlw)
  = (holding w dgst (ObjectStore.Write ml mlw p).1.1 (ObjectStore.Write ml mlw p).1.2,
     (ObjectStore.Write ml mlw p).2).
Proof.
  unfold MemoryClient.Write. rewrite holding_handle, holding_layerOf.
  destruct (ObjectStore.Write ml mlw p) as [[ml' mlw'] r]. cbv beta iota zeta.
  rewrite holding_setLayer. unfold holding. simpl. f_equal. f_equal.
  rewrite insert_app_r_alt by lia. by rewrite Nat.sub_diag.
Qed.

Lemma holding_GetBlob w dgst ml mlw name offset :
  MemoryClient.GetBlob name dgst offset (holding w dgst ml mlw)
  = (holding w dgst ml mlw,
     match registry w !! dgst with
     | Some blob =>
         Ok ({| reads := [drop (Z.to_nat offset) blob]; final := None |}, len blob - offset)
     | None => Err (ErrorString "blob unknown")
     end).
Proof. unfold MemoryClient.GetBlob, holding. simpl. by destruct (registry w !! dgst). Qed.

Lemma wrap64_small z : - 2 ^ 63 <= z < 2 ^ 63 -> wrap64 z = z.
Proof. intros H. unfold wrap64. rewrite Z.mod_small; lia. Qed.


(** A layer that is complete is left alone: no request goes to the
    registry. *)
Lemma pullLayer_complete_layer name dgst c w :
  ObjectStore.layerStorage (store w) !! dgst
  = Some {| ObjectStore.contents := Some c; ObjectStore.expectedSize := len c;
            ObjectStore.writing := false |} ->
  pullLayer backend name {| BlobSum := dgst |} w = Some (w, [CallLayer dgst; CallWriter], None).
Proof.
  intros Hl. unfold pullLayer, bind, call. simpl.
  unfold MemoryClient.Layer, ObjectStore.Layer. rewrite Hl. cbv beta iota zeta.
  unfold MemoryClient.Writer, layerOf. simpl. rewrite Hl. simpl.
  unfold ObjectStore.Writer. simpl. rewrite bool_decide_true by done.
  cbv beta iota zeta. rewrite bool_decide_true by done. unfold ret.
  unfold setLayer. simpl. rewrite insert_id by done.
  by destruct w as [[ms ls] hs reg].
Qed.

(** The copy of a body that comes in one chunk. *)
Lemma ioCopy_chunk w dgst ml mlw p :
  ObjectStore.contents ml = Some (ObjectStore.buffer mlw) ->
  (0 < len p -> ObjectStore.expectedSize ml ≠ 0) ->
  ioCopy backend (length (handles w)) [p] None (holding w dgst ml mlw)
  = Some (holding w dgst
            {| ObjectStore.contents := Some (ObjectStore.buffer mlw ++ p);
               ObjectStore.expectedSize := ObjectStore.expectedSize ml;
               ObjectStore.writing := ObjectStore.writing ml |}
            {| ObjectStore.buffer := ObjectStore.buffer mlw ++ p |},
          (if bool_decide (0 < len p) then [CallWrite p] else []), (len p, None)).
Proof.
  intros Hc Hsz. unfold ioCopy, bind, call, ret. simpl.
  case_bool_decide as Hp.
  - rewrite holding_Write.
    unfold ObjectStore.Write. rewrite bool_decide_false by auto. simpl.
    rewrite bool_decide_false by (intros H; apply H; reflexivity).
    rewrite bool_decide_true by done. simpl. by rewrite Z.add_0_r.
  - assert (p = []) as ->.
    { destruct p; [done|]. unfold len in Hp. simpl in Hp. lia. }
    rewrite app_nil_r, <- Hc. by destruct ml, mlw.
Qed.

#[local] Arguments ioCopy : simpl never.

Lemma pullLayer_fetches w name dgst ml1 mlw rest :
  ObjectStore.Writer (layerOf dgst w) = (ml1, Ok mlw) ->
  registry w !! dgst = Some (ObjectStore.buffer mlw ++ rest) ->
  len (ObjectStore.buffer mlw ++ rest) < 2 ^ 63 ->
  let blob := ObjectStore.buffer mlw ++ rest in
  pullLayer backend name {| BlobSum := dgst |} w
  = Some (holding w dgst
            {| ObjectStore.contents := Some blob; ObjectStore.expectedSize := len blob;
               ObjectStore.writing := false |}
            {| ObjectStore.buffer := blob |},
          transferCalls name dgst (len (ObjectStore.buffer mlw)) rest, None).
Proof.
  intros HW Hreg Hlen blob.
  destruct (ObjectStoreFacts.Writer_granted _ _ _ HW) as (Hwr & Hc & _ & _).
  assert (Hcur : ObjectStore.CurrentSize ml1 = len (ObjectStore.buffer mlw)).
  { unfold ObjectStore.CurrentSize. by rewrite Hc. }
  assert (Hblob : len blob = len (ObjectStore.buffer mlw) + len rest).
  { unfold blob, len. rewrite length_app. lia. }
  assert (0 <= len (ObjectStore.buffer mlw) ∧ 0 <= len rest) as [Hb0 Hr0] by (unfold len; lia).
  unfold blob in *. clear blob.
  unfold pullLayer, defer, bind, call, get. simpl.
  destruct (MemoryClient.Layer dgst w) as [w1 r1] eqn:HL.
  assert (Hw1 : w1 = (MemoryClient.Layer dgst w).1) by by rewrite HL.
  assert (r1 = Ok dgst) as ->.
  { unfold MemoryClient.Layer, ObjectStore.Layer in HL.
    destruct (ObjectStore.layerStorage (store w) !! dgst); by injection HL as _ <-. }
  rewrite Hw1, (Layer_Writer_granted _ _ _ _ HW).
  rewrite holding_CurrentSize, holding_GetBlob, Hreg.
  rewrite holding_CurrentSize, holding_SetSize.
  rewrite Hcur.
  replace (len (ObjectStore.buffer mlw ++ rest) - len (ObjectStore.buffer mlw))
    with (len rest) by lia.
  rewrite wrap64_small by lia.
  unfold ObjectStore.SetSize. rewrite Hwr. simpl.
  replace (Z.to_nat (len (ObjectStore.buffer mlw))) with (length (ObjectStore.buffer mlw))
    by (unfold len; lia).
  rewrite drop_app_length.
  rewrite ioCopy_chunk; [|done|simpl; lia]. simpl.
  rewrite holding_CurrentSize, holding_Size. unfold ObjectStore.Size. simpl.
  unfold ObjectStore.CurrentSize. simpl.
  rewrite bool_decide_false by (intros H; apply H; lia).
  unfold ret. rewrite holding_Close. simpl.
  unfold transferCalls. rewrite Hblob. simpl. by rewrite app_nil_r, <- app_assoc.
Qed.

(** X6.  A transfer into the in-memory store, new or resumed.  When the
    layer's writer is granted, the registry serves a blob of which the
    bytes already stored are a prefix, and the blob is shorter than
    2^63 bytes, [pullLayer] asks for the blob from the number of bytes
    stored, sets the size to the blob's length, writes the rest, closes
    both handles and returns nil.  The layer then holds the blob, can be
    read, and a second [pullLayer] of the same digest stops after
    [Writer], with no request to the registry and the store unchanged. *)
Theorem pullLayer_transfers (w : world) (name dgst : string)
    (ml1 : ObjectStore.memoryLayer) (mlw : ObjectStore.memoryLayerWriter) (rest : list byte) :
  ObjectStore.Writer (layerOf dgst w) = (ml1, Ok mlw) ->
  registry w !! dgst = Some (ObjectStore.buffer mlw ++ rest) ->
  len (ObjectStore.buffer mlw ++ rest) < 2 ^ 63 ->
  let blob := ObjectStore.buffer mlw ++ rest in
  let w' := holding w dgst
              {| ObjectStore.contents := Some blob; ObjectStore.expectedSize := len blob;
                 ObjectStore.writing := false |}
              {| ObjectStore.buffer := blob |} in
  pullLayer backend name {| BlobSum := dgst |} w
  = Some (w', transferCalls name dgst (len (ObjectStore.buffer mlw)) rest, None)
  ∧ ObjectStore.Reader (layerOf dgst w') = Ok {| ObjectStore.reader := blob |}
  ∧ pullLayer backend name {| BlobSum := dgst |} w'
    = Some (w', [CallLayer dgst; CallWriter], None).
Proof.
  intros HW Hreg Hlen blob w'. split; [|split].
  - exact (pullLayer_fetches w name dgst ml1 mlw rest HW Hreg Hlen).
  - unfold w'. by rewrite holding_layerOf.
  - apply (pullLayer_complete_layer name dgst blob).
    unfold w', holding. simpl. by rewrite lookup_insert_eq.
Qed.

Lemma pullLayer_transfers_witness :
  pullLayer backend "library/busybox" {| BlobSum := "sha256:0c" |} partialWorld
  = Some (holding partialWorld "sha256:0c"
            {| ObjectStore.contents := Some [x01; x02; x03]; ObjectStore.expectedSize := 3;
               ObjectStore.writing := false |}
            {| ObjectStore.buffer := [x01; x02; x03] |},
          [CallLayer "sha256:0c"; CallWriter; CallGetBlob "library/busybox" "sha256:0c" 1;
           CallSetSize 3; CallWrite [x02; x03]; CallReaderClose; CallWriterClose], None).
Proof.
  refine (proj1 (pullLayer_transfers partialWorld "library/busybox" "sha256:0c"
                   {| ObjectStore.contents := Some [x01]; ObjectStore.expectedSize := 3;
                      ObjectStore.writing := true |}
                   {| ObjectStore.buffer := [x01] |} [x02; x03] _ _ _)).
  - vm_compute. reflexivity.
  - vm_compute. reflexivity.
  - vm_compute. reflexivity.
Defined.

(** X7.  A first transfer that the registry refuses.  When the layer is
    new and the registry has no such blob, [pullLayer] returns the
    registry's error having closed the writer; the layer is left empty
    with an expected size of zero, which [Writer] takes for a complete
    layer: once the registry serves the blob, [pullLayer] of the same
    digest returns nil without asking for it, and the layer stays
    empty. *)
Theorem pullLayer_after_failed_fetch (w : world) (name dgst : string) (blob : list byte) :
  ObjectStore.layerStorage (store w) !! dgst = None ->
  registry w !! dgst = None ->
  let empty := {| ObjectStore.contents := Some []; ObjectStore.expectedSize := 0;
                  ObjectStore.writing := false |} in
  let w1 := holding w dgst empty {| ObjectStore.buffer := [] |} in
  let w2 := {| store := store w1; handles := handles w1;
               registry := <[dgst := blob]> (registry w1) |} in
  pullLayer backend name {| BlobSum := dgst |} w
  = Some (w1, [CallLayer dgst; CallWriter; CallGetBlob name dgst 0; CallWriterClose],
          Some (ErrorString "blob unknown"))
  ∧ pullLayer backend name {| BlobSum := dgst |} w2
    = Some (w2, [CallLayer dgst; CallWriter], None)
  ∧ layerOf dgst w2 = empty.
Proof.
  intros Hl Hreg empty w1 w2. split; [|split].
  - assert (HW : ObjectStore.Writer (layerOf dgst w)
                 = ({| ObjectStore.contents := Some []; ObjectStore.expectedSize := 0;
                       ObjectStore.writing := true |}, Ok {| ObjectStore.buffer := [] |})).
    { unfold layerOf. by rewrite Hl. }
    unfold pullLayer, defer, bind, call, get. simpl.
    destruct (MemoryClient.Layer dgst w) as [w0 r0] eqn:HL.
    assert (Hw0 : w0 = (MemoryClient.Layer dgst w).1) by by rewrite HL.
    assert (r0 = Ok dgst) as ->.
    { unfold MemoryClient.Layer, ObjectStore.Layer in HL. rewrite Hl in HL.
      by injection HL as _ <-. }
    rewrite Hw0, (Layer_Writer_granted _ _ _ _ HW).
    rewrite holding_CurrentSize, holding_GetBlob, Hreg. simpl.
    unfold ret. by rewrite holding_Close.
  - apply (pullLayer_complete_layer name dgst []).
    unfold w2, w1, holding. simpl. by rewrite lookup_insert_eq.
  - unfold layerOf, w2, w1, holding. simpl. by rewrite lookup_insert_eq.
Qed.

Lemma pullLayer_after_failed_fetch_witness :
  pullLayer backend "library/busybox" {| BlobSum := "sha256:0c" |} world0
  = Some (holding world0 "sha256:0c"
            {| ObjectStore.contents := Some []; ObjectStore.expectedSize := 0;
               ObjectStore.writing := false |} {| ObjectStore.buffer := [] |},
          [CallLayer "sha256:0c"; CallWriter; CallGetBlob "library/busybox" "sha256:0c" 0;
           CallWriterClose],
          Some (ErrorString "blob unknown")).
Proof.
  exact (proj1 (pullLayer_after_failed_fetch world0 "library/busybox" "sha256:0c"
                  [x01; x02; x03] eq_refl eq_refl)).
Defined.

End MemoryPullFacts.
(** ** [pullLayer] over any store and registry *)

Module PullLayerMore.
Import Manifest Client.

Section Calls.
Context {W L LW : Type} (B : Backend W L LW).

(** [io.Copy] calls nothing but [Write], on the non-empty chunks in
    order, and stops at the first [Write] that fails or falls short. *)
Lemma ioCopy_calls (dst : LW) (last : option error) (chunks : list (list byte)) : ∀ w,
  ∃ w' ps cp,
    ioCopy B dst chunks last w = Some (w', map CallWrite ps, cp)
    ∧ ps `prefix_of` filter (fun p => 0 < len p) chunks
    ∧ (cp.2 = None -> ps = filter (fun p => 0 < len p) chunks ∧ last = None).
Proof.
  induction chunks as [|p chunks IH]; intros w.
  - exists w, [], (0, last). done.
  - simpl. case_bool_decide as Hp.
    + rewrite filter_cons_True by done.
      unfold bind, call. destruct (Write B dst p w) as [w1 [nw ew]].
      destruct ew as [e|].
      * eexists w1, [p], _. split; [reflexivity|]. split; [|done].
        by apply prefix_cons, prefix_nil.
      * case_bool_decide as Hn.
        -- eexists w1, [p], _. split; [reflexivity|]. split; [|done].
           by apply prefix_cons, prefix_nil.
        -- destruct (IH w1) as (w' & ps & cp & -> & Hpre & Hall).
           unfold ret. simpl. rewrite app_nil_r.
           eexists w', (p :: ps), _. split; [reflexivity|]. split.
           ++ by apply prefix_cons.
           ++ simpl. intros Hcp. destruct (Hall Hcp) as [-> ->]. done.
    + rewrite filter_cons_False by done. apply IH.
Qed.

(** X8.  An error before the transfer.  An error of [ObjectStore.Layer]
    is returned with no other call made.  When the writer is granted
    and [Client.GetBlob] fails, [pullLayer] returns that error: the
    writer is closed, neither [SetSize] nor [Write] is called, and the
    state is the one [Close] leaves. *)
Theorem pullLayer_GetBlob_error (name : string) (fsLayer : FSLayer) (w : W) :
  (∀ w1 err, Layer B (BlobSum fsLayer) w = (w1, Err err) ->
     pullLayer B name fsLayer w = Some (w1, [CallLayer (BlobSum fsLayer)], Some err))
  ∧ (∀ w1 w2 w3 layer layerWriter err,
       Layer B (BlobSum fsLayer) w = (w1, Ok layer) ->
       Writer B layer w1 = (w2, Ok layerWriter) ->
       GetBlob B name (BlobSum fsLayer) (CurrentSize B layerWriter w2) w2 = (w3, Err err) ->
       pullLayer B name fsLayer w
       = Some ((Close B layerWriter w3).1,
               [CallLayer (BlobSum fsLayer); CallWriter;
                CallGetBlob name (BlobSum fsLayer) (CurrentSize B layerWriter w2);
                CallWriterClose],
               Some err)).
Proof.
  split.
  - intros w1 err HL. unfold pullLayer, bind, call. by rewrite HL.
  - intros w1 w2 w3 layer layerWriter err HL HW HG.
    unfold pullLayer, defer, bind, call, get. rewrite HL. simpl. rewrite HW. simpl.
    rewrite HG. simpl. by destruct (Close B layerWriter w3).
Qed.

#[local] Arguments ioCopy : simpl never.

(** X9.  The calls of a transfer.  When the writer is granted and the
    registry answers, [pullLayer] returns, and its calls are, in order:
    [Layer], [Writer], [GetBlob] at the writer's current size, one
    [SetSize] to the current size plus the length announced, [Write]
    calls on a prefix of the non-empty chunks of the body, then the
    [Close] of the body and the [Close] of the writer.  When the result
    is nil every non-empty chunk was written, the body ended without
    error and the writer's current size is its size. *)
Theorem pullLayer_calls (name : string) (fsLayer : FSLayer) (w w1 w2 w3 : W)
    (layer : L) (layerWriter : LW) (layerReader : blobReader) (length : Z) :
  Layer B (BlobSum fsLayer) w = (w1, Ok layer) ->
  Writer B layer w1 = (w2, Ok layerWriter) ->
  GetBlob B name (BlobSum fsLayer) (CurrentSize B layerWriter w2) w2
  = (w3, Ok (layerReader, length)) ->
  ∃ w5 ps r,
    pullLayer B name fsLayer w
    = Some ((Close B layerWriter w5).1,
            [CallLayer (BlobSum fsLayer); CallWriter;
             CallGetBlob name (BlobSum fsLayer) (CurrentSize B layerWriter w2);
             CallSetSize (wrap64 (CurrentSize B layerWriter w3 + length))]
            ++ map CallWrite ps ++ [CallReaderClose; CallWriterClose], r)
    ∧ ps `prefix_of` filter (fun p => 0 < len p) (reads layerReader)
    ∧ (r = None ->
       ps = filter (fun p => 0 < len p) (reads layerReader)
       ∧ final layerReader = None
       ∧ CurrentSize B layerWriter w5 = Size B layerWriter w5).
Proof.
  intros HL HW HG.
  unfold pullLayer, defer, bind, call, get. rewrite HL. simpl. rewrite HW. simpl.
  rewrite HG. simpl.
  destruct (SetSize B layerWriter (wrap64 (CurrentSize B layerWriter w3 + length)) w3)
    as [w4 es] eqn:HS.
  destruct (ioCopy_calls layerWriter (final layerReader) (reads layerReader) w4)
    as (w5 & ps & cp & -> & Hpre & Hall).
  exists w5, ps.
  destruct cp as [n [e|]]; simpl.
  - exists (Some e). split; [|split; [done|done]].
    destruct (Close B layerWriter w5). simpl.
    by rewrite !app_nil_r, <- !app_assoc.
  - case_bool_decide as Hne; simpl.
    + exists (Some (ErrorString "Wrote incorrect number of bytes for layer")).
      split; [|split; [done|done]].
      destruct (Close B layerWriter w5). simpl.
      by rewrite !app_nil_r, <- !app_assoc.
    + exists None. split; [|split; [done|]].
      * destruct (Close B layerWriter w5). simpl.
        by rewrite !app_nil_r, <- !app_assoc.
      * intros _. destruct (Hall eq_refl) as [-> ->]. repeat split.
        destruct (decide (CurrentSize B layerWriter w5 = Size B layerWriter w5)); [done|].
        by destruct Hne.
Qed.

End Calls.

Lemma pullLayer_GetBlob_error_witness :
  pullLayer MemoryClient.backend "library/busybox" {| BlobSum := "sha256:0c" |}
    MemoryClient.world0
  = Some ((Close MemoryClient.backend 0%nat
             (MemoryWorld.holding MemoryClient.world0 "sha256:0c"
                {| ObjectStore.contents := Some []; ObjectStore.expectedSize := 0;
                   ObjectStore.writing := true |} {| ObjectStore.buffer := [] |})).1,
          [CallLayer "sha256:0c"; CallWriter; CallGetBlob "library/busybox" "sha256:0c" 0;
           CallWriterClose],
          Some (ErrorString "blob unknown")).
Proof.
  refine (proj2 (pullLayer_GetBlob_error MemoryClient.backend "library/busybox"
                   {| BlobSum := "sha256:0c" |} MemoryClient.world0)
            (MemoryClient.Layer "sha256:0c" MemoryClient.world0).1
            (MemoryWorld.holding MemoryClient.world0 "sha256:0c"
               {| ObjectStore.contents := Some []; ObjectStore.expectedSize := 0;
                  ObjectStore.writing := true |} {| ObjectStore.buffer := [] |})
            (MemoryWorld.holding MemoryClient.world0 "sha256:0c"
               {| ObjectStore.contents := Some []; ObjectStore.expectedSize := 0;
                  ObjectStore.writing := true |} {| ObjectStore.buffer := [] |})
            "sha256:0c" 0%nat (ErrorString "blob unknown") _ _ _).
  - vm_compute. reflexivity.
  - vm_compute. reflexivity.
  - vm_compute. reflexivity.
Defined.

Lemma pullLayer_calls_witness :
  ∃ w5 ps r,
    pullLayer MemoryClient.backend "library/busybox" {| BlobSum := "sha256:0c" |}
      MemoryWorld.partialWorld
    = Some ((Close MemoryClient.backend 0%nat w5).1,
            [CallLayer "sha256:0c"; CallWriter; CallGetBlob "library/busybox" "sha256:0c" 1;
             CallSetSize 3]
            ++ map CallWrite ps ++ [CallReaderClose; CallWriterClose], r)
    ∧ ps `prefix_of` [[x02; x03]]
    ∧ (r = None ->
       ps = [[x02; x03]]
       ∧ @None error = None
       ∧ CurrentSize MemoryClient.backend 0%nat w5 = Size MemoryClient.backend 0%nat w5).
Proof.
  refine (pullLayer_calls MemoryClient.backend "library/busybox"
            {| BlobSum := "sha256:0c" |} MemoryWorld.partialWorld
            (MemoryClient.Layer "sha256:0c" MemoryWorld.partialWorld).1
            (MemoryWorld.holding MemoryWorld.partialWorld "sha256:0c"
               {| ObjectStore.contents := Some [x01]; ObjectStore.expectedSize := 3;
                  ObjectStore.writing := true |} {| ObjectStore.buffer := [x01] |})
            (MemoryWorld.holding MemoryWorld.partialWorld "sha256:0c"
               {| ObjectStore.contents := Some [x01]; ObjectStore.expectedSize := 3;
                  ObjectStore.writing := true |} {| ObjectStore.buffer := [x01] |})
            "sha256:0c" 0%nat {| reads := [[x02; x03]]; final := None |} 2 _ _ _).
  - vm_compute. reflexivity.
  - vm_compute. reflexivity.
  - vm_compute. reflexivity.
Defined.

End PullLayerMore.
(** ** The scheduler of [Pull], beyond the first error *)

Module PullMore.
Import Manifest Client ClientFacts.

Lemma prefix_cons_cases {A} (x : A) (p l : list A) :
  p `prefix_of` x :: l -> p = [] ∨ ∃ p', p = x :: p' ∧ p' `prefix_of` l.
Proof.
  intros [k Hk]. destruct p as [|y p]; [by left|]. right.
  simpl in Hk. injection Hk as -> ->. exists p. split; [done|]. by exists k.
Qed.

Lemma prefix_snoc_cases {A} (x : A) (l : list A) : ∀ p,
  p `prefix_of` l ++ [x] -> p `prefix_of` l ∨ p = l ++ [x].
Proof.
  induction l as [|y l IH]; intros p Hp; simpl in Hp.
  - apply prefix_cons_cases in Hp as [->|(p' & -> & Hp)]; [by left|].
    apply prefix_nil_inv in Hp as ->. by right.
  - apply prefix_cons_cases in Hp as [->|(p' & -> & Hp)]; [left; apply prefix_nil|].
    destruct (IH p' Hp) as [H| ->]; [left; by apply prefix_cons|by right].
Qed.

(** From iteration [i] on, whatever the workers return, the transfers
    spawned never exceed the results received by more than the part of
    the window that is still free. *)
Lemma pullLoop_window obs layers n : ∀ i p,
  p `prefix_of` (pullLoop obs layers n i).1 ->
  (length (spawned p) + i `min` 4 <= length (received p) + 4)%nat.
Proof.
  induction n as [|n IH]; intros i p Hp.
  - simpl in Hp. apply prefix_nil_inv in Hp as ->. simpl. lia.
  - simpl in Hp. unfold simultaneousLayerPullWindow in Hp.
    specialize (IH (S i)).
    destruct (pullLoop obs layers n (S i)) as [rest r].
    case_bool_decide as Hd; simpl in Hp.
    + destruct (layerResult obs _); simpl in Hp.
      * apply prefix_cons_cases in Hp as [->|(p1 & -> & Hp)]; [simpl; lia|].
        apply prefix_cons_cases in Hp as [->|(p2 & -> & Hp)]; [simpl; lia|].
        apply prefix_nil_inv in Hp as ->. simpl. lia.
      * apply prefix_cons_cases in Hp as [->|(p1 & -> & Hp)]; [simpl; lia|].
        destruct (layers !! i); simpl in Hp.
        -- apply prefix_cons_cases in Hp as [->|(p2 & -> & Hp)]; [simpl; lia|].
           specialize (IH p2 Hp). simpl. lia.
        -- specialize (IH p1 Hp). simpl. lia.
    + destruct (layers !! i); simpl in Hp.
      * apply prefix_cons_cases in Hp as [->|(p2 & -> & Hp)]; [simpl; lia|].
        specialize (IH p2 Hp). simpl. lia.
      * specialize (IH p Hp). lia.
Qed.

(** X10.  The window.  At every point of a run of [Pull], whatever the
    registry and the workers answer, the number of transfers started
    exceeds the number of results received by at most
    [simultaneousLayerPullWindow]. *)
Theorem Pull_window (obs : observed) (name tag : string) (p : list action) :
  p `prefix_of` (Pull obs name tag).1 ->
  Z.of_nat (length (spawned p)) <= Z.of_nat (length (received p)) + simultaneousLayerPullWindow.
Proof.
  unfold Pull, simultaneousLayerPullWindow. intros Hp.
  assert (Hnil : ∀ q, q `prefix_of` [GetImageManifest name tag] ->
                      Z.of_nat (length (spawned q)) <= Z.of_nat (length (received q)) + 4).
  { intros q Hq. apply prefix_cons_cases in Hq as [->|(q1 & -> & Hq)]; [simpl; lia|].
    apply prefix_nil_inv in Hq as ->. simpl. lia. }
  destruct (manifestReply obs) as [m|err]; [|by apply Hnil].
  case_bool_decide; [by apply Hnil|]. case_bool_decide; [by apply Hnil|].
  pose proof (pullLoop_window obs (FSLayers m) (Z.to_nat (len (FSLayers m) + 4)) 0%nat) as Hw.
  destruct (pullLoop obs (FSLayers m) (Z.to_nat (len (FSLayers m) + 4)) 0) as [acts r].
  simpl in Hw. destruct r as [err|]; simpl in Hp.
  - apply prefix_cons_cases in Hp as [->|(p1 & -> & Hp)]; [simpl; lia|].
    specialize (Hw p1 Hp). simpl. lia.
  - apply prefix_cons_cases in Hp as [->|(p1 & -> & Hp)]; [simpl; lia|].
    simpl. apply prefix_snoc_cases in Hp as [Hp| ->].
    + specialize (Hw p1 Hp). lia.
    + specialize (Hw acts (reflexivity _)).
      rewrite spawned_app, received_app, !length_app. simpl. lia.
Qed.

Lemma Pull_window_witness :
  Z.of_nat (length (spawned (take 9 (Pull {| manifestReply := Ok (manifestOf 10 10);
                                              layerResult := failingAt 3 ErrSkipDir;
                                              writeResult := None |}
                                       "library/busybox" "latest").1)))
  <= Z.of_nat (length (received (take 9 (Pull {| manifestReply := Ok (manifestOf 10 10);
                                                  layerResult := failingAt 3 ErrSkipDir;
                                                  writeResult := None |}
                                           "library/busybox" "latest").1)))
     + simultaneousLayerPullWindow.
Proof.
  apply (Pull_window {| manifestReply := Ok (manifestOf 10 10);
                        layerResult := failingAt 3 ErrSkipDir;
                        writeResult := None |} "library/busybox" "latest").
  exists (drop 9 (Pull {| manifestReply := Ok (manifestOf 10 10);
                          layerResult := failingAt 3 ErrSkipDir;
                          writeResult := None |} "library/busybox" "latest").1).
  vm_compute. reflexivity.
Defined.

(** A transfer is only ever started for a layer of the manifest, under
    its own index. *)
Lemma pullLoop_Spawn_layer obs layers n : ∀ i j fsLayer,
  In (Spawn j fsLayer) (pullLoop obs layers n i).1 -> layers !! j = Some fsLayer.
Proof.
  induction n as [|n IH]; intros i j fsLayer Hin; [done|].
  simpl in Hin. specialize (IH (S i) j fsLayer).
  destruct (pullLoop obs layers n (S i)) as [rest r].
  case_bool_decide; simpl in Hin.
  - destruct (layerResult obs _); simpl in Hin.
    + destruct Hin as [|[|[]]]; done.
    + destruct Hin as [|Hin]; [done|].
      destruct (layers !! i) eqn:E; simpl in Hin; [|by apply IH].
      destruct Hin as [[= <- <-]|Hin]; [done|by apply IH].
  - destruct (layers !! i) eqn:E; simpl in Hin; [|by apply IH].
    destruct Hin as [[= <- <-]|Hin]; [done|by apply IH].
Qed.

(** From iteration [i] on, with every layer from [i-4] succeeding, the
    loop starts the layers from [i] and receives the results from
    [i-4], each in increasing order, and runs to its end. *)
Lemma pullLoop_success obs layers n : ∀ i,
  (∀ j, (i - 4 <= j < length layers)%nat -> layerResult obs j = None) ->
  (n + i = length layers + 4)%nat ->
  ∃ acts, pullLoop obs layers n i = (acts, None)
    ∧ spawned acts = seq i (length layers - i)
    ∧ received acts = seq (i - 4) (length layers - (i - 4))
    ∧ Forall (fun a => isCloseCancel a = false) acts.
Proof.
  induction n as [|n IH]; intros i Hok Hn.
  - exists []. replace (length layers - i)%nat with 0%nat by lia.
    replace (length layers - (i - 4))%nat with 0%nat by lia. done.
  - simpl. unfold simultaneousLayerPullWindow.
    destruct (IH (S i)) as (acts & -> & Hs & Hr & Hc); [intros j Hj; apply Hok; lia|lia|].
    assert (Hsp : spawned (match layers !! i with
                           | Some fsLayer => [Spawn i fsLayer]
                           | None => []
                           end ++ acts) = seq i (length layers - i)).
    { rewrite spawned_app, Hs. destruct (layers !! i) as [fsLayer|] eqn:E.
      - apply lookup_lt_Some in E.
        replace (length layers - i)%nat with (S (length layers - S i)) by lia. done.
      - apply lookup_ge_None in E.
        replace (length layers - i)%nat with 0%nat by lia.
        replace (length layers - S i)%nat with 0%nat by lia. done. }
    assert (Hcc : Forall (fun a => isCloseCancel a = false)
                    (match layers !! i with
                     | Some fsLayer => [Spawn i fsLayer]
                     | None => []
                     end ++ acts)).
    { apply Forall_app. split; [|done]. destruct (layers !! i); repeat constructor. }
    assert (Hrc : received (match layers !! i with
                            | Some fsLayer => [Spawn i fsLayer]
                            | None => []
                            end ++ acts) = received acts).
    { rewrite received_app. by destruct (layers !! i). }
    case_bool_decide as Hd; simpl.
    + replace (Z.to_nat (Z.of_nat i - 4)) with (i - 4)%nat by lia.
      rewrite Hok by lia. simpl.
      eexists. split; [reflexivity|]. split; [|split].
      * change (Recv (i - 4) :: ?l) with ([Recv (i - 4)] ++ l).
        by rewrite spawned_app.
      * change (Recv (i - 4) :: ?l) with ([Recv (i - 4)] ++ l).
        rewrite received_app, Hrc, Hr. simpl.
        replace (length layers - (i - 4))%nat with (S (length layers - (S i - 4))) by lia.
        simpl. do 2 f_equal. lia.
      * by constructor.
    + eexists. split; [reflexivity|]. split; [done|]. split; [|done].
      rewrite Hrc, Hr. replace (S i - 4)%nat with 0%nat by lia.
      by replace (i - 4)%nat with 0%nat by lia.
Qed.

(** X11.  A pull in which every transfer succeeds.  When the manifest
    is well formed and the result of every layer is nil, [Pull] starts
    one transfer per layer, in the order of the manifest and each under
    its own index, receives every result in the same order, never
    closes the cancellation channel, then writes the manifest, once and
    last; its result is that of [ObjectStore.WriteManifest]. *)
Theorem Pull_success (obs : observed) (name tag : string) (m : SignedManifest) :
  manifestReply obs = Ok m ->
  len (FSLayers m) = len (History m) ->
  0 < len (FSLayers m) ->
  (∀ i, (i < length (FSLayers m))%nat -> layerResult obs i = None) ->
  ∃ acts,
    Pull obs name tag
    = (GetImageManifest name tag :: acts ++ [WriteManifest name tag m], writeResult obs)
    ∧ spawned acts = seq 0 (length (FSLayers m))
    ∧ received acts = seq 0 (length (FSLayers m))
    ∧ (∀ i fsLayer, In (Spawn i fsLayer) acts -> FSLayers m !! i = Some fsLayer)
    ∧ Forall (fun a => isCloseCancel a = false) acts
    ∧ Forall (fun a => isWriteManifest a = false) acts.
Proof.
  intros Hm Hlen Hpos Hok.
  destruct (pullLoop_success obs (FSLayers m)
              (Z.to_nat (len (FSLayers m) + simultaneousLayerPullWindow)) 0%nat)
    as (acts & Hloop & Hs & Hr & Hc).
  { intros j Hj. apply Hok. lia. }
  { unfold len, simultaneousLayerPullWindow. lia. }
  exists acts. split; [|split; [|split; [|split; [|split]]]].
  - unfold Pull. rewrite Hm.
    rewrite bool_decide_eq_false_2 by (intros H; by apply H).
    rewrite bool_decide_eq_false_2 by lia.
    by rewrite Hloop.
  - by rewrite Hs, Nat.sub_0_r.
  - by rewrite Hr, Nat.sub_0_r.
  - intros i fsLayer Hin.
    pose proof (pullLoop_Spawn_layer obs (FSLayers m)
                  (Z.to_nat (len (FSLayers m) + simultaneousLayerPullWindow)) 0%nat
                  i fsLayer) as H.
    rewrite Hloop in H. by apply H.
  - done.
  - pose proof (pullLoop_no_WriteManifest obs (FSLayers m)
                  (Z.to_nat (len (FSLayers m) + simultaneousLayerPullWindow)) 0%nat) as H.
    by rewrite Hloop in H.
Qed.

Lemma Pull_success_witness :
  ∃ acts,
    Pull {| manifestReply := Ok (manifestOf 6 6); layerResult := fun _ => None;
            writeResult := Some (ErrorString "disk full") |} "library/busybox" "latest"
    = (GetImageManifest "library/busybox" "latest"
       :: acts ++ [WriteManifest "library/busybox" "latest" (manifestOf 6 6)],
       Some (ErrorString "disk full"))
    ∧ spawned acts = seq 0 6
    ∧ received acts = seq 0 6
    ∧ (∀ i fsLayer, In (Spawn i fsLayer) acts -> FSLayers (manifestOf 6 6) !! i = Some fsLayer)
    ∧ Forall (fun a => isCloseCancel a = false) acts
    ∧ Forall (fun a => isWriteManifest a = false) acts.
Proof.
  apply (Pull_success
           {| manifestReply := Ok (manifestOf 6 6); layerResult := fun _ => None;
              writeResult := Some (ErrorString "disk full") |}
           "library/busybox" "latest" (manifestOf 6 6)).
  - reflexivity.
  - reflexivity.
  - reflexivity.
  - intros i _. reflexivity.
Defined.

End PullMore.
(** ** The push workflow *)

Module PushFacts.
Import Manifest Push.

(** *** The scheduler *)

Lemma pushLoop_pullLoop obs layers n : ∀ i,
  pushLoop obs layers n i
  = (map ofPull (Client.pullLoop (asPull obs) layers n i).1,
     (Client.pullLoop (asPull obs) layers n i).2).
Proof.
  induction n as [|n IH]; intros i; [done|].
  simpl. rewrite (IH (S i)).
  unfold simultaneousLayerPushWindow, Client.simultaneousLayerPullWindow.
  destruct (Client.pullLoop (asPull obs) layers n (S i)) as [rest r].
  case_bool_decide; simpl.
  - destruct (layerResult obs _); simpl; [done|].
    rewrite map_app. by destruct (layers !! i).
  - rewrite map_app. by destruct (layers !! i).
Qed.

Lemma received_ofPull acts : received (map ofPull acts) = Client.received acts.
Proof.
  induction acts as [|a acts IH]; [done|].
  unfold received, Client.received in *.
  destruct a; simpl; first [exact IH | f_equal; exact IH].
Qed.

Lemma spawned_ofPull acts : spawned (map ofPull acts) = Client.spawned acts.
Proof.
  induction acts as [|a acts IH]; [done|].
  unfold spawned, Client.spawned in *.
  destruct a; simpl; first [exact IH | f_equal; exact IH].
Qed.

Lemma isCloseCancel_ofPull acts :
  Forall (fun a => Client.isCloseCancel a = false) acts ->
  Forall (fun a => isCloseCancel a = false) (map ofPull acts).
Proof.
  intros H. apply Forall_map. eapply Forall_impl; [exact H|]. by intros [].
Qed.

Lemma isPutImageManifest_ofPull acts :
  Forall (fun a => Client.isWriteManifest a = false) acts ->
  Forall (fun a => isPutImageManifest a = false) (map ofPull acts).
Proof.
  intros H. apply Forall_map. eapply Forall_impl; [exact H|]. by intros [].
Qed.

(** X12.  The result of [Push].  With the manifest read from the local
    store -- whatever its numbers of layers and of history entries,
    which [Push] does not look at -- when the push of some layer fails,
    [Push] returns the error of the failing layer [k] of lowest index,
    having received the results of layers [0] to [k] in increasing
    order, closes the cancellation channel and never calls
    [PutImageManifest]; when no layer fails, it starts and receives
    every layer in the order of the manifest, never closes the
    cancellation channel, calls [PutImageManifest] once and last, and
    returns its result.  A manifest without layers is uploaded
    straight away. *)
Theorem Push_result (obs : observed) (name tag : string) (m : SignedManifest) :
  localManifest obs = Ok m ->
  (∀ k e, (k < length (FSLayers m))%nat -> layerResult obs k = Some e ->
     (∀ j, (j < k)%nat -> layerResult obs j = None) ->
     ∃ acts,
       Push obs name tag = (LoadManifest name tag :: acts ++ [Recv k; CloseCancel], Some e)
       ∧ received acts = seq 0 k
       ∧ Forall (fun a => isCloseCancel a = false) acts
       ∧ Forall (fun a => isPutImageManifest a = false) acts)
  ∧ ((∀ i, (i < length (FSLayers m))%nat -> layerResult obs i = None) ->
     ∃ acts,
       Push obs name tag
       = (LoadManifest name tag :: acts ++ [PutImageManifest name tag m], putResult obs)
       ∧ spawned acts = seq 0 (length (FSLayers m))
       ∧ received acts = seq 0 (length (FSLayers m))
       ∧ Forall (fun a => isCloseCancel a = false) acts
       ∧ Forall (fun a => isPutImageManifest a = false) acts)
  ∧ (FSLayers m = [] ->
     Push obs name tag
     = ([LoadManifest name tag; PutImageManifest name tag m], putResult obs)).
Proof.
  intros Hm. unfold Push. rewrite Hm, pushLoop_pullLoop.
  unfold simultaneousLayerPushWindow.
  pose proof (ClientFacts.pullLoop_no_WriteManifest (asPull obs) (FSLayers m)
                (Z.to_nat (len (FSLayers m) + 4)) 0%nat) as Hnw.
  split; [|split].
  - intros k e Hk He Hl.
    destruct (ClientFacts.pullLoop_first_error (asPull obs) (FSLayers m) k e
                (Z.to_nat (len (FSLayers m) + 4)) 0%nat He)
      as (acts & Hloop & Hrecv & Hcc).
    { intros j Hj. apply Hl. lia. }
    { unfold len. lia. }
    rewrite Hloop in Hnw |- *. simpl in *.
    exists (map ofPull acts). rewrite map_app. split; [done|].
    rewrite received_ofPull, Hrecv, Nat.sub_0_r. split; [done|].
    split; [by apply isCloseCancel_ofPull|].
    apply isPutImageManifest_ofPull. by apply Forall_app in Hnw as [? _].
  - intros Hok.
    destruct (PullMore.pullLoop_success (asPull obs) (FSLayers m)
                (Z.to_nat (len (FSLayers m) + 4)) 0%nat)
      as (acts & Hloop & Hs & Hr & Hc).
    { intros j Hj. apply Hok. lia. }
    { unfold len. lia. }
    rewrite Hloop in Hnw |- *. simpl in *.
    exists (map ofPull acts). split; [done|].
    rewrite spawned_ofPull, received_ofPull, Hs, Hr, Nat.sub_0_r.
    repeat split; try done.
    + by apply isCloseCancel_ofPull.
    + by apply isPutImageManifest_ofPull.
  - intros ->. done.
Qed.

Lemma Push_result_witness :
  Push {| localManifest := Ok (Client.manifestOf 0 3); layerResult := fun _ => None;
          putResult := None |} "library/busybox" "latest"
  = ([LoadManifest "library/busybox" "latest";
      PutImageManifest "library/busybox" "latest" (Client.manifestOf 0 3)], None).
Proof.
  exact (proj2 (proj2 (Push_result
                         {| localManifest := Ok (Client.manifestOf 0 3);
                            layerResult := fun _ => None; putResult := None |}
                         "library/busybox" "latest" (Client.manifestOf 0 3) eq_refl))
           eq_refl).
Defined.

(** *** [pushLayer] *)

Section PushLayerFacts.
Context {W L LR : Type} (B : Backend W L LR).

(** X13.  The checks [pushLayer] makes on the local layer.  An error of
    [ObjectStore.Layer] or of [Layer.Reader] is returned at once; when
    the reader's current size is not its size, the result is the error
    [Local layer incomplete] and the reader is closed.  In all three
    cases the registry is not contacted. *)
Theorem pushLayer_local_checks (name : string) (fsLayer : FSLayer) (w : W) :
  (∀ w1 err, Layer B (BlobSum fsLayer) w = (w1, Err err) ->
     pushLayer B name fsLayer w = (w1, [CallLayer (BlobSum fsLayer)], Some err))
  ∧ (∀ w1 w2 layer err,
       Layer B (BlobSum fsLayer) w = (w1, Ok layer) ->
       Reader B layer w1 = (w2, Err err) ->
       pushLayer B name fsLayer w
       = (w2, [CallLayer (BlobSum fsLayer); CallReader], Some err))
  ∧ (∀ w1 w2 layer layerReader,
       Layer B (BlobSum fsLayer) w = (w1, Ok layer) ->
       Reader B layer w1 = (w2, Ok layerReader) ->
       CurrentSize B layerReader w2 ≠ Size B layerReader w2 ->
       pushLayer B name fsLayer w
       = ((Close B layerReader w2).1,
          [CallLayer (BlobSum fsLayer); CallReader; CallReaderClose],
          Some (ErrorString "Local layer incomplete"))).
Proof.
  split; [|split].
  - intros w1 err HL. unfold pushLayer, bind, call. by rewrite HL.
  - intros w1 w2 layer err HL HR. unfold pushLayer, bind, call. rewrite HL. simpl.
    by rewrite HR.
  - intros w1 w2 layer layerReader HL HR Hne.
    unfold pushLayer, defer, bind, call, get. rewrite HL. simpl. rewrite HR. simpl.
    rewrite bool_decide_true by done. simpl. by destruct (Close B layerReader w2).
Qed.

(** X14.  What [pushLayer] asks of the registry for a complete layer.
    An error of [BlobLength] is returned; a length of zero or more ends
    the push with nil and nothing uploaded; a negative length is
    followed by [InitiateBlobUpload], whose error is returned, and then
    by one [UploadBlob] to the location obtained, for the reader's
    current size and the layer's digest, whose result is the result.
    On every one of these paths the reader is closed last. *)
Theorem pushLayer_registry (name : string) (fsLayer : FSLayer) (w w1 w2 w3 : W)
    (layer : L) (layerReader : LR) (rl : result Z) :
  Layer B (BlobSum fsLayer) w = (w1, Ok layer) ->
  Reader B layer w1 = (w2, Ok layerReader) ->
  CurrentSize B layerReader w2 = Size B layerReader w2 ->
  BlobLength B name (BlobSum fsLayer) w2 = (w3, rl) ->
  let asked := [CallLayer (BlobSum fsLayer); CallReader;
                CallBlobLength name (BlobSum fsLayer)] in
  match rl with
  | Err err =>
      pushLayer B name fsLayer w
      = ((Close B layerReader w3).1, asked ++ [CallReaderClose], Some err)
  | Ok length =>
      if bool_decide (0 <= length) then
        pushLayer B name fsLayer w
        = ((Close B layerReader w3).1, asked ++ [CallReaderClose], None)
      else
        match InitiateBlobUpload B name w3 with
        | (w4, Err err) =>
            pushLayer B name fsLayer w
            = ((Close B layerReader w4).1,
               asked ++ [CallInitiateBlobUpload name; CallReaderClose], Some err)
        | (w4, Ok location) =>
            let size := CurrentSize B layerReader w4 in
            let up := UploadBlob B location layerReader size (BlobSum fsLayer) w4 in
            pushLayer B name fsLayer w
            = ((Close B layerReader up.1).1,
               asked ++ [CallInitiateBlobUpload name;
                         CallUploadBlob location size (BlobSum fsLayer); CallReaderClose],
               up.2)
        end
  end.
Proof.
  intros HL HR Heq HB asked.
  unfold pushLayer, defer, bind, call, get. rewrite HL. simpl. rewrite HR. simpl.
  rewrite bool_decide_false by (intros H; by apply H). rewrite HB. simpl.
  destruct rl as [length|err]; simpl.
  - case_bool_decide; simpl.
    + by destruct (Close B layerReader w3).
    + destruct (InitiateBlobUpload B name w3) as [w4 [location|err]]; simpl.
      * destruct (UploadBlob B location layerReader (CurrentSize B layerReader w4)
                    (BlobSum fsLayer) w4) as [w5 r]. simpl.
        by destruct (Close B layerReader w5).
      * by destruct (Close B layerReader w4).
  - by destruct (Close B layerReader w3).
Qed.

End PushLayerFacts.

Lemma pushLayer_local_checks_witness :
  pushLayer MemoryPush.backend "library/busybox" {| BlobSum := "sha256:0c" |}
    MemoryWorld.partialWorld
  = ((Close MemoryPush.backend ("sha256:0c", {| ObjectStore.reader := [x01] |})
        MemoryWorld.partialWorld).1,
     [CallLayer "sha256:0c"; CallReader; CallReaderClose],
     Some (ErrorString "Local layer incomplete")).
Proof.
  refine (proj2 (proj2 (pushLayer_local_checks MemoryPush.backend "library/busybox"
                          {| BlobSum := "sha256:0c" |} MemoryWorld.partialWorld))
            MemoryWorld.partialWorld MemoryWorld.partialWorld "sha256:0c"
            ("sha256:0c", {| ObjectStore.reader := [x01] |}) _ _ _).
  - vm_compute. reflexivity.
  - vm_compute. reflexivity.
  - vm_compute. discriminate.
Defined.

Lemma pushLayer_registry_witness :
  pushLayer MemoryPush.backend "library/busybox" {| BlobSum := "sha256:0a" |}
    MemoryClient.completeWorld
  = ((Close MemoryPush.backend ("sha256:0a", {| ObjectStore.reader := [x01; x02] |})
        (UploadBlob MemoryPush.backend "/v2/library/busybox/blobs/uploads/1"
           ("sha256:0a", {| ObjectStore.reader := [x01; x02] |}) 2 "sha256:0a"
           MemoryClient.completeWorld).1).1,
     [CallLayer "sha256:0a"; CallReader; CallBlobLength "library/busybox" "sha256:0a";
      CallInitiateBlobUpload "library/busybox";
      CallUploadBlob "/v2/library/busybox/blobs/uploads/1" 2 "sha256:0a"; CallReaderClose],
     None).
Proof.
  exact (pushLayer_registry MemoryPush.backend "library/busybox"
           {| BlobSum := "sha256:0a" |} MemoryClient.completeWorld
           MemoryClient.completeWorld MemoryClient.completeWorld MemoryClient.completeWorld
           "sha256:0a" ("sha256:0a", {| ObjectStore.reader := [x01; x02] |}) (Ok (-1))
           eq_refl eq_refl eq_refl eq_refl).
Defined.

(** *** Pushing from the in-memory store *)

Lemma Layer_present dgst ml w :
  ObjectStore.layerStorage (MemoryClient.store w) !! dgst = Some ml ->
  MemoryClient.Layer dgst w = (w, Ok dgst).
Proof.
  intros Hl. unfold MemoryClient.Layer, ObjectStore.Layer. rewrite Hl.
  by destruct w as [[ms ls] hs reg].
Qed.

(** X15.  [pushLayer] on the in-memory store, for a layer the store
    holds.  A layer that was never written, or that a writer holds, is
    refused by [Reader] with its error; a layer whose contents have not
    the expected length is refused as incomplete; none of these reaches
    the registry.  A complete layer that the registry already holds is
    left there as it is, whatever its bytes; one that the registry
    lacks is stored there with the contents of the layer.  The local
    store is the same afterwards in every case. *)
Theorem pushLayer_memory (w : MemoryClient.world) (name dgst : string)
    (ml : ObjectStore.memoryLayer) :
  ObjectStore.layerStorage (MemoryClient.store w) !! dgst = Some ml ->
  let r := pushLayer MemoryPush.backend name {| BlobSum := dgst |} w in
  MemoryClient.store r.1.1 = MemoryClient.store w
  ∧ match ObjectStore.contents ml with
    | None =>
        r = (w, [CallLayer dgst; CallReader],
             Some (ErrorString "Layer has not been written to yet"))
    | Some c =>
        if ObjectStore.writing ml then
          r = (w, [CallLayer dgst; CallReader], Some ErrLayerLocked)
        else if bool_decide (len c ≠ ObjectStore.expectedSize ml) then
          r = (w, [CallLayer dgst; CallReader; CallReaderClose],
               Some (ErrorString "Local layer incomplete"))
        else
          r.2 = None
          ∧ match MemoryClient.registry w !! dgst with
            | Some blob => MemoryClient.registry r.1.1 = MemoryClient.registry w
            | None => MemoryClient.registry r.1.1 = <[dgst := c]> (MemoryClient.registry w)
            end
    end.
Proof.
  intros Hl r. subst r.
  unfold pushLayer, defer, bind, call, get. simpl.
  rewrite (Layer_present _ _ _ Hl).
  unfold MemoryPush.Reader, MemoryClient.layerOf. rewrite Hl. simpl.
  unfold ObjectStore.Reader.
  destruct (ObjectStore.contents ml) as [c|] eqn:Hc; [|done].
  destruct (ObjectStore.writing ml) eqn:Hw; [done|]. simpl.
  unfold MemoryPush.CurrentSize, MemoryPush.Size, MemoryClient.layerOf. simpl. rewrite Hl.
  unfold LayerReader.CurrentSize, LayerReader.Size. simpl. rewrite Hc.
  case_bool_decide as Hne; simpl; [done|].
  unfold MemoryPush.BlobLength.
  destruct (MemoryClient.registry w !! dgst) as [blob|] eqn:Hreg; simpl.
  - rewrite bool_decide_true by (unfold len; lia). simpl. done.
  - rewrite Hl. simpl. rewrite Hc. repeat split.
    unfold len. by rewrite Nat2Z.id, firstn_all.
Qed.

Lemma pushLayer_memory_witness :
  MemoryClient.registry
    (pushLayer MemoryPush.backend "library/busybox" {| BlobSum := "sha256:0a" |}
       MemoryClient.completeWorld).1.1
  = <[ "sha256:0a" := [x01; x02] ]> (MemoryClient.registry MemoryClient.completeWorld).
Proof.
  exact (proj2 (proj2 (pushLayer_memory MemoryClient.completeWorld "library/busybox"
                         "sha256:0a"
                         {| ObjectStore.contents := Some [x01; x02];
                            ObjectStore.expectedSize := 2;
                            ObjectStore.writing := false |} eq_refl))).
Defined.

End PushFacts.
(** ** Reading a layer held in memory *)

Module LayerReaderFacts.
Import ObjectStore.

Lemma readAll_all n : (0 < n)%nat -> ∀ count mlr,
  (length (reader mlr) + n <= n * count)%nat ->
  LayerReader.readAll mlr n count = (reader mlr, Some (ErrorString "EOF")).
Proof.
  intros Hn. induction count as [|count IH]; intros [c] Hlen; simpl reader in *; [lia|].
  rewrite Nat.mul_succ_r in Hlen.
  simpl. unfold LayerReader.Read. simpl.
  destruct c as [|b c]; [done|].
  rewrite IH.
  - simpl. by rewrite take_drop.
  - simpl reader. rewrite length_drop.
    destruct (decide (length (b :: c) < n)%nat); [|lia].
    destruct count; simpl in *; lia.
Qed.

(** X16.  Reading back.  [Reader] is granted exactly on a layer that
    was written to and that no writer holds.  The reader then delivers
    the contents the layer had at that moment and ends with [io.EOF],
    by any number of [Read] calls into slices of [n > 0] bytes that is
    enough -- also after a later writer has grown the layer, which
    [CurrentSize], read through the layer, follows. *)
Theorem Reader_reads_contents (ml : memoryLayer) :
  ((∃ mlr, Reader ml = Ok mlr) ↔ contents ml ≠ None ∧ writing ml = false)
  ∧ ∀ mlr, Reader ml = Ok mlr ->
      contents ml = Some (reader mlr)
      ∧ LayerReader.CurrentSize ml = len (reader mlr)
      ∧ (∀ n count, (0 < n)%nat -> (length (reader mlr) + n <= n * count)%nat ->
           LayerReader.readAll mlr n count = (reader mlr, Some (ErrorString "EOF")))
      ∧ (∀ ml1 w size p, Writer ml = (ml1, Ok w) -> size ≠ 0 ->
           let ml2 := (useWriter ml1 w [DoSetSize size; DoWrite p; DoClose]).1.1 in
           LayerReader.CurrentSize ml2 = len (reader mlr) + len p
           ∧ LayerReader.Size ml2 = size).
Proof.
  split.
  - unfold Reader. destruct (contents ml); [|split; [by intros [? ?]|by intros [? _]]].
    destruct (writing ml); split; try done.
    + by intros [? ?].
    + by intros [_ ?].
    + intros _. by eexists.
  - intros mlr HR.
    assert (Hc : contents ml = Some (reader mlr)).
    { unfold Reader in HR. destruct (contents ml); [|done].
      destruct (writing ml); [done|]. by injection HR as <-. }
    split; [done|]. split; [unfold LayerReader.CurrentSize; by rewrite Hc|].
    split; [intros n count Hn Hlen; by apply readAll_all|].
    intros ml1 w size p HW Hsize.
    destruct (ObjectStoreFacts.Writer_granted _ _ _ HW) as (Hwr & Hc1 & He & _).
    pose proof (ObjectStoreMore.Writer_buffer _ _ _ HW) as Hb. rewrite Hc in Hb. simpl in Hb.
    unfold useWriter. simpl. unfold SetSize. rewrite Hwr. simpl.
    unfold Write. simpl. rewrite bool_decide_false by done. simpl.
    unfold LayerReader.CurrentSize, LayerReader.Size. simpl.
    rewrite Hb. split; [apply ObjectStoreFacts.len_app|done].
Qed.

Lemma Reader_reads_contents_witness :
  LayerReader.readAll {| reader := [x01; x02; x03] |} 2 3
  = ([x01; x02; x03], Some (ErrorString "EOF")).
Proof.
  refine (proj1 (proj2 (proj2 (proj2 (Reader_reads_contents
                                        {| contents := Some [x01; x02; x03];
                                           expectedSize := 3; writing := false |})
                                 {| reader := [x01; x02; x03] |} eq_refl)))
            2%nat 3%nat _ _).
  - lia.
  - simpl. lia.
Defined.

End LayerReaderFacts.
(** ** The blob server, over all its outcomes *)

Module BlobServerMore.
Import Driver Storage.

Section Outcomes.
Context {D R : Type} (driver : StorageDriver D).
Variable statter : string -> result Descriptor.
Variable pathFn : string -> result string.
Variable newFileReader : string -> Z -> D -> D * result R.


End Outcomes.

End BlobServerMore.

(** ** [Walk], for every driver and callback *)

Module WalkMore.
Import Driver Storage.

Section WalkProperties.
Context {D S : Type} (driver : StorageDriver D) (f : WalkFn (D:=D) (S:=S)).

(** X18.  Where an error of [Walk] comes from.  An error returned by
    [Walk] is the error of the listing of the starting directory, of
    the [Stat] of one of the paths it lists, or of the callback on one
    of them, and in this last case it is not [ErrSkipDir].  Nothing
    that happens below a listed directory is returned. *)
Theorem Walk_error_source (fuel : nat) (from : string) (s s' : S) (d d' : D) (err : error) :
  Walk driver fuel from f s d = Returned (s', d', Some err) ->
  (∃ d0, List driver from d = (d0, Err err))
  ∨ ∃ d0 children child,
      List driver from d = (d0, Ok children) ∧ child ∈ children
      ∧ ((∃ dx d1, Stat driver child dx = (d1, Err err))
         ∨ ∃ dx d1 fileInfo sx s1 d2,
             Stat driver child dx = (d1, Ok fileInfo)
             ∧ f fileInfo sx d1 = Returned (s1, d2, Some err)
             ∧ err ≠ ErrSkipDir).
Proof.
  destruct fuel as [|fuel]; [done|]. simpl.
  destruct (List driver from d) as [d0 [children|e]] eqn:El.
  2:{ intros [= <- <- <-]. left. by exists d0. }
  intros Hw. right. exists d0, children.
  enough (∃ child, child ∈ children
      ∧ ((∃ dx d1, Stat driver child dx = (d1, Err err))
         ∨ ∃ dx d1 fileInfo sx s1 d2,
             Stat driver child dx = (d1, Ok fileInfo)
             ∧ f fileInfo sx d1 = Returned (s1, d2, Some err)
             ∧ err ≠ ErrSkipDir)) as (child & Hin & H) by (by exists child).
  clear El. revert s d0 Hw.
  induction children as [|child rest IHc]; intros s d0; [done|].
  destruct (Stat driver child d0) as [d1 [fileInfo|e]] eqn:Est.
  2:{ intros [= <- <- <-]. exists child. split; [apply elem_of_cons; by left|].
      left. by exists d0, d1. }
  destruct (f fileInfo s d1) as [[[s1 d2] e1]| |] eqn:Ef; [|done|done].
  destruct (bool_decide (e1 ≠ None) && negb (is_err e1 ErrSkipDir)) eqn:Ec.
  { intros [= <- <- ->]. exists child. split; [apply elem_of_cons; by left|].
    right. exists d0, d1, fileInfo, s, s1, d2. split; [done|]. split; [done|].
    apply andb_true_iff in Ec as [_ Hns]. simpl in Hns.
    intros ->. by rewrite bool_decide_true in Hns. }
  assert (∀ s2 d3,
    (fix range (children : list string) (s : S) (d : D) {struct children} :=
       match children with
       | [] => Returned (s, d, None)
       | child :: rest =>
           let '(d, ri) := Stat driver child d in
           match ri with
           | Err err => Returned (s, d, Some err)
           | Ok fileInfo =>
               match f fileInfo s d with
               | Returned (s, d, err) =>
                   let skipDir := is_err err ErrSkipDir in
                   if bool_decide (err ≠ None) && negb skipDir then Returned (s, d, err)
                   else if IsDir fileInfo && negb skipDir then
                     match Walk driver fuel child f s d with
                     | Returned (s, d, _) => range rest s d
                     | Panic => Panic
                     | OutOfFuel => OutOfFuel
                     end
                   else range rest s d
               | Panic => Panic
               | OutOfFuel => OutOfFuel
               end
           end
       end) rest s2 d3 = Returned (s', d', Some err) ->
    ∃ child0, child0 ∈ child :: rest
      ∧ ((∃ dx d1, Stat driver child0 dx = (d1, Err err))
         ∨ ∃ dx d1 fileInfo sx s1 d2,
             Stat driver child0 dx = (d1, Ok fileInfo)
             ∧ f fileInfo sx d1 = Returned (s1, d2, Some err)
             ∧ err ≠ ErrSkipDir)) as Hrest.
  { intros s2 d3 Hr. destruct (IHc s2 d3 Hr) as (c & Hin & H).
    exists c. split; [apply elem_of_cons; by right|done]. }
  destruct (IsDir fileInfo && negb (is_err e1 ErrSkipDir)); [|apply Hrest].
  destruct (Walk driver fuel child f s1 d2) as [[[s2 d3] e2]| |]; [apply Hrest|done|done].
Qed.

(** Once [Walk] does not run out of fuel, more fuel changes nothing. *)
Lemma Walk_fuel_stable fuel : ∀ fuel' from s d,
  (fuel <= fuel')%nat ->
  Walk driver fuel from f s d ≠ OutOfFuel ->
  Walk driver fuel' from f s d = Walk driver fuel from f s d.
Proof.
  induction fuel as [|fuel IH]; intros fuel' from s d Hle; [done|].
  destruct fuel' as [|fuel']; [lia|].
  simpl. destruct (List driver from d) as [d0 [children|e]]; [|done].
  revert s d0. induction children as [|child rest IHc]; intros s d0; [done|].
  destruct (Stat driver child d0) as [d1 [fileInfo|e]]; [|done].
  destruct (f fileInfo s d1) as [[[s1 d2] e1]| |]; [|done|done].
  destruct (bool_decide (e1 ≠ None) && negb (is_err e1 ErrSkipDir)); [done|].
  destruct (IsDir fileInfo && negb (is_err e1 ErrSkipDir)); [|by apply IHc].
  destruct (Walk driver fuel child f s1 d2) as [[[s2 d3] e2]| |] eqn:Ew.
  - rewrite (IH fuel' child s1 d2) by (rewrite ?Ew; done || lia). rewrite Ew. apply IHc.
  - rewrite (IH fuel' child s1 d2) by (rewrite ?Ew; done || lia). by rewrite Ew.
  - done.
Qed.

(** Within states that the driver's reading methods and the callback
    do not leave, and where [rank] decreases from a directory to the
    paths listed in it, [Walk] does not run out of fuel once the fuel
    exceeds the rank of the starting path. *)
Lemma Walk_enough_fuel_in (states : S -> D -> Prop) (rank : string -> nat) :
  (∀ fileInfo s d, f fileInfo s d ≠ OutOfFuel) ->
  (∀ path s d, states s d -> states s (List driver path d).1) ->
  (∀ path s d, states s d -> states s (Stat driver path d).1) ->
  (∀ fileInfo s d s' d' err,
     states s d -> f fileInfo s d = Returned (s', d', err) -> states s' d') ->
  (∀ path s d d' children child,
     states s d -> List driver path d = (d', Ok children) -> child ∈ children ->
     (rank child < rank path)%nat) ->
  ∀ fuel from s d,
    states s d -> (rank from < fuel)%nat -> Walk driver fuel from f s d ≠ OutOfFuel.
Proof.
  intros Hf HL HS Hfs Hrank. induction fuel as [|fuel IH]; intros from s d Hst Hlt; [lia|].
  simpl. pose proof (HL from s d Hst) as Hst0.
  destruct (List driver from d) as [d0 [children|e]] eqn:El; [|done].
  assert (∀ c, c ∈ children -> (rank c < fuel)%nat) as Hall.
  { intros c Hc. pose proof (Hrank _ _ _ _ _ _ Hst El Hc). lia. }
  simpl in Hst0. clear El Hst. revert s d0 Hst0.
  induction children as [|child rest IHc]; intros s d0 Hst0; [done|].
  pose proof (HS child s d0 Hst0) as Hst1.
  destruct (Stat driver child d0) as [d1 [fileInfo|e]]; [|done]. simpl in Hst1.
  destruct (f fileInfo s d1) as [[[s1 d2] e1]| |] eqn:Ef; [|done|by apply Hf in Ef].
  pose proof (Hfs _ _ _ _ _ _ Hst1 Ef) as Hst2.
  assert (∀ c, c ∈ rest -> (rank c < fuel)%nat) as Hrest
    by (intros c Hc; apply Hall; by apply elem_of_cons; right).
  destruct (bool_decide (e1 ≠ None) && negb (is_err e1 ErrSkipDir)); [done|].
  destruct (IsDir fileInfo && negb (is_err e1 ErrSkipDir)); [|by apply IHc].
  destruct (Walk driver fuel child f s1 d2) as [[[s2 d3] e2]| |] eqn:Ew; [|done|].
  - apply IHc; [done|].
    exact (WalkFacts.Walk_invariant driver f states HL HS Hfs fuel child s1 d2 s2 d3 e2
             Hst2 Ew).
  - exfalso. apply (IH child s1 d2); [done| |done]. apply Hall. apply elem_of_cons. by left.
Qed.

(** X19.  [Walk] ends.  On a namespace of bounded depth -- within
    states that the listings, the stats and the callback do not leave,
    some rank decreases from every directory to the paths the driver
    lists in it -- and with a callback that ends, [Walk] returns or
    panics, and what it does is the same for every nesting bound above
    the rank of the starting path. *)
Theorem Walk_terminates (states : S -> D -> Prop) (rank : string -> nat)
    (fuel fuel' : nat) (from : string) (s : S) (d : D) :
  (∀ fileInfo s d, f fileInfo s d ≠ OutOfFuel) ->
  (∀ path s d, states s d -> states s (List driver path d).1) ->
  (∀ path s d, states s d -> states s (Stat driver path d).1) ->
  (∀ fileInfo s d s' d' err,
     states s d -> f fileInfo s d = Returned (s', d', err) -> states s' d') ->
  (∀ path s d d' children child,
     states s d -> List driver path d = (d', Ok children) -> child ∈ children ->
     (rank child < rank path)%nat) ->
  states s d -> (rank from < fuel)%nat -> (rank from < fuel')%nat ->
  Walk driver fuel from f s d ≠ OutOfFuel
  ∧ Walk driver fuel' from f s d = Walk driver fuel from f s d.
Proof.
  intros Hf HL HS Hfs Hrank Hst Hlt Hlt'.
  pose proof (Walk_enough_fuel_in states rank Hf HL HS Hfs Hrank) as Hen.
  split; [by apply Hen|].
  rewrite (Walk_fuel_stable (Datatypes.S (rank from)) fuel from s d)
    by (lia || (apply Hen; [done|lia])).
  by rewrite (Walk_fuel_stable (Datatypes.S (rank from)) fuel' from s d)
    by (lia || (apply Hen; [done|lia])).
Qed.

(** X20.  [ErrSkipDir] prunes.  With a callback that answers
    [ErrSkipDir] on every directory, [Walk] never descends: whatever the
    nesting bound, it does what it does with a bound of one, where only
    the starting directory is listed. *)
Theorem Walk_SkipDir (fuel : nat) (from : string) (s : S) (d : D) :
  (∀ fileInfo s d s' d' err,
     IsDir fileInfo = true -> f fileInfo s d = Returned (s', d', err) ->
     err = Some ErrSkipDir) ->
  Walk driver (Datatypes.S fuel) from f s d = Walk driver 1 from f s d.
Proof.
  intros Hskip. simpl.
  destruct (List driver from d) as [d0 [children|e]]; [|done].
  revert s d0. induction children as [|child rest IHc]; intros s d0; [done|].
  destruct (Stat driver child d0) as [d1 [fileInfo|e]]; [|done].
  destruct (f fileInfo s d1) as [[[s1 d2] e1]| |] eqn:Ef; [|done|done].
  destruct (bool_decide (e1 ≠ None) && negb (is_err e1 ErrSkipDir)); [done|].
  destruct (IsDir fileInfo) eqn:Edir; simpl; [|apply IHc].
  rewrite (Hskip _ _ _ _ _ _ Edir Ef). simpl. rewrite ?bool_decide_true by done. simpl.
  apply IHc.
Qed.

End WalkProperties.

Lemma Walk_error_source_witness :
  (∃ d0, List InMemory.driver "/" InMemory.nestedFiles
         = (d0, Err (ErrorString "callback failed")))
  ∨ ∃ d0 children child,
      List InMemory.driver "/" InMemory.nestedFiles = (d0, Ok children) ∧ child ∈ children
      ∧ ((∃ dx d1, Stat InMemory.driver child dx = (d1, Err (ErrorString "callback failed")))
         ∨ ∃ dx d1 fileInfo sx s1 d2,
             Stat InMemory.driver child dx = (d1, Ok fileInfo)
             ∧ InMemory.failOn "/a" fileInfo sx d1
               = Returned (s1, d2, Some (ErrorString "callback failed"))
             ∧ ErrorString "callback failed" ≠ ErrSkipDir).
Proof.
  apply (Walk_error_source InMemory.driver (InMemory.failOn "/a") 5 "/" [] ["/a"]
           InMemory.nestedFiles InMemory.nestedFiles (ErrorString "callback failed")).
  vm_compute. reflexivity.
Defined.

Lemma Walk_terminates_witness :
  Walk InMemory.driver 4 "/" (InMemory.failOn "/a/b") [] InMemory.nestedFiles ≠ OutOfFuel
  ∧ Walk InMemory.driver 9 "/" (InMemory.failOn "/a/b") [] InMemory.nestedFiles
    = Walk InMemory.driver 4 "/" (InMemory.failOn "/a/b") [] InMemory.nestedFiles.
Proof.
  apply (Walk_terminates InMemory.driver (InMemory.failOn "/a/b")
           (fun _ d => d = InMemory.nestedFiles)
           (fun path => if String.eqb path "/" then 2%nat
                        else if String.eqb path "/a" then 1%nat else 0%nat)).
  - intros fileInfo s d. discriminate.
  - intros path s d ->. unfold InMemory.driver. cbn [List].
    destruct (String.eqb path "/"); [reflexivity|].
    destruct (InMemory.lookup path InMemory.nestedFiles) as [[c|]|]; reflexivity.
  - intros path s d ->. reflexivity.
  - intros fileInfo s d s' d' err -> [= _ <- _]. reflexivity.
  - intros path s d d' children child -> HL Hin. unfold InMemory.driver in HL. cbn [List] in HL.
    destruct (String.eqb_spec path "/") as [->|Hroot].
    + injection HL as _ <-. vm_compute in Hin.
      apply elem_of_cons in Hin as [->|Hin]; [vm_compute; lia|].
      apply elem_of_cons in Hin as [->|Hin]; [vm_compute; lia|].
      by apply elem_of_nil in Hin.
    + destruct (String.eqb_spec "/a" path) as [<-|Ha].
      * injection HL as _ <-. vm_compute in Hin.
        apply elem_of_cons in Hin as [->|Hin]; [vm_compute; lia|].
        by apply elem_of_nil in Hin.
      * unfold InMemory.nestedFiles in HL. cbn [InMemory.lookup] in HL.
        destruct (String.eqb_spec "/a" path) as [<-|_]; [done|].
        destruct (String.eqb_spec "/a/b" path) as [<-|Hb]; [discriminate|].
        destruct (String.eqb_spec "/c" path) as [<-|Hc]; discriminate.
  - reflexivity.
  - simpl. lia.
  - simpl. lia.
Defined.

Lemma Walk_SkipDir_witness :
  Walk InMemory.driver 5 "/" InMemoryWalk.skipDirs [] InMemory.nestedFiles
  = Walk InMemory.driver 1 "/" InMemoryWalk.skipDirs [] InMemory.nestedFiles.
Proof.
  apply (Walk_SkipDir InMemory.driver InMemoryWalk.skipDirs 4 "/" [] InMemory.nestedFiles).
  intros fileInfo s d s' d' err Hdir. unfold InMemoryWalk.skipDirs. rewrite Hdir.
  intros [= _ _ <-]. reflexivity.
Defined.

End WalkMore.
(** ** The callback of the upload sweep *)

Module PurgeMore.
Import Driver Storage.

Section Visit.
Context {D : Type} (driver : StorageDriver D).
Variable uuidParse : string -> option string.
Variable timeParse : list byte -> result Z.
Variable timeNow : nat -> Z.

#[local] Abbreviation visit := (visit driver uuidParse timeParse timeNow).
#[local] Abbreviation uUIDFromPath := (uUIDFromPath uuidParse).

(** X21.  The results of the callback of [getOutstandingUploads].  It
    panics exactly on a path with an empty last component (the empty
    path, or one ending in a slash), where it indexes the first byte of
    the file name.  Otherwise it returns, and its error is nil or
    [ErrSkipDir]: a failure to read or parse a [startedat] file is never
    returned.  It answers [ErrSkipDir] exactly on a directory whose name
    starts with an underscore and is not [_uploads], and then it leaves
    the records, the collected errors and the driver as they were. *)
Theorem visit_result (fileInfo : FileInfo) (st : sweep) (d : D) :
  (visit fileInfo st d = Panic ↔ (pathSplit (Path fileInfo)).2 = "")
  ∧ ∀ st' d' err,
      visit fileInfo st d = Returned (st', d', err) ->
      (err = None ∨ err = Some ErrSkipDir)
      ∧ (err = Some ErrSkipDir
         ↔ IsDir fileInfo = true
           ∧ (∃ rest, (pathSplit (Path fileInfo)).2 = String "_" rest)
           ∧ (pathSplit (Path fileInfo)).2 ≠ "_uploads")
      ∧ (err = Some ErrSkipDir ->
         uploads st' = uploads st ∧ errors st' = errors st ∧ d' = d).
Proof.
  unfold Storage.visit.
  destruct (pathSplit (Path fileInfo)).2 as [|c file] eqn:Efile; [by split|].
  set (st1 := if Ascii.eqb c "_" then _ else st).
  destruct (Ascii.eqb c "_" && IsDir fileInfo && negb (inUploadDir st1)) eqn:Ec.
  - split; [by split|]. intros st' d' err [= <- <- <-].
    apply andb_true_iff in Ec as [Ec Hup]. apply andb_true_iff in Ec as [Hc Hdir].
    apply Ascii.eqb_eq in Hc as ->. apply negb_true_iff in Hup.
    assert (Hst1 : st1 = {| uploads := uploads st; errors := errors st;
                            inUploadDir := String.eqb (String "_" file) "_uploads";
                            ticks := ticks st |}) by reflexivity.
    rewrite Hst1 in Hup |- *. cbn [inUploadDir uploads errors] in *.
    split; [by right|]. split; [|done]. split; [|done]. intros _.
    split; [done|]. split; [by exists file|].
    intros Heq. apply String.eqb_neq in Hup. done.
  - assert (Hno : ¬ (IsDir fileInfo = true
                     ∧ (∃ rest, String c file = String "_" rest)
                     ∧ String c file ≠ "_uploads")).
    { intros (Hdir & [rest [= -> ->]] & Hne).
      assert (Hst1 : st1 = {| uploads := uploads st; errors := errors st;
                              inUploadDir := String.eqb (String "_" rest) "_uploads";
                              ticks := ticks st |}) by reflexivity.
      rewrite Hst1, Hdir in Ec. cbn [inUploadDir] in Ec.
      change (Ascii.eqb "_" "_") with true in Ec. cbn [andb] in Ec.
      apply negb_false_iff in Ec. apply String.eqb_eq in Ec. done. }
    split; [split; [|done]|].
    + destruct (Storage.uUIDFromPath uuidParse (Path fileInfo)) as [uuid isC].
      cbv beta iota zeta. destruct (String.eqb uuid ""); [done|].
      destruct (uploads st1 !! uuid) as [old|];
        (destruct (String.eqb (String c file) "startedat");
         [ destruct (readStartedAtFile driver timeParse (Path fileInfo) _ d)
             as [[d0 ticks2] [t|e]] | ]);
        done.
    + intros st' d' err.
      destruct (Storage.uUIDFromPath uuidParse (Path fileInfo)) as [uuid isC].
      cbv beta iota zeta.
      assert (err = None -> (err = None ∨ err = Some ErrSkipDir)
         ∧ (err = Some ErrSkipDir
            ↔ IsDir fileInfo = true
              ∧ (∃ rest, String c file = String "_" rest)
              ∧ String c file ≠ "_uploads")
         ∧ (err = Some ErrSkipDir ->
            uploads st' = uploads st ∧ errors st' = errors st ∧ d' = d)) as Hnil.
      { intros ->. split; [by left|]. split; [|done]. split; [done|]. intros H.
        by destruct (Hno H). }
      destruct (String.eqb uuid ""); [by intros [= _ _ <-]; apply Hnil|].
      destruct (uploads st1 !! uuid) as [old|];
        (destruct (String.eqb (String c file) "startedat");
         [ destruct (readStartedAtFile driver timeParse (Path fileInfo) _ d)
             as [[d0 ticks2] [t|e]] | ]);
        intros [= _ _ <-]; by apply Hnil.
Qed.

(** *** The UUID of a path *)

Lemma splitSlash_nonempty path : splitSlash path ≠ [].
Proof.
  destruct path as [|c rest]; [done|]. simpl.
  destruct (Ascii.eqb c "/"); [done|]. by destruct (splitSlash rest).
Qed.

Lemma splitSlash_component c :
  forallb (fun ch => negb (Ascii.eqb ch "/")) (list_ascii_of_string c) = true ->
  splitSlash c = [c].
Proof.
  induction c as [|ch c IH]; [done|]. simpl. intros H.
  apply andb_true_iff in H as [Hch Hc]. apply negb_true_iff in Hch. rewrite Hch.
  by rewrite (IH Hc).
Qed.

Lemma splitSlash_app dir c :
  forallb (fun ch => negb (Ascii.eqb ch "/")) (list_ascii_of_string c) = true ->
  splitSlash (dir +:+ "/" +:+ c) = splitSlash dir ++ [c].
Proof.
  intros Hc. induction dir as [|a dir IH].
  - change ("" +:+ "/" +:+ c) with (String "/" c). simpl. by rewrite splitSlash_component.
  - change (String a dir +:+ "/" +:+ c) with (String a (dir +:+ "/" +:+ c)).
    simpl. rewrite IH. destruct (Ascii.eqb a "/"); [done|].
    pose proof (splitSlash_nonempty dir). by destruct (splitSlash dir).
Qed.

Lemma uuidScan_not_last components : ∀ last,
  uuidScan uuidParse components false = ((uuidScan uuidParse components last).1, false).
Proof.
  induction components as [|c rest IH]; intros last; [done|].
  simpl. destruct (uuidParse c); [done|]. apply (IH false).
Qed.

(** X22.  The UUID of a path, component by component.  Of a path
    [dir/c], [uUIDFromPath] gives the UUID of [c], flagged as the
    containing directory, when [c] parses as a UUID; otherwise it gives
    the UUID found in [dir], that of its last component that parses,
    not flagged.  A single component gives its own UUID, flagged, or
    the empty string. *)
Theorem uUIDFromPath_components (dir c : string) :
  forallb (fun ch => negb (Ascii.eqb ch "/")) (list_ascii_of_string c) = true ->
  uUIDFromPath (dir +:+ "/" +:+ c)
  = match uuidParse c with
    | Some uuid => (uuid, true)
    | None => ((uUIDFromPath dir).1, false)
    end
  ∧ uUIDFromPath c
    = match uuidParse c with
      | Some uuid => (uuid, true)
      | None => ("", false)
      end.
Proof.
  intros Hc. unfold Storage.uUIDFromPath. split.
  - rewrite (splitSlash_app dir c Hc), rev_unit. simpl.
    destruct (uuidParse c); [done|]. apply uuidScan_not_last.
  - rewrite (splitSlash_component c Hc). simpl. by destruct (uuidParse c).
Qed.

End Visit.

Lemma visit_result_witness :
  visit InMemory.driver InMemory.uuidParse InMemory.timeParse (fun _ => InMemory.now)
    {| Path := "/repos/_uploads/"; Size := 0; ModTime := 0; IsDir := true |}
    sweep0 InMemory.uploadFiles
  = Panic.
Proof.
  apply (proj1 (visit_result InMemory.driver InMemory.uuidParse InMemory.timeParse
                  (fun _ => InMemory.now)
                  {| Path := "/repos/_uploads/"; Size := 0; ModTime := 0; IsDir := true |}
                  sweep0 InMemory.uploadFiles)).
  reflexivity.
Defined.

Lemma uUIDFromPath_components_witness :
  uUIDFromPath InMemory.uuidParse (("/repos/_uploads/" +:+ InMemory.uuidA) +:+ "/" +:+ "data")
  = ((uUIDFromPath InMemory.uuidParse ("/repos/_uploads/" +:+ InMemory.uuidA)).1, false).
Proof.
  exact (proj1 (uUIDFromPath_components InMemory.uuidParse
                  ("/repos/_uploads/" +:+ InMemory.uuidA) "data" eq_refl)).
Defined.

End PurgeMore.
(** ** Testing for a path through the validating wrapper *)

Module UtilFacts.
Import Driver Base Util.

(** X23.  [exists] tells an absent path from a failure: it answers
    true exactly when [Stat] succeeds, false with no error exactly when
    [Stat] fails with [PathNotFoundError], and false with the error of
    [Stat] otherwise.  Through [Base], a path that does not match
    [PathRegexp] is therefore not reported absent but fails with
    [InvalidPathError], the wrapped driver's [Stat] not being called;
    a matching path gets the answer of the wrapped driver. *)
Theorem exists_Base {D : Type} (drv inner : StorageDriver D) (path : string) (d : D) :
  ((exists_ drv path d).2 = (true, None) ↔ ∃ fileInfo, (Driver.Stat drv path d).2 = Ok fileInfo)
  ∧ ((exists_ drv path d).2 = (false, None)
     ↔ ∃ p, (Driver.Stat drv path d).2 = Err (PathNotFoundError p))
  ∧ (∀ err, (exists_ drv path d).2.2 = Some err -> (Driver.Stat drv path d).2 = Err err)
  ∧ (exists_ drv path d).1 = (Driver.Stat drv path d).1
  ∧ (valid_path path = false ->
     exists_ (Base inner) path d
     = ((Driver.Name inner d).1, (false, Some (InvalidPathError path))))
  ∧ (valid_path path = true ->
     exists_ (Base inner) path d = exists_ inner path (Driver.Name inner d).1).
Proof.
  unfold exists_. split; [|split; [|split; [|split; [|split]]]].
  - destruct (Driver.Stat drv path d) as [d1 [fi|[]]]; simpl;
      (split; [intros H; first [discriminate H | by eexists]
              |intros [x Hx]; first [discriminate Hx | reflexivity]]).
  - destruct (Driver.Stat drv path d) as [d1 [fi|[]]]; simpl;
      (split; [intros H; first [discriminate H | by eexists]
              |intros [x Hx]; first [discriminate Hx | reflexivity]]).
  - intros err. destruct (Driver.Stat drv path d) as [d1 [fi|[]]]; simpl; try done;
      by intros [= <-].
  - by destruct (Driver.Stat drv path d) as [d1 [fi|[]]].
  - intros Hv. unfold valid_path in Hv. simpl. unfold Base.Stat.
    destruct (Driver.Name inner d) as [d1 n]. by rewrite Hv.
  - intros Hv. unfold valid_path in Hv. simpl. unfold Base.Stat.
    destruct (Driver.Name inner d) as [d1 n]. by rewrite Hv.
Qed.

Lemma exists_Base_witness :
  exists_ (Base InMemory.driver) "/blobs/" InMemory.blobFiles
  = (InMemory.blobFiles, (false, Some (InvalidPathError "/blobs/"))).
Proof.
  exact (proj1 (proj2 (proj2 (proj2 (proj2
           (exists_Base InMemory.driver InMemory.driver "/blobs/" InMemory.blobFiles)))))
           eq_refl).
Defined.

End UtilFacts.

(** ** The registry of storage driver factories *)

Module FactoryFacts.
Import Factory.

Section FactoryFacts.
Context {F P Drv : Type} (create : F -> P -> Drv + error).

(** X24.  [Register] and [Create].  [Register] panics exactly when the
    factory is nil or the name is taken, and then registers nothing;
    otherwise [Create] under that name is the factory's own [Create],
    and [Create] under every other name is what it was.  [Create]
    under a name that is not registered fails with
    [InvalidStorageDriverError] carrying the name. *)
Theorem Register_Create (name : string) (factory : option F)
    (driverFactories : gmap string F) (parameters : P) :
  ((∃ message, Register name factory driverFactories = Panics message)
   ↔ factory = None ∨ driverFactories !! name ≠ None)
  ∧ (∀ f m, factory = Some f -> Register name factory driverFactories = Registered m ->
       Create create name parameters m
       = match create f parameters with
         | inl drv => inl drv
         | inr err => inr (FactoryError err)
         end
       ∧ ∀ name', name' ≠ name ->
           Create create name' parameters m = Create create name' parameters driverFactories)
  ∧ (driverFactories !! name = None ->
     Create create name parameters driverFactories = inr (InvalidStorageDriverError name)
     ∧ Error (InvalidStorageDriverError name) = "StorageDriver not registered: " +:+ name).
Proof.
  unfold Register, Create. split; [|split].
  - destruct factory as [f|]; [|split; [by left|by eexists]].
    destruct (driverFactories !! name) as [f0|] eqn:E; split.
    + intros _. by right.
    + intros _. by eexists.
    + by intros [? ?].
    + by intros [|].
  - intros f m -> . destruct (driverFactories !! name) as [f0|] eqn:E; [done|].
    intros [= <-]. rewrite lookup_insert_eq. split; [done|].
    intros name' Hne. by rewrite lookup_insert_ne.
  - intros ->. done.
Qed.

(** What a run of registrations that does not panic leaves. *)
Lemma registerAll_lookup calls : ∀ m0 m,
  registerAll calls m0 = Registered m ->
  NoDup (map fst calls)
  ∧ (∀ name, name ∈ map fst calls -> m0 !! name = None)
  ∧ (∀ name f, m !! name = Some f ↔ m0 !! name = Some f ∨ (name, Some f) ∈ calls)
  ∧ (∀ name, (name, @None F) ∉ calls).
Proof.
  induction calls as [|[name factory] calls IH]; intros m0 m; simpl.
  - intros [= <-]. split; [constructor|]. split; [by intros ? ?%elem_of_nil|].
    split; [|by intros ? ?%elem_of_nil].
    intros name f. split; [by left|]. by intros [|?%elem_of_nil].
  - unfold Register. destruct factory as [f|]; [|done].
    destruct (m0 !! name) as [f0|] eqn:E; [done|].
    intros Hr. destruct (IH _ _ Hr) as (Hnd & Hfresh & Hm & Hnil).
    assert (Hnotin : name ∉ map fst calls).
    { intros Hin. specialize (Hfresh name Hin). by rewrite lookup_insert_eq in Hfresh. }
    split; [by constructor|]. split; [|split].
    + intros n Hn. apply elem_of_cons in Hn as [->|Hn]; [done|].
      specialize (Hfresh n Hn). destruct (decide (n = name)) as [->|Hne]; [done|].
      by rewrite lookup_insert_ne in Hfresh.
    + intros n g. rewrite Hm. split.
      * intros [Hl|Hin]; [|right; apply elem_of_cons; by right].
        destruct (decide (n = name)) as [->|Hne].
        -- rewrite lookup_insert_eq in Hl. injection Hl as <-.
           right. apply elem_of_cons. by left.
        -- rewrite lookup_insert_ne in Hl by done. by left.
      * intros [Hl|Hin].
        -- left. destruct (decide (n = name)) as [->|Hne]; [congruence|].
           by rewrite lookup_insert_ne.
        -- apply elem_of_cons in Hin as [[= -> ->]|Hin]; [|by right].
           left. by rewrite lookup_insert_eq.
    + intros n Hin. apply elem_of_cons in Hin as [[=]|Hin]. by apply (Hnil n).
Qed.

(** X25.  Registrations are never replaced.  When a sequence of
    [Register] calls on an empty registry does not panic, the names
    were all different and no factory was nil, every factory is
    registered under its name, and nothing else is: [Create] under each
    name is the [Create] of the factory given for it. *)
Theorem registerAll_distinct (calls : list (string * option F)) (m : gmap string F)
    (parameters : P) :
  registerAll calls ∅ = Registered m ->
  NoDup (map fst calls)
  ∧ (∀ name, (name, @None F) ∉ calls)
  ∧ (∀ name f, m !! name = Some f ↔ (name, Some f) ∈ calls)
  ∧ (∀ name f, (name, Some f) ∈ calls ->
       Create create name parameters m
       = match create f parameters with
         | inl drv => inl drv
         | inr err => inr (FactoryError err)
         end).
Proof.
  intros Hr. destruct (registerAll_lookup _ _ _ Hr) as (Hnd & _ & Hm & Hnil).
  assert (Hm' : ∀ name f, m !! name = Some f ↔ (name, Some f) ∈ calls).
  { intros name f. rewrite Hm. split; [by intros [|]|by right]. }
  split; [done|]. split; [done|]. split; [done|].
  intros name f Hin. apply Hm' in Hin. unfold Create. by rewrite Hin.
Qed.

End FactoryFacts.

Lemma Register_Create_witness :
  Create (fun (f : string) (p : nat) => @inl string error f) "filesystem" 0%nat
    (<["filesystem" := "fs"]> ∅)
  = inl "fs"
  ∧ ∀ name', name' ≠ "filesystem" ->
      Create (fun (f : string) (p : nat) => @inl string error f) name' 0%nat
        (<["filesystem" := "fs"]> ∅)
      = Create (fun (f : string) (p : nat) => @inl string error f) name' 0%nat ∅.
Proof.
  exact (proj1 (proj2 (Register_Create (fun (f : string) (p : nat) => @inl string error f)
                         "filesystem" (Some "fs") ∅ 0%nat))
           "fs" (<["filesystem" := "fs"]> ∅) eq_refl eq_refl).
Defined.

Lemma registerAll_distinct_witness :
  NoDup (map fst [("filesystem", Some "fs"); ("inmemory", Some "mem")])
  ∧ (∀ name, (name, @None string) ∉ [("filesystem", Some "fs"); ("inmemory", Some "mem")])
  ∧ (∀ name f,
       (<["inmemory" := "mem"]> (<["filesystem" := "fs"]> (∅ : gmap string string)))
         !! name = Some f
       ↔ (name, Some f) ∈ [("filesystem", Some "fs"); ("inmemory", Some "mem")])
  ∧ (∀ name f, (name, Some f) ∈ [("filesystem", Some "fs"); ("inmemory", Some "mem")] ->
       Create (fun (f : string) (p : nat) => @inl string error f) name 0%nat
         (<["inmemory" := "mem"]> (<["filesystem" := "fs"]> ∅))
       = inl f).
Proof.
  exact (registerAll_distinct (fun (f : string) (p : nat) => @inl string error f)
           [("filesystem", Some "fs"); ("inmemory", Some "mem")]
           (<["inmemory" := "mem"]> (<["filesystem" := "fs"]> ∅)) 0%nat eq_refl).
Defined.

End FactoryFacts.

(** ** Sets of strings *)

Module StringSetFacts.
Import StringSet.

Lemma add_lookup keys : ∀ ss key,
  add ss keys !! key = Some tt ↔ ss !! key = Some tt ∨ key ∈ keys.
Proof.
  induction keys as [|k keys IH]; intros ss key; simpl.
  - split; [by left|]. by intros [|?%elem_of_nil].
  - rewrite IH. split.
    + intros [Hl|Hin]; [|right; apply elem_of_cons; by right].
      destruct (decide (key = k)) as [->|Hne]; [right; apply elem_of_cons; by left|].
      rewrite lookup_insert_ne in Hl by done. by left.
    + intros [Hl|Hin].
      * left. destruct (decide (key = k)) as [->|Hne]; [by rewrite lookup_insert_eq|].
        by rewrite lookup_insert_ne.
      * apply elem_of_cons in Hin as [->|Hin]; [|by right].
        left. by rewrite lookup_insert_eq.
Qed.

(** X26.  A [stringSet] holds the keys it was given, each once.
    [contains] on [newStringSet(keys...)] is true exactly for the
    strings among [keys]; [add] keeps what the set held; and, in
    whatever order the map is enumerated, [keys] has no duplicate,
    lists exactly the strings among those given, and is not longer than
    the list given. *)
Theorem newStringSet_contains (ranging : stringSet -> list (string * unit))
    (given more : list string) (key : string) :
  (∀ ss, ranging ss ≡ₚ map_to_list ss) ->
  (contains (newStringSet given) key = true ↔ key ∈ given)
  ∧ (contains (add (newStringSet given) more) key = true ↔ key ∈ given ∨ key ∈ more)
  ∧ NoDup (keys ranging (newStringSet given))
  ∧ (key ∈ keys ranging (newStringSet given) ↔ key ∈ given)
  ∧ (length (keys ranging (newStringSet given)) <= length given)%nat.
Proof.
  intros Hrange. pose proof add_lookup as Hadd.
  assert (Hc : ∀ ss k, contains ss k = true ↔ ss !! k = Some tt).
  { intros ss k. unfold contains. destruct (ss !! k) as [[]|]; by split. }
  assert (Hk : ∀ k, k ∈ keys ranging (newStringSet given) ↔ k ∈ given).
  { intros k. unfold keys. rewrite Hrange, list_elem_of_fmap. split.
    - intros [[k' []] [-> Hin]]. apply elem_of_map_to_list in Hin.
      apply Hadd in Hin as [Hin|Hin]; [done|done].
    - intros Hin. exists (k, tt). split; [done|]. apply elem_of_map_to_list.
      apply Hadd. by right. }
  assert (Hnd : NoDup (keys ranging (newStringSet given))).
  { unfold keys. rewrite Hrange. apply NoDup_fst_map_to_list. }
  split; [|split; [|split; [|split]]].
  - rewrite Hc. unfold newStringSet. rewrite Hadd. split; [by intros [|]|by right].
  - rewrite Hc, Hadd. unfold newStringSet. rewrite Hadd.
    split; [intros [[|]|]; by auto|intros [|]; by auto].
  - done.
  - apply Hk.
  - apply submseteq_length, NoDup_submseteq; [done|]. intros k Hin. by apply Hk.
Qed.

Lemma newStringSet_contains_witness :
  (contains (newStringSet ["push"; "pull"; "push"]) "pull" = true
   ↔ "pull" ∈ ["push"; "pull"; "push"])
  ∧ (contains (add (newStringSet ["push"; "pull"; "push"]) ["*"]) "pull" = true
     ↔ "pull" ∈ ["push"; "pull"; "push"] ∨ "pull" ∈ ["*"])
  ∧ NoDup (keys map_to_list (newStringSet ["push"; "pull"; "push"]))
  ∧ ("pull" ∈ keys map_to_list (newStringSet ["push"; "pull"; "push"])
     ↔ "pull" ∈ ["push"; "pull"; "push"])
  ∧ (length (keys map_to_list (newStringSet ["push"; "pull"; "push"])) <= 3)%nat.
Proof.
  apply (newStringSet_contains map_to_list ["push"; "pull"; "push"] ["*"] "pull").
  intros ss. reflexivity.
Defined.

End StringSetFacts.
(** ** Driver versions *)

Module VersionFacts.
Import Storage Version.

Lemma Split_nonempty sep s : Split sep s ≠ [].
Proof.
  destruct s as [|c rest]; [done|]. simpl.
  destruct (Ascii.eqb c sep); [done|]. by destruct (Split sep rest).
Qed.

Lemma Split_part sep a :
  forallb (fun c => negb (Ascii.eqb c sep)) (list_ascii_of_string a) = true ->
  Split sep a = [a].
Proof.
  induction a as [|c a IH]; [done|]. simpl. intros H.
  apply andb_true_iff in H as [Hc Ha]. apply negb_true_iff in Hc. rewrite Hc.
  by rewrite (IH Ha).
Qed.

Lemma Split_app sep a rest :
  forallb (fun c => negb (Ascii.eqb c sep)) (list_ascii_of_string a) = true ->
  Split sep (a +:+ String sep rest) = a :: Split sep rest.
Proof.
  induction a as [|c a IH]; simpl; intros H.
  - change ("" +:+ String sep rest) with (String sep rest). simpl.
    by rewrite Ascii.eqb_refl.
  - apply andb_true_iff in H as [Hc Ha]. apply negb_true_iff in Hc.
    change (String c a +:+ String sep rest) with (String c (a +:+ String sep rest)).
    simpl. by rewrite Hc, (IH Ha).
Qed.

(** X27.  The parts of a version.  [Major] reads the text before the
    first dot, or the whole text when there is no dot, and never
    panics.  [Minor] reads the text between the first dot and the
    second, or the end; further parts are ignored; on a version without
    a dot it panics, the index being out of range. *)
Theorem Version_parts (ParseUint : string -> Z) (a b rest : string) :
  forallb (fun c => negb (Ascii.eqb c ".")) (list_ascii_of_string a) = true ->
  forallb (fun c => negb (Ascii.eqb c ".")) (list_ascii_of_string b) = true ->
  Major ParseUint a = Returned (ParseUint a)
  ∧ Minor ParseUint a = Panic
  ∧ Major ParseUint (a +:+ "." +:+ rest) = Returned (ParseUint a)
  ∧ Minor ParseUint (a +:+ "." +:+ b) = Returned (ParseUint b)
  ∧ Minor ParseUint (a +:+ "." +:+ b +:+ "." +:+ rest) = Returned (ParseUint b)
  ∧ ∀ version, Major ParseUint version ≠ Panic.
Proof.
  intros Ha Hb. unfold Major, Minor.
  change ("." +:+ rest) with (String "." rest).
  change ("." +:+ b) with (String "." b).
  change ("." +:+ b +:+ String "." rest) with (String "." (b +:+ String "." rest)).
  rewrite !(Split_app "." a) by done. rewrite (Split_app "." b) by done.
  rewrite !Split_part by done.
  repeat split; try done.
  intros version. pose proof (Split_nonempty "." version).
  by destruct (Split "." version).
Qed.

Lemma Version_parts_witness :
  Major digits "0" = Returned (digits "0")
  ∧ Minor digits "0" = Panic
  ∧ Major digits ("0" +:+ "." +:+ "2") = Returned (digits "0")
  ∧ Minor digits ("0" +:+ "." +:+ "1") = Returned (digits "1")
  ∧ Minor digits ("0" +:+ "." +:+ "1" +:+ "." +:+ "2") = Returned (digits "1")
  ∧ ∀ version, Major digits version ≠ Panic.
Proof.
  exact (Version_parts digits "0" "1" "2" eq_refl eq_refl).
Defined.

(** The current version is 0.1. *)
Example CurrentVersion_parts :
  Major digits CurrentVersion = Returned 0 ∧ Minor digits CurrentVersion = Returned 1.
Proof. split; reflexivity. Qed.

End VersionFacts.

(** ** The access controller of package [silly] *)

Module SillyFacts.
Import Storage Silly.

Lemma Join_nonempty e rest sep : e ≠ "" -> Join (e :: rest) sep ≠ "".
Proof.
  intros He. destruct rest as [|e' rest]; [done|].
  simpl. intros H. by apply RegexpFacts.append_empty in H as [? _].
Qed.

Lemma append_nil_r (s : string) : s +:+ "" = s.
Proof.
  induction s as [|c s IH]; [done|].
  change (String c s +:+ "") with (String c (s +:+ "")). by rewrite IH.
Qed.

Lemma scope_nonempty access : Type_ access +:+ ":" +:+ Name access +:+ ":" +:+ Action access ≠ "".
Proof.
  intros H. apply RegexpFacts.append_empty in H as [_ H]. discriminate H.
Qed.

(** X28.  Who [Authorized] lets through.  Access is granted exactly
    when the request is available and the first value of its
    [Authorization] header is not empty -- whatever that value and
    whatever is asked for -- and always to the user [silly].  An error
    of [GetRequest] is returned as it is.  Otherwise the result is a
    challenge with the realm and the service of the controller, whose
    scope lists the accesses asked for, in order, and is empty exactly
    when none was given. *)
Theorem Authorized_grants (ac : accessController)
    (request : gmap string (list string) + error) (accessRecords : list Access) :
  ((∃ name, Authorized ac request accessRecords = WithUser name)
   ↔ ∃ header, request = inl header ∧ Get header "Authorization" ≠ "")
  ∧ (∀ name, Authorized ac request accessRecords = WithUser name -> name = "silly")
  ∧ (∀ err, Authorized ac request accessRecords = Failed err ↔ request = inr err)
  ∧ (∀ ch, Authorized ac request accessRecords = Challenge ch ->
       ch_realm ch = realm ac ∧ ch_service ch = service ac
       ∧ scope ch
         = Join (map (fun access =>
                        Type_ access +:+ ":" +:+ Name access +:+ ":" +:+ Action access)
                     accessRecords) " "
       ∧ (scope ch = "" ↔ accessRecords = [])).
Proof.
  unfold Authorized. destruct request as [header|err].
  - destruct (String.eqb_spec (Get header "Authorization") "") as [He|Hne].
    + split; [|split; [|split]]; try done.
      * split; [by intros [? ?]|]. intros (h & [= <-] & Hh). done.
      * intros ch [= <-]. simpl. split; [done|]. split; [done|].
        destruct accessRecords as [|access rest].
        -- done.
        -- rewrite bool_decide_true by (unfold len; simpl; lia).
           split; [done|]. split; [|done]. intros H. exfalso.
           revert H. apply Join_nonempty, scope_nonempty.
    + split; [|split; [|split]]; try done.
      * split; [|by eexists]. intros _. by exists header.
      * by intros name [= <-].
  - split; [|split; [|split]]; try done.
    + split; [by intros [? ?]|]. by intros (h & ? & _).
    + intros err'. split; by intros [= ->].
Qed.

Lemma Authorized_grants_witness :
  scope {| ch_realm := "registry"; ch_service := "test";
           scope := "repository:library/busybox:pull repository:library/busybox:push" |}
  = "" ↔ [ {| Type_ := "repository"; Name := "library/busybox"; Action := "pull" |};
           {| Type_ := "repository"; Name := "library/busybox"; Action := "push" |} ] = [].
Proof.
  exact (proj2 (proj2 (proj2
           (proj2 (proj2 (proj2
              (Authorized_grants {| realm := "registry"; service := "test" |} (inl ∅)
                 [ {| Type_ := "repository"; Name := "library/busybox"; Action := "pull" |};
                   {| Type_ := "repository"; Name := "library/busybox"; Action := "push" |} ])))
              {| ch_realm := "registry"; ch_service := "test";
                 scope := "repository:library/busybox:pull repository:library/busybox:push" |}
              eq_refl)))).
Defined.

Section Challenge.
Variable quote : string -> string.

(** X29.  From the options to the challenge on the wire.  A controller
    built from options whose [realm] and [service] are strings answers
    a request without credentials with status 401 and one
    [WWW-Authenticate] value: the bearer realm and service of the
    options, followed by the scope exactly when an access was asked
    for; the other response headers are left as they are.  Options
    lacking a string [realm], or else a string [service], build no
    controller. *)
Theorem challenge_ServeHTTP (options : gmap string value)
    (header response : gmap string (list string)) (accessRecords : list Access) :
  ((∃ ac, newAccessController options = inl ac)
   ↔ ∃ r s, options !! "realm" = Some (StringValue r)
            ∧ options !! "service" = Some (StringValue s))
  ∧ ∀ r s, options !! "realm" = Some (StringValue r) ->
      options !! "service" = Some (StringValue s) ->
      Get header "Authorization" = "" ->
      ∃ ac ch,
        newAccessController options = inl ac
        ∧ Authorized ac (inl header) accessRecords = Challenge ch
        ∧ (ServeHTTP quote ch response).2 = StatusUnauthorized
        ∧ (ServeHTTP quote ch response).1 !! "Www-Authenticate"
          = Some [("Bearer realm=" +:+ quote r +:+ ",service=" +:+ quote s)
                  +:+ match accessRecords with
                      | [] => ""
                      | _ => ",scope=" +:+ quote (scope ch)
                      end]
        ∧ ∀ key, key ≠ "Www-Authenticate" ->
            (ServeHTTP quote ch response).1 !! key = response !! key.
Proof.
  split.
  - unfold newAccessController. split.
    + intros [ac Hac]. destruct (options !! "realm") as [[r|]|]; [|done|done].
      destruct (options !! "service") as [[s|]|]; [|done|done]. by exists r, s.
    + intros (r & s & -> & ->). by eexists.
  - intros r s Hr Hs Hh. unfold newAccessController, Authorized. rewrite Hr, Hs, Hh.
    eexists _, _. split; [reflexivity|]. split; [reflexivity|].
    unfold ServeHTTP. cbn [ch_realm ch_service scope realm service fst snd].
    split; [done|].
    assert (Hkey : CanonicalMIMEHeaderKey "WWW-Authenticate" = "Www-Authenticate")
      by reflexivity.
    split.
    + pose proof (BlobServerFacts.Set_lookup response "WWW-Authenticate") as Hset.
      rewrite Hkey in Hset. rewrite Hset. do 2 f_equal.
      destruct accessRecords as [|access rest].
      * simpl. by rewrite append_nil_r.
      * rewrite bool_decide_true by (unfold len; simpl; lia).
        destruct (String.eqb_spec
                    (Join (map (fun access =>
                                  Type_ access +:+ ":" +:+ Name access +:+ ":" +:+ Action access)
                               (access :: rest)) " ") "") as [He|Hne].
        -- exfalso. revert He. apply Join_nonempty, scope_nonempty.
        -- done.
    + intros key Hne. apply BlobServerFacts.Set_lookup_ne. by rewrite Hkey.
Qed.

End Challenge.

Lemma challenge_ServeHTTP_witness :
  ∃ ac ch,
    newAccessController
      (<["service" := StringValue "test"]> (<["realm" := StringValue "registry"]> ∅))
    = inl ac
    ∧ Authorized ac (inl ∅) [] = Challenge ch
    ∧ (ServeHTTP quotePlain ch ∅).2 = StatusUnauthorized
    ∧ (ServeHTTP quotePlain ch ∅).1 !! "Www-Authenticate"
      = Some [("Bearer realm=" +:+ quotePlain "registry" +:+ ",service=" +:+ quotePlain "test")
              +:+ ""]
    ∧ ∀ key, key ≠ "Www-Authenticate" ->
        (ServeHTTP quotePlain ch ∅).1 !! key = (∅ : gmap string (list string)) !! key.
Proof.
  exact (proj2 (challenge_ServeHTTP quotePlain
                  (<["service" := StringValue "test"]> (<["realm" := StringValue "registry"]> ∅))
                  ∅ ∅ []) "registry" "test" eq_refl eq_refl eq_refl).
Defined.

End SillyFacts.
(** ** The paths of [PathRegexp] *)

Module PathFacts.
Import Regexp Driver.

Lemma matches_class class s :
  matches (CharClass class) s ↔ ∃ c, s = String c "" ∧ class c = true.
Proof.
  split.
  - intros H. inversion H; subst. by eexists.
  - intros (c & -> & Hc). by constructor.
Qed.

Lemma matches_star_class class s :
  matches (Star (CharClass class)) s ↔ forallb class (list_ascii_of_string s) = true.
Proof.
  split.
  - intros H. remember (Star (CharClass class)) as r eqn:Hr.
    induction H as [|? ? ?|? ? ? ? ? ? ? ?|? ? ? ? ?|? ? ? ? ?|?|r0 s1 s2 H1 IH1 H2 IH2];
      try discriminate; [done|].
    injection Hr as ->. apply matches_class in H1 as (c & -> & Hc).
    change (String c "" +:+ s2) with (String c s2).
    simpl. by rewrite Hc, (IH2 eq_refl).
  - induction s as [|c s IH]; simpl; intros H; [constructor|].
    apply andb_true_iff in H as [Hc Hs].
    change (String c s) with (String c "" +:+ s).
    constructor; [by constructor|by apply IH].
Qed.

Lemma matches_plus_class class s :
  matches (Plus (CharClass class)) s
  ↔ s ≠ "" ∧ forallb class (list_ascii_of_string s) = true.
Proof.
  unfold Plus. split.
  - intros H. inversion H as [| |? ? s1 s2 H1 H2| | | |]; subst.
    apply matches_class in H1 as (c & -> & Hc). apply matches_star_class in H2.
    change (String c "" +:+ s2) with (String c s2).
    split; [done|]. simpl. by rewrite Hc, H2.
  - intros [Hne H]. destruct s as [|c s]; [done|]. simpl in H.
    apply andb_true_iff in H as [Hc Hs].
    change (String c s) with (String c "" +:+ s).
    constructor; [by constructor|by apply matches_star_class].
Qed.

(** One component: a slash and one class byte or more. *)
Lemma matches_component s :
  matches (Concat (Literal "/") (Plus (CharClass path_class))) s
  ↔ ∃ c, s = String "/" c ∧ c ≠ ""
         ∧ forallb path_class (list_ascii_of_string c) = true.
Proof.
  split.
  - intros H. inversion H as [| |? ? s1 s2 H1 H2| | | |]; subst.
    apply matches_class in H1 as (c & -> & Hc). apply Ascii.eqb_eq in Hc as <-.
    apply matches_plus_class in H2 as [Hne Hall].
    change (String "/" "" +:+ s2) with (String "/" s2). by exists s2.
  - intros (c & -> & Hne & Hall). change (String "/" c) with (String "/" "" +:+ c).
    constructor; [constructor; apply Ascii.eqb_refl|by apply matches_plus_class].
Qed.

Lemma matches_star_components s :
  matches (Star (Concat (Literal "/") (Plus (CharClass path_class)))) s
  ↔ ∃ components,
      Forall (fun c => c ≠ "" ∧ forallb path_class (list_ascii_of_string c) = true)
             components
      ∧ s = foldr (fun c rest => String "/" (c +:+ rest)) "" components.
Proof.
  split.
  - intros H. remember (Star (Concat (Literal "/") (Plus (CharClass path_class)))) as r eqn:Hr.
    induction H as [|? ? ?|? ? ? ? ? ? ? ?|? ? ? ? ?|? ? ? ? ?|?|r0 s1 s2 H1 IH1 H2 IH2];
      try discriminate; [by exists []|].
    injection Hr as ->. apply matches_component in H1 as (c & -> & Hne & Hall).
    destruct (IH2 eq_refl) as (components & Hcs & ->).
    exists (c :: components). split; [by constructor|].
    simpl. by change (String "/" c +:+ ?rest) with (String "/" (c +:+ rest)).
  - intros (components & Hcs & ->). induction Hcs as [|c components [Hne Hall] Hcs IH].
    + constructor.
    + simpl. change (String "/" (c +:+ ?rest)) with (String "/" c +:+ rest).
      constructor; [|done]. apply matches_component. by exists c.
Qed.

(** X30.  The paths [PathRegexp] accepts are exactly the texts made of
    one component or more, each a slash followed by a non-empty run of
    the bytes of [path_class]: [A-Z], [a-z], [0-9], period, underscore
    and hyphen. *)
Theorem PathRegexp_components (path : string) :
  MatchString PathRegexp path = true
  ↔ ∃ components,
      components ≠ []
      ∧ Forall (fun c => c ≠ "" ∧ forallb path_class (list_ascii_of_string c) = true)
               components
      ∧ path = foldr (fun c rest => String "/" (c +:+ rest)) "" components.
Proof.
  rewrite RegexpFacts.MatchString_matches. unfold PathRegexp, Plus at 1. split.
  - intros H. inversion H as [| |? ? s1 s2 H1 H2| | | |]; subst.
    apply matches_component in H1 as (c & -> & Hne & Hall).
    apply matches_star_components in H2 as (components & Hcs & ->).
    exists (c :: components). split; [done|]. split; [by constructor|].
    simpl. by change (String "/" c +:+ ?rest) with (String "/" (c +:+ rest)).
  - intros (components & Hne & Hcs & ->).
    destruct Hcs as [|c components [Hc Hall] Hcs]; [done|].
    simpl. change (String "/" (c +:+ ?rest)) with (String "/" c +:+ rest).
    constructor.
    + apply matches_component. by exists c.
    + apply matches_star_components. by exists components.
Qed.

(** Upper case and dot components pass; the root and a trailing slash
    do not. *)
Example PathRegexp_edge_paths :
  map (MatchString PathRegexp) ["/Library/BusyBox"; "/a/../b"; "/."; "/"; "/a/"]
  = [true; true; true; false; false].
Proof. reflexivity. Qed.

End PathFacts.
